(** * gmail-mcp: account managers, batch processing and the iCloud IMAP client

    A shallow embedding of
      - [src/account-manager.ts]              (Gmail [AccountManager]),
      - [packages/icloud/src/account-manager.ts] (iCloud [AccountManager]),
      - [src/index.ts]                        ([processBatches] and the batch handlers),
      - [packages/icloud/src/imap-client.ts]  ([ImapClient]),
    followed by the properties of the specification that were checked
    against them.

    Modelling conventions.
      - A JavaScript object used as a dictionary is an association list of
        its own properties in creation order, which is the order
        [for ... in] and [Object.values] enumerate string keys that are not
        array indices (e-mail addresses never are).  A read [o[k]] also
        finds the members a plain object inherits from [Object.prototype]
        ([Obj.inherited]): the truthiness tests of the sources see them.
        Own properties are only created under e-mail addresses (never
        ["__proto__"]), and built-in objects are not part of the state: a
        write to a property of an inherited member is not tracked.
      - [undefined] / absent optional fields are [None].
      - JavaScript numbers that hold integers are [Z]; [NaN] is [None].  The
        batch size and the maximum of a search, which the tool schemas let
        be any finite number, are rationals [Q]; the arithmetic of the
        loop index is exact, as it is in the code for integers and for
        fractions with a small power of two as denominator (the rounding
        of binary64 is not modelled).
      - Strings are sequences of code units; whitespace and case folding are
        the ASCII ones.
      - A method that can throw is a function in the state-and-exception
        monad [M]: the state reached when the exception is raised is kept,
        as it is for a JavaScript object whose method throws half-way.
      - The file system, the wall clock, the Gmail REST endpoint and the IMAP
        server are explicit: files are fields of the state, and the remote
        parties are oracles that answer from the history of requests. *)

From stdpp Require Import gmap strings list fin_maps sorting.
From Stdlib Require Import ZArith Ascii String DecimalString QArith.
From Stdlib Require DecimalPos.

Set Warnings "-register-all".

Close Scope Q_scope.
Open Scope Z_scope.

(* ===================================================================== *)
(** ** JavaScript primitives used by the sources                          *)
(* ===================================================================== *)

Module JS.

(** [WhiteSpace] and [LineTerminator] code units below 128. *)
Definition isWhiteSpace (c : ascii) : bool :=
  let n := nat_of_ascii c in
  ((9 <=? n) && (n <=? 13))%nat || (n =? 32)%nat.

Definition isDigit (c : ascii) : bool :=
  let n := nat_of_ascii c in ((48 <=? n) && (n <=? 57))%nat.

Definition digitValue (c : ascii) : Z := Z.of_nat (nat_of_ascii c) - 48.

Fixpoint trimStart (s : string) : string :=
  match s with
  | String c s' => if isWhiteSpace c then trimStart s' else s
  | EmptyString => EmptyString
  end.

(** [trimEnd] keeps a character when it is not whitespace or when
    something other than whitespace follows it. *)
Fixpoint trimEnd (s : string) : string :=
  match s with
  | String c s' =>
      match trimEnd s' with
      | EmptyString => if isWhiteSpace c then EmptyString else String c EmptyString
      | t => String c t
      end
  | EmptyString => EmptyString
  end.

(** [String.prototype.trim]. *)
Definition trim (s : string) : string := trimEnd (trimStart s).

Definition lowerChar (c : ascii) : ascii :=
  let n := nat_of_ascii c in
  if ((65 <=? n) && (n <=? 90))%nat then ascii_of_nat (n + 32) else c.

(** [String.prototype.toLowerCase]. *)
Fixpoint toLowerCase (s : string) : string :=
  match s with
  | String c s' => String (lowerChar c) (toLowerCase s')
  | EmptyString => EmptyString
  end.

(** [String.prototype.includes]. *)
Fixpoint includes (s needle : string) : bool :=
  String.prefix needle s ||
  match s with
  | String _ s' => includes s' needle
  | EmptyString => false
  end.

(** Value of the longest prefix of decimal digits of [s], continuing the
    accumulator [acc]; [None] when [s] does not start with a digit and
    nothing was accumulated. *)
Fixpoint digits (acc : option Z) (s : string) : option Z :=
  match s with
  | String c s' =>
      if isDigit c
      then digits (Some (10 * default 0 acc + digitValue c)) s'
      else acc
  | EmptyString => acc
  end.

(** [parseInt(s, 10)]: leading whitespace is skipped, one sign is
    accepted, then the longest run of digits is read.  [None] is [NaN]. *)
Definition parseInt (s : string) : option Z :=
  match trimStart s with
  | String "-" s' => Z.opp <$> digits None s'
  | String "+" s' => digits None s'
  | s' => digits None s'
  end.

(** Truthiness of an optional string: [undefined] and [""] are falsy. *)
Definition truthy (s : option string) : bool :=
  match s with
  | Some (String _ _) => true
  | _ => false
  end.

(** [a || b] on optional strings. *)
Definition orElse (s : option string) (d : string) : string :=
  if truthy s then default d s else d.

(** [Array.prototype.find]. *)
Definition find {A} (p : A -> bool) (l : list A) : option A := List.find p l.

(** [arr[i]] for a number [i] ([NaN], negative and out-of-range indices
    give [undefined]). *)
Definition index {A} (l : list A) (i : option Z) : option A :=
  match i with
  | Some z => if 0 <=? z then l !! Z.to_nat z else None
  | None => None
  end.

(** [Array.prototype.sort] with a comparator: [before x y] tells that
    [compareFn(x, y) <= 0].  The sort is stable. *)
Section Sort.
Context {A : Type} (before : A -> A -> bool).

Fixpoint insert (x : A) (l : list A) : list A :=
  match l with
  | [] => [x]
  | y :: l' => if before x y then x :: y :: l' else y :: insert x l'
  end.

Definition sort (l : list A) : list A := foldr insert [] l.
End Sort.

(** [arr.slice(start, end)] for integers: a negative index counts from
    the end of the array, and both are clamped to the array. *)
Definition relativeIndex (len k : Z) : Z :=
  if k <? 0 then Z.max (len + k) 0 else Z.min k len.

Definition slice {A} (l : list A) (i j : Z) : list A :=
  let len := Z.of_nat (List.length l) in
  let from := relativeIndex len i in
  let to := relativeIndex len j in
  take (Z.to_nat (to - from)) (drop (Z.to_nat from) l).

(** [ToIntegerOrInfinity] of a finite number: the fraction is dropped. *)
Definition toInteger (x : Q) : Z := Z.quot (Qnum x) (Z.pos (Qden x)).

(** [arr.slice(start, end)] for numbers. *)
Definition sliceNumber {A} (l : list A) (i j : Q) : list A :=
  slice l (toInteger i) (toInteger j).

(** [x < y] on numbers. *)
Definition ltNumber (x y : Q) : bool := negb (Qle_bool y x).

End JS.

(** A JavaScript object used as a dictionary with string keys. *)
Module Obj.

(** The names of the members of [Object.prototype], which every plain
    object inherits.  All of them are functions, except [__proto__], whose
    getter gives the prototype object: a read of such a name on an object
    without own property of that name gives a truthy value that has none of
    the fields of a registry entry. *)
Definition prototypeMembers : list string :=
  [ "constructor"; "hasOwnProperty"; "isPrototypeOf"; "propertyIsEnumerable";
    "toLocaleString"; "toString"; "valueOf"; "__proto__";
    "__defineGetter__"; "__defineSetter__"; "__lookupGetter__"; "__lookupSetter__" ].

Definition inherited (k : string) : bool := bool_decide (k ∈ prototypeMembers).

Section Obj.
Context {V : Type}.

Definition t := list (string * V).

(** The own property [k] of [o]. *)
Fixpoint get (o : list (string * V)) (k : string) : option V :=
  match o with
  | [] => None
  | (k', v) :: o' => if decide (k' = k) then Some v else get o' k
  end.

(** [o[k] = v]: an existing property keeps its place, a new one is
    appended. *)
Fixpoint set (o : list (string * V)) (k : string) (v : V) : list (string * V) :=
  match o with
  | [] => [(k, v)]
  | (k', v') :: o' =>
      if decide (k' = k) then (k, v) :: o' else (k', v') :: set o' k v
  end.

(** [delete o[k]] *)
Fixpoint delete (o : list (string * V)) (k : string) : list (string * V) :=
  match o with
  | [] => []
  | (k', v') :: o' =>
      if decide (k' = k) then delete o' k else (k', v') :: delete o' k
  end.

(** [!!o[k]] for an object whose own properties hold objects: true of
    an own property and of an inherited member. *)
Definition has (o : list (string * V)) (k : string) : bool :=
  bool_decide (is_Some (get o k)) || inherited k.

(** [o[k]]: the own property, else the inherited member, else
    [undefined]. *)
Inductive Lookup : Type :=
  | Own (v : V)
  | Member
  | Undefined.

Definition lookup (o : list (string * V)) (k : string) : Lookup :=
  match get o k with
  | Some v => Own v
  | None => if inherited k then Member else Undefined
  end.

Definition keys (o : list (string * V)) : list string := o.*1.
Definition values (o : list (string * V)) : list V := o.*2.
End Obj.
End Obj.

(* ===================================================================== *)
(** ** Exceptions and the state-and-exception monad                       *)
(* ===================================================================== *)

(** The [Error] values the modelled code throws, one constructor per
    [throw new Error(...)] site; [ProtocolError] stands for an exception
    raised inside a library call (imapflow, googleapis). *)
Inductive Error : Type :=
  | AccountNotFound (emailOrAlias : string)
  | AccountNotFoundAvailable (emailOrAlias : string) (available : list string)
  | AliasIsEmail (alias email : string)
  | AliasInUse (alias email : string)
  | NoAccounts
  | NoActiveAccount
  | CredentialsFileNotFound (email : string)
  | MessageNotFound (uid mailbox : string)
  | AttachmentNotFound (partId : string)
  | NoValidUids
  | FetchFailed (cause : string)
  | ProtocolError (msg : string).

Definition join (sep : string) (l : list string) : string := String.concat sep l.

(** [error.message] *)
Definition message (e : Error) : string :=
  match e with
  | AccountNotFound id => "Account not found: " +:+ id
  | AccountNotFoundAvailable id avail =>
      "Account not found: " +:+ id +:+ ". Available accounts: " +:+ join ", " avail
  | AliasIsEmail a e => "Alias '" +:+ a +:+ "' is already registered as an email for " +:+ e
  | AliasInUse a e => "Alias '" +:+ a +:+ "' is already in use by " +:+ e
  | NoAccounts => "No accounts authenticated. Please run: npx @anthropic/icloud-mcp auth"
  | NoActiveAccount => "No active account. Use switch_account tool or specify account parameter."
  | CredentialsFileNotFound e => "Credentials file not found for " +:+ e +:+ ". Please re-authenticate."
  | MessageNotFound uid mailbox => "Message not found: UID " +:+ uid +:+ " in " +:+ mailbox
  | AttachmentNotFound p => "Attachment not found: " +:+ p
  | NoValidUids => "No valid UIDs provided"
  | FetchFailed m => "Failed to fetch emails: " +:+ m
  | ProtocolError m => m
  end.

(** The two "alias already taken" errors. *)
Definition isAliasCollision (e : Error) : bool :=
  match e with
  | AliasIsEmail _ _ | AliasInUse _ _ => true
  | _ => false
  end.

Inductive Result (A : Type) : Type :=
  | Ok (a : A)
  | Throw (e : Error).
Arguments Ok {A} a.
Arguments Throw {A} e.

Definition M (St A : Type) : Type := St -> Result A * St.

Definition ret {St A} (a : A) : M St A := fun s => (Ok a, s).

Definition bind {St A B} (c : M St A) (k : A -> M St B) : M St B :=
  fun s =>
    match c s with
    | (Ok a, s') => k a s'
    | (Throw e, s') => (Throw e, s')
    end.

Definition throw {St A} (e : Error) : M St A := fun s => (Throw e, s).
Definition gets {St A} (f : St -> A) : M St A := fun s => (Ok (f s), s).
Definition modify {St} (f : St -> St) : M St unit := fun s => (Ok tt, f s).

(** [try { c } catch (error) { h error }] *)
Definition tryCatch {St A} (c : M St A) (h : Error -> M St A) : M St A :=
  fun s =>
    match c s with
    | (Ok a, s') => (Ok a, s')
    | (Throw e, s') => h e s'
    end.

(** [if (b) { c }] *)
Definition when {St} (b : bool) (c : M St unit) : M St unit :=
  if b then c else ret tt.

Declare Scope js_scope.
Delimit Scope js_scope with js.
Notation "x <- c ;; k" := (bind c (fun x => k))
  (at level 100, c at next level, right associativity) : js_scope.
Notation "c ;; k" := (bind c (fun _ => k))
  (at level 100, right associativity) : js_scope.
Open Scope js_scope.

(* ===================================================================== *)
(** ** What the two account managers share                                *)
(* ===================================================================== *)

(** [AccountInfo].  The Gmail registry entry carries the granted scopes
    ([S := list string]); the iCloud one has no such field ([S := unit]). *)
Record AccountInfo (S : Type) : Type := mkAccountInfo {
  email : string;
  alias : option string;
  credentialsPath : string;
  lastUsed : Z;
  scopes : S;
}.
Arguments mkAccountInfo {S}.
Arguments email {S}.
Arguments alias {S}.
Arguments credentialsPath {S}.
Arguments lastUsed {S}.
Arguments scopes {S}.

(** The state an [AccountManager] works on: its [registry] field, the
    files under the configuration directory, and the clock.
      - [registryFile] is REGISTRY_PATH (the registry serialised as JSON),
      - [credentialFiles] maps the path of a credential file to its content,
      - [activeFile] is ACTIVE_ACCOUNT_PATH,
      - [clients] is the Gmail manager's cache of OAuth2 clients (the
        iCloud manager has none: [K := unit]),
      - the [n]-th evaluation of [new Date()] gives [time n].
    Credential paths are assumed distinct from the two fixed paths. *)
Record State (S C K : Type) : Type := mkState {
  registry : list (string * AccountInfo S);
  registryFile : option (list (string * AccountInfo S));
  credentialFiles : gmap string C;
  activeFile : option string;
  clients : K;
  time : nat -> Z;
  tick : nat;
}.
Arguments mkState {S C K}.
Arguments registry {S C K}.
Arguments registryFile {S C K}.
Arguments credentialFiles {S C K}.
Arguments activeFile {S C K}.
Arguments clients {S C K}.
Arguments time {S C K}.
Arguments tick {S C K}.

Section Manager.
Context {S C K : Type}.
#[local] Abbreviation St := (State S C K).

Definition setRegistry (r : list (string * AccountInfo S)) (s : St) : St :=
  mkState r (registryFile s) (credentialFiles s) (activeFile s) (clients s) (time s) (tick s).
Definition setRegistryFile (f : option (list (string * AccountInfo S))) (s : St) : St :=
  mkState (registry s) f (credentialFiles s) (activeFile s) (clients s) (time s) (tick s).
Definition setCredentialFiles (f : gmap string C) (s : St) : St :=
  mkState (registry s) (registryFile s) f (activeFile s) (clients s) (time s) (tick s).
Definition setActiveFile (f : option string) (s : St) : St :=
  mkState (registry s) (registryFile s) (credentialFiles s) f (clients s) (time s) (tick s).
Definition setClients (k : K) (s : St) : St :=
  mkState (registry s) (registryFile s) (credentialFiles s) (activeFile s) k (time s) (tick s).
Definition setTick (n : nat) (s : St) : St :=
  mkState (registry s) (registryFile s) (credentialFiles s) (activeFile s) (clients s) (time s) n.

(** [new Date()] *)
Definition newDate : M St Z :=
  fun s => (Ok (time s (tick s)), setTick (Datatypes.S (tick s)) s).

(** [fs.writeFileSync(REGISTRY_PATH, JSON.stringify(this.registry))] *)
Definition saveRegistry : M St unit :=
  modify (fun s => setRegistryFile (Some (registry s)) s).

(** The first entry, in enumeration order, whose alias is [a]. *)
Definition findAlias (r : list (string * AccountInfo S)) (a : string)
  : option (string * AccountInfo S) :=
  List.find (fun p => bool_decide (alias p.2 = Some a)) r.

(** [resolveEmailFromAlias] on the registry it reads. *)
Definition resolve (r : list (string * AccountInfo S)) (emailOrAlias : string) : string :=
  if Obj.has r emailOrAlias then emailOrAlias
  else match findAlias r emailOrAlias with
       | Some (key, _) => key
       | None => emailOrAlias
       end.

Definition resolveEmailFromAlias (emailOrAlias : string) : M St string :=
  gets (fun s => resolve (registry s) emailOrAlias).

(** [listAccounts]: most recently used first. *)
Definition sortAccounts (r : list (string * AccountInfo S)) : list (AccountInfo S) :=
  JS.sort (fun a b => lastUsed b - lastUsed a <=? 0) (Obj.values r).

Definition listAccounts : M St (list (AccountInfo S)) :=
  gets (fun s => sortAccounts (registry s)).

(** [getActiveAccount] *)
Definition readActive (s : St) : option string := JS.trim <$> activeFile s.

Definition getActiveAccount : M St (option string) := gets readActive.

(** [registry[email].lastUsed = d]; when [email] is no own property the
    write goes to an inherited member and leaves the registry as it is. *)
Definition touch (key : string) (d : Z) (r : list (string * AccountInfo S))
  : list (string * AccountInfo S) :=
  match Obj.get r key with
  | Some i => Obj.set r key
                (mkAccountInfo (email i) (alias i) (credentialsPath i) d (scopes i))
  | None => r
  end.

(** [registry[email].alias = a]; likewise. *)
Definition assignAlias (key : string) (a : string) (r : list (string * AccountInfo S))
  : list (string * AccountInfo S) :=
  match Obj.get r key with
  | Some i => Obj.set r key
                (mkAccountInfo (email i) (Some a) (credentialsPath i) (lastUsed i) (scopes i))
  | None => r
  end.

(** [setActiveAccount] *)
Definition setActiveAccount (emailOrAlias : string) : M St unit :=
  key <- resolveEmailFromAlias emailOrAlias ;;
  known <- gets (fun s => Obj.has (registry s) key) ;;
  if negb known then throw (AccountNotFound emailOrAlias)
  else
    modify (setActiveFile (Some key)) ;;
    d <- newDate ;;
    modify (fun s => setRegistry (touch key d (registry s)) s) ;;
    saveRegistry.

(** [if (fs.existsSync(path)) { fs.unlinkSync(path); }] on a credentials
    path read from [registry[email]]: the path is [undefined] when [email]
    names an inherited member, and [existsSync(undefined)] is [false]. *)
Definition unlinkIfExists (path : option string) : M St unit :=
  match path with
  | Some p =>
      present <- gets (fun s => bool_decide (is_Some (credentialFiles s !! p))) ;;
      when present (modify (fun s => setCredentialFiles (delete p (credentialFiles s)) s))
  | None => ret tt
  end.

(** [hasAccount] *)
Definition hasAccount (emailOrAlias : string) : M St bool :=
  tryCatch
    (key <- resolveEmailFromAlias emailOrAlias ;;
     gets (fun s => Obj.has (registry s) key))
    (fun _ => ret false).

(** [getAccountInfo]; [null] is [Obj.Undefined]. *)
Definition getAccountInfo (emailOrAlias : string) : M St (Obj.Lookup (V := AccountInfo S)) :=
  key <- resolveEmailFromAlias emailOrAlias ;;
  gets (fun s => Obj.lookup (registry s) key).

(** [loadRegistry]: the registry file, when there is one, replaces the
    [registry] field.  [JSON.parse] gives back what [JSON.stringify] wrote:
    the keys in the same order, an absent alias absent, and, after the loop
    over [lastUsed], the date of every entry at the same instant. *)
Definition loadRegistry : M St unit :=
  data <- gets registryFile ;;
  match data with
  | Some r => modify (setRegistry r)
  | None => ret tt
  end.

(** [new AccountManager()] on the files of the state: the fields get their
    initial values ([k] is the empty client cache), then the constructor
    loads the registry. *)
Definition newAccountManager (k : K) : M St unit :=
  modify (fun s => setClients k (setRegistry [] s)) ;;
  loadRegistry.

End Manager.

(** [path.join(ACCOUNTS_DIR, `${email}.json`)] *)
Definition credentialsPathIn (accountsDir addr : string) : string :=
  accountsDir +:+ "/" +:+ addr +:+ ".json".

(* ===================================================================== *)
(** ** The Gmail account manager ([src/account-manager.ts])               *)
(* ===================================================================== *)

Module Gmail.
Section Gmail.
(** The OAuth token bundle is opaque ([credentials: any]). *)
Context {Credentials : Type}.
#[local] Abbreviation St := (State (list string) Credentials (gset string)).

Definition ACCOUNTS_DIR : string := "~/.gmail-mcp/accounts".

Definition defaultScopes : list string :=
  [ "https://www.googleapis.com/auth/gmail.modify";
    "https://www.googleapis.com/auth/gmail.settings.basic" ].

(** [addAccount(email, credentials, alias?, scopes?)] *)
Definition addAccount (addr : string) (credentials : Credentials)
    (alias : option string) (scopes : option (list string)) : M St unit :=
  let credentialsPath := credentialsPathIn ACCOUNTS_DIR addr in
  modify (fun s => setCredentialFiles (<[credentialsPath := credentials]> (credentialFiles s)) s) ;;
  d <- newDate ;;
  modify (fun s => setRegistry
            (Obj.set (registry s) addr
               (mkAccountInfo addr alias credentialsPath d (default defaultScopes scopes))) s) ;;
  saveRegistry ;;
  accounts <- listAccounts ;;
  when (bool_decide (List.length accounts = 1%nat)) (setActiveAccount addr).

(** [removeAccount(emailOrAlias)] *)
Definition removeAccount (emailOrAlias : string) : M St unit :=
  key <- resolveEmailFromAlias emailOrAlias ;;
  known <- gets (fun s => Obj.has (registry s) key) ;;
  if negb known then throw (AccountNotFound emailOrAlias)
  else
    credentialsPath <- gets (fun s => credentialsPath <$> Obj.get (registry s) key) ;;
    unlinkIfExists credentialsPath ;;
    modify (fun s => setRegistry (Obj.delete (registry s) key) s) ;;
    saveRegistry ;;
    modify (fun s => setClients (clients s ∖ {[key]}) s) ;;
    activeAccount <- getActiveAccount ;;
    when (bool_decide (activeAccount = Some key))
      (present <- gets (fun s => bool_decide (is_Some (activeFile s))) ;;
       when present (modify (setActiveFile None))).

(** The loop of [setAlias]: the first entry other than [owner] that
    already has the alias. *)
Fixpoint aliasTaken (r : list (string * AccountInfo (list string)))
    (newAlias owner : string) : option Error :=
  match r with
  | [] => None
  | (e, info) :: r' =>
      if bool_decide (alias info = Some newAlias) && negb (bool_decide (e = owner))
      then Some (AliasInUse newAlias e)
      else aliasTaken r' newAlias owner
  end.

(** [setAlias(emailOrAlias, newAlias)] *)
Definition setAlias (emailOrAlias newAlias : string) : M St unit :=
  key <- resolveEmailFromAlias emailOrAlias ;;
  known <- gets (fun s => Obj.has (registry s) key) ;;
  if negb known then throw (AccountNotFound emailOrAlias)
  else
    taken <- gets (fun s => aliasTaken (registry s) newAlias key) ;;
    match taken with
    | Some err => throw err
    | None =>
        modify (fun s => setRegistry (assignAlias key newAlias (registry s)) s) ;;
        saveRegistry
    end.

End Gmail.
End Gmail.

(** The account tools of the Gmail server (the [switch] of [src/index.ts]).
    A handler is modelled up to its reply: it returns the [accountInfo] the
    reply text is built from.  An exception leaves the [switch] and becomes
    the text of an error reply. *)
Module GmailTools.
Section GmailTools.
Context {Credentials : Type}.
#[local] Abbreviation St := (State (list string) Credentials (gset string)).

(** [case "switch_account"] *)
Definition switch_account (account : string)
  : M St (Obj.Lookup (V := AccountInfo (list string))) :=
  setActiveAccount account ;;
  getAccountInfo account.


(** [case "set_account_alias"] *)
Definition set_account_alias (account newAlias : string)
  : M St (Obj.Lookup (V := AccountInfo (list string))) :=
  Gmail.setAlias account newAlias ;;
  getAccountInfo newAlias.

End GmailTools.
End GmailTools.

(* ===================================================================== *)
(** ** The iCloud account manager ([packages/icloud/src/account-manager.ts]) *)
(* ===================================================================== *)

Module ICloud.

(** [AccountCredentials] *)
Record AccountCredentials : Type := mkCredentials {
  credEmail : string;
  appPassword : string;
}.

#[local] Abbreviation St := (State unit AccountCredentials unit).

Definition ACCOUNTS_DIR : string := "~/.icloud-mcp/accounts".

(** [ensureAliasAvailable(alias, ownerEmail)] on the registry it reads:
    the error of the first failing test, in enumeration order. *)
Fixpoint aliasUnavailable (r : list (string * AccountInfo unit))
    (a ownerEmail : string) : option Error :=
  match r with
  | [] => None
  | (e, info) :: r' =>
      if bool_decide (a = e) && negb (bool_decide (e = ownerEmail))
      then Some (AliasIsEmail a e)
      else if bool_decide (alias info = Some a) && negb (bool_decide (e = ownerEmail))
      then Some (AliasInUse a e)
      else aliasUnavailable r' a ownerEmail
  end.

Definition ensureAliasAvailable (a ownerEmail : string) : M St unit :=
  taken <- gets (fun s => aliasUnavailable (registry s) a ownerEmail) ;;
  match taken with
  | Some err => throw err
  | None => ret tt
  end.

(** [addAccount(credentials, alias?)] *)
Definition addAccount (credentials : AccountCredentials) (alias : option string)
  : M St unit :=
  let addr := credEmail credentials in
  let credentialsPath := credentialsPathIn ACCOUNTS_DIR addr in
  when (JS.truthy alias) (ensureAliasAvailable (default "" alias) addr) ;;
  let credentialData := mkCredentials addr (appPassword credentials) in
  modify (fun s => setCredentialFiles (<[credentialsPath := credentialData]> (credentialFiles s)) s) ;;
  d <- newDate ;;
  modify (fun s => setRegistry
            (Obj.set (registry s) addr (mkAccountInfo addr alias credentialsPath d tt)) s) ;;
  saveRegistry ;;
  accounts <- listAccounts ;;
  when (bool_decide (List.length accounts = 1%nat)) (setActiveAccount addr).

(** [removeAccount(emailOrAlias)] *)
Definition removeAccount (emailOrAlias : string) : M St unit :=
  key <- resolveEmailFromAlias emailOrAlias ;;
  known <- gets (fun s => Obj.has (registry s) key) ;;
  if negb known then throw (AccountNotFound emailOrAlias)
  else
    credentialsPath <- gets (fun s => credentialsPath <$> Obj.get (registry s) key) ;;
    unlinkIfExists credentialsPath ;;
    modify (fun s => setRegistry (Obj.delete (registry s) key) s) ;;
    saveRegistry ;;
    activeAccount <- getActiveAccount ;;
    when (bool_decide (activeAccount = Some key))
      (present <- gets (fun s => bool_decide (is_Some (activeFile s))) ;;
       when present (modify (setActiveFile None))).

(** [setAlias(emailOrAlias, newAlias)] *)
Definition setAlias (emailOrAlias newAlias : string) : M St unit :=
  key <- resolveEmailFromAlias emailOrAlias ;;
  known <- gets (fun s => Obj.has (registry s) key) ;;
  if negb known then throw (AccountNotFound emailOrAlias)
  else
    ensureAliasAvailable newAlias key ;;
    modify (fun s => setRegistry (assignAlias key newAlias (registry s)) s) ;;
    saveRegistry.

(** [a.alias || a.email] of every listed account. *)
Definition available (r : list (string * AccountInfo unit)) : list string :=
  (fun a => JS.orElse (alias a) (email a)) <$> sortAccounts r.

(** [getCredentials(emailOrAlias?)] *)
Definition getCredentials (emailOrAlias : option string) : M St AccountCredentials :=
  key <- (if JS.truthy emailOrAlias
          then resolveEmailFromAlias (default "" emailOrAlias)
          else
            activeAccount <- getActiveAccount ;;
            if JS.truthy activeAccount then ret (default "" activeAccount)
            else
              accounts <- listAccounts ;;
              match accounts with
              | [] => throw NoAccounts
              | [only] => setActiveAccount (email only) ;; ret (email only)
              | _ => throw NoActiveAccount
              end) ;;
  known <- gets (fun s => Obj.has (registry s) key) ;;
  if negb known then
    names <- gets (fun s => available (registry s)) ;;
    throw (AccountNotFoundAvailable (JS.orElse emailOrAlias key) names)
  else
    credentialsPath <- gets (fun s => credentialsPath <$> Obj.get (registry s) key) ;;
    file <- gets (fun s => credentialsPath ≫= (fun p => credentialFiles s !! p)) ;;
    match file with
    | None => throw (CredentialsFileNotFound key)
    | Some credentials =>
        d <- newDate ;;
        modify (fun s => setRegistry (touch key d (registry s)) s) ;;
        saveRegistry ;;
        ret credentials
    end.

End ICloud.

(* ===================================================================== *)
(** ** Batch processing ([processBatches] and its callers, [src/index.ts]) *)
(* ===================================================================== *)

Module Batch.

(** [{ successes, failures }] *)
Record BatchResult (T U : Type) : Type := mkBatchResult {
  successes : list U;
  failures : list (T * Error);
}.
Arguments mkBatchResult {T U}.
Arguments successes {T U}.
Arguments failures {T U}.

Section ProcessBatches.
Context {St T U : Type}.
Variable processFn : list T -> M St (list U).

Definition pushSuccesses (acc : BatchResult T U) (results : list U) : BatchResult T U :=
  mkBatchResult (successes acc ++ results) (failures acc).

Definition pushFailure (acc : BatchResult T U) (item : T) (e : Error) : BatchResult T U :=
  mkBatchResult (successes acc) (failures acc ++ [(item, e)]).

(** The inner [for (const item of batch)] with its [try]/[catch]. *)
Fixpoint retryItems (batch : list T) (acc : BatchResult T U) : M St (BatchResult T U) :=
  match batch with
  | [] => ret acc
  | item :: rest =>
      acc' <- tryCatch (result <- processFn [item] ;; ret (pushSuccesses acc result))
                       (fun itemError => ret (pushFailure acc item itemError)) ;;
      retryItems rest acc'
  end.

(** The body of the outer loop for one [batch]. *)
Definition processBatch (batch : list T) (acc : BatchResult T U) : M St (BatchResult T U) :=
  tryCatch (results <- processFn batch ;; ret (pushSuccesses acc results))
           (fun _ => retryItems batch acc).

(** [for (let i = 0; i < items.length; i += batchSize)], from index [i];
    [None] when the loop is still running after [fuel] iterations.  The
    batch size is any finite number, and so is the index. *)
Fixpoint batchLoop (fuel : nat) (items : list T) (batchSize i : Q)
    (acc : BatchResult T U) : M St (option (BatchResult T U)) :=
  match fuel with
  | O => ret None
  | Datatypes.S fuel' =>
      if JS.ltNumber i (inject_Z (Z.of_nat (List.length items))) then
        let batch := JS.sliceNumber items i (i + batchSize)%Q in
        acc' <- processBatch batch acc ;;
        batchLoop fuel' items batchSize (i + batchSize)%Q acc'
      else ret (Some acc)
  end.

(** [processBatches(items, batchSize, processFn)] *)
Definition processBatches (fuel : nat) (items : list T) (batchSize : Q)
  : M St (option (BatchResult T U)) :=
  batchLoop fuel items batchSize 0%Q (mkBatchResult [] []).

(** The description of the specification: the input cut into
    consecutive chunks of [n] items, each chunk processed in turn. *)
Fixpoint chunksOf (fuel n : nat) (l : list T) : list (list T) :=
  match fuel, l with
  | Datatypes.S fuel', _ :: _ => take n l :: chunksOf fuel' n (drop n l)
  | _, _ => []
  end.

Definition chunks (n : nat) (l : list T) : list (list T) := chunksOf (List.length l) n l.

Fixpoint processChunks (cs : list (list T)) (acc : BatchResult T U)
  : M St (BatchResult T U) :=
  match cs with
  | [] => ret acc
  | c :: cs' => acc' <- processBatch c acc ;; processChunks cs' acc'
  end.
End ProcessBatches.

(** A request to the Gmail REST endpoint. *)
Inductive Request : Type :=
  | MessagesModify (id : string) (addLabelIds removeLabelIds : option (list string))
  | MessagesDelete (id : string).

(** The state of the monad is the list of requests sent so far; the
    endpoint answers a request from that history. *)
Section Handlers.
Variable respond : list Request -> Request -> option Error.

(** [await gmail.users.messages.<method>(...)] *)
Definition call (r : Request) : M (list Request) unit :=
  fun history =>
    match respond history r with
    | Some e => (Throw e, history ++ [r])
    | None => (Ok tt, history ++ [r])
    end.

(** [Promise.all(batch.map(f))]: every request of the batch is sent,
    here in the order of the batch; the promise is rejected when one of
    them is, and its results are the results of all of them otherwise. *)
Fixpoint promiseAllMap {A B} (f : A -> M (list Request) B) (batch : list A)
  : M (list Request) (list B) :=
  match batch with
  | [] => ret []
  | x :: rest =>
      fun history =>
        match f x history with
        | (Ok y, h') =>
            match promiseAllMap f rest h' with
            | (Ok ys, h'') => (Ok (y :: ys), h'')
            | (Throw e, h'') => (Throw e, h'')
            end
        | (Throw e, h') => (Throw e, (promiseAllMap f rest h').2)
        end
  end.

(** [validatedArgs.batchSize || 50]: the schema ([z.number()]) admits
    every finite number, and [0] is falsy. *)
Definition effectiveBatchSize (batchSize : Q) : Q :=
  if Qeq_bool batchSize 0%Q then 50%Q else batchSize.

(** The [batch_modify_emails] handler up to its text summary. *)
Definition batch_modify_emails (fuel : nat) (messageIds : list string)
    (addLabelIds removeLabelIds : option (list string)) (batchSize : Q)
  : M (list Request) (option (BatchResult string (string * bool))) :=
  processBatches
    (promiseAllMap (fun messageId =>
       call (MessagesModify messageId addLabelIds removeLabelIds) ;;
       ret (messageId, true)))
    fuel messageIds (effectiveBatchSize batchSize).

(** The [batch_delete_emails] handler up to its text summary. *)
Definition batch_delete_emails (fuel : nat) (messageIds : list string) (batchSize : Q)
  : M (list Request) (option (BatchResult string (string * bool))) :=
  processBatches
    (promiseAllMap (fun messageId =>
       call (MessagesDelete messageId) ;;
       ret (messageId, true)))
    fuel messageIds (effectiveBatchSize batchSize).
End Handlers.

Definition successCount {T U} (r : BatchResult T U) : nat := List.length (successes r).
Definition failureCount {T U} (r : BatchResult T U) : nat := List.length (failures r).

End Batch.

(* ===================================================================== *)
(** ** The iCloud IMAP client ([packages/icloud/src/imap-client.ts])      *)
(* ===================================================================== *)

Module Imap.

(** One entry of [client.list()]. *)
Record ListResponse : Type := mkListResponse {
  lrPath : string;
  lrName : string;
  lrDelimiter : string;
  lrSpecialUse : option string;
  lrFlags : option (list string);
}.

(** [FolderInfo] *)
Record FolderInfo : Type := mkFolderInfo {
  path : string;
  name : string;
  delimiter : string;
  specialUse : option string;
  flags : list string;
}.

(** The [searchEmails] options. *)
Record SearchOptions : Type := mkSearchOptions {
  folder : option string;
  from : option string;
  to : option string;
  subject : option string;
  since : option Z;
  before : option Z;
  seen : option bool;
  flagged : option bool;
  text : option string;
  maxResults : option Q;
}.

(** The [searchCriteria] object: a field is [None] when the key is absent. *)
Record SearchCriteria : Type := mkSearchCriteria {
  cFrom : option string;
  cTo : option string;
  cSubject : option string;
  cSince : option Z;
  cBefore : option Z;
  cSeen : option bool;
  cFlagged : option bool;
  cBody : option string;
}.

(** The query handed to [client.search]: the criteria, or [{ all: true }]. *)
Inductive Query : Type :=
  | Criteria (c : SearchCriteria)
  | All.

(** A message range: one number (possibly [NaN]) or an array of numbers. *)
Inductive Range : Type :=
  | One (uid : option Z)
  | Many (uids : list Z).

(** The protocol commands the client sends through imapflow. *)
Inductive Command : Type :=
  | Connect
  | Logout
  | MailboxOpen (mailbox : string)
  | List
  | Search (q : Query)
  | Fetch (uids : list Z)
  | FetchOne (uid : option Z)
  | MessageMove (r : Range) (destination : string)
  | MessageFlagsAdd (r : Range) (flags : list string)
  | MessageDelete (r : Range).

Record Address : Type := mkAddress {
  addrAddress : option string;
  addrName : option string;
}.

Record EmailAddress : Type := mkEmailAddress {
  address : string;
  displayName : option string;
}.

Record Envelope : Type := mkEnvelope {
  envSubject : option string;
  envFrom : option (list Address);
  envTo : option (list Address);
  envDate : option Z;
}.

(** A node of the body structure. *)
Inductive BodyPart : Type :=
  | Part (disposition : option string) (childNodes : option (list BodyPart)).

(** [FetchMessageObject] as far as [searchEmails] reads it. *)
Record FetchMessageObject : Type := mkFetchMessageObject {
  msgUid : Z;
  msgEnvelope : option Envelope;
  msgFlags : option (list string);
  msgBodyStructure : option BodyPart;
}.

(** [EmailSearchResult]; [srDate] is [None] where the source takes the
    current date. *)
Record EmailSearchResult : Type := mkEmailSearchResult {
  srUid : string;
  srSubject : string;
  srFrom : list EmailAddress;
  srTo : list EmailAddress;
  srDate : option Z;
  srFlags : list string;
  srHasAttachments : bool;
}.

(** A mailparser [Attachment]. *)
Record Attachment : Type := mkAttachment {
  contentId : option string;
  filename : option string;
  contentType : string;
  content : list Byte.byte;
  size : Z;
}.

(** [EmailAttachment] *)
Record EmailAttachment : Type := mkEmailAttachment {
  partId : string;
  eaFilename : string;
  mimeType : string;
  eaSize : Z;
}.

(** What [downloadAttachment] returns. *)
Record Download : Type := mkDownload {
  dlContent : list Byte.byte;
  dlFilename : string;
  dlMimeType : string;
}.

(** The remote side.  Every answer may depend on the commands sent so far.
      - [fails] is the message of the exception a command ends with, if any;
      - [usable] is the [client.usable] flag;
      - [found] is the answer of [client.search] ([None] is [false]);
      - [fetched] is what the [client.fetch] iterator yields, and the
        message of the exception it ends with, if any;
      - [fetchedOne] is the answer of [client.fetchOne]: [None] is
        [false], and the inner option is the [source] of the message;
      - [parsed] is [simpleParser(source).attachments]. *)
Record Server : Type := mkServer {
  fails : list Command -> Command -> option string;
  usable : list Command -> bool;
  listed : list Command -> list ListResponse;
  found : list Command -> Query -> option (list Z);
  fetched : list Command -> list Z -> list FetchMessageObject * option string;
  fetchedOne : list Command -> option Z -> option (option (list Byte.byte));
  parsed : list Byte.byte -> option (list Attachment);
}.

(** An [ImapClient]: [client] tells whether [this.client] is set;
    [log] is the list of commands sent so far. *)
Record Session : Type := mkSession {
  client : bool;
  currentMailbox : option string;
  log : list Command;
}.

Definition setClient (b : bool) (s : Session) : Session :=
  mkSession b (currentMailbox s) (log s).
Definition setCurrentMailbox (m : option string) (s : Session) : Session :=
  mkSession (client s) m (log s).

(** [Number.prototype.toString] of an integer. *)
Definition toString (z : Z) : string :=
  DecimalString.NilZero.string_of_int (Z.to_int z).

Section Client.
Variable srv : Server.

(** Send a command; it is logged whether or not it fails. *)
Definition send (c : Command) : M Session unit :=
  fun s =>
    let s' := mkSession (client s) (currentMailbox s) (log s ++ [c]) in
    match fails srv (log s) c with
    | Some m => (Throw (ProtocolError m), s')
    | None => (Ok tt, s')
    end.

(** [connect] *)
Definition connect : M Session unit :=
  c <- gets client ;;
  if c then ret tt
  else modify (setClient true) ;; send Connect.

(** [disconnect] *)
Definition disconnect : M Session unit :=
  c <- gets client ;;
  when c (send Logout ;;
          modify (setClient false) ;;
          modify (setCurrentMailbox None)).

(** [ensureConnected] *)
Definition ensureConnected : M Session unit :=
  c <- gets client ;;
  if negb c then connect
  else
    tryCatch
      (u <- gets (fun s => usable srv (log s)) ;;
       when (negb u) (disconnect ;; connect))
      (fun _ => disconnect ;; connect).

(** [selectMailbox] *)
Definition selectMailbox (mailbox : string) : M Session unit :=
  ensureConnected ;;
  cur <- gets currentMailbox ;;
  when (negb (bool_decide (cur = Some mailbox)))
    (send (MailboxOpen mailbox) ;;
     modify (setCurrentMailbox (Some mailbox))).

Definition pushFolder (f : ListResponse) : FolderInfo :=
  mkFolderInfo (lrPath f) (lrName f) (lrDelimiter f) (lrSpecialUse f)
               (default [] (lrFlags f)).

(** [listFolders] *)
Definition listFolders : M Session (list FolderInfo) :=
  ensureConnected ;;
  answer <- gets (fun s => listed srv (log s)) ;;
  send List ;;
  ret (pushFolder <$> answer).

(** The [searchCriteria] built from the options. *)
Definition buildCriteria (o : SearchOptions) : SearchCriteria :=
  let str (x : option string) := if JS.truthy x then x else None in
  mkSearchCriteria (str (from o)) (str (to o)) (str (subject o))
                   (since o) (before o) (seen o) (flagged o) (str (text o)).

(** [Object.keys(searchCriteria).length] *)
Definition countKeys (c : SearchCriteria) : nat :=
  let n {A} (x : option A) : nat := match x with Some _ => 1%nat | None => 0%nat end in
  (n (cFrom c) + n (cTo c) + n (cSubject c) + n (cSince c) + n (cBefore c)
   + n (cSeen c) + n (cFlagged c) + n (cBody c))%nat.

Definition buildQuery (o : SearchOptions) : Query :=
  let searchCriteria := buildCriteria o in
  let hasAnyCriteria := (0 <? countKeys searchCriteria)%nat in
  if hasAnyCriteria then Criteria searchCriteria else All.

(** [options.maxResults || 50]: the schema ([z.number()]) admits every
    finite number, and [0] is falsy. *)
Definition effectiveMaxResults (o : SearchOptions) : Q :=
  match maxResults o with
  | Some n => if Qeq_bool n 0%Q then 50%Q else n
  | None => 50%Q
  end.

(** [sort((a, b) => b - a).slice(0, maxResults)] *)
Definition sortedUids (searchResult : list Z) (maxResults : Q) : list Z :=
  JS.sliceNumber (JS.sort (fun a b => b - a <=? 0) searchResult) 0%Q maxResults.

Definition parseAddressList (addresses : option (list Address)) : list EmailAddress :=
  match addresses with
  | None => []
  | Some l => (fun a => mkEmailAddress (JS.orElse (addrAddress a) "") (addrName a)) <$> l
  end.

Fixpoint check (part : BodyPart) : bool :=
  match part with
  | Part disposition childNodes =>
      if bool_decide (disposition = Some "attachment") then true
      else match childNodes with
           | Some l => existsb check l
           | None => false
           end
  end.

Definition hasAttachments (bodyStructure : option BodyPart) : bool :=
  match bodyStructure with
  | None => false
  | Some b => check b
  end.

(** The body of the [for await] loop: messages without envelope are
    skipped. *)
Definition toSearchResult (msg : FetchMessageObject) : option EmailSearchResult :=
  match msgEnvelope msg with
  | None => None
  | Some envelope =>
      Some (mkEmailSearchResult
              (toString (msgUid msg))
              (JS.orElse (envSubject envelope) "(no subject)")
              (parseAddressList (envFrom envelope))
              (parseAddressList (envTo envelope))
              (envDate envelope)
              (default [] (msgFlags msg))
              (hasAttachments (msgBodyStructure msg)))
  end.

(** [client.fetch(...)] consumed by [for await]. *)
Definition fetchAll (uids : list Z) : M Session (list FetchMessageObject) :=
  answer <- gets (fun s => fetched srv (log s) uids) ;;
  send (Fetch uids) ;;
  match answer.2 with
  | Some m => throw (ProtocolError m)
  | None => ret answer.1
  end.

(** [searchEmails] *)
Definition searchEmails (options : SearchOptions) : M Session (list EmailSearchResult) :=
  ensureConnected ;;
  let mailbox := JS.orElse (folder options) "INBOX" in
  selectMailbox mailbox ;;
  let query := buildQuery options in
  searchResult <- gets (fun s => found srv (log s) query) ;;
  send (Search query) ;;
  let maxResults := effectiveMaxResults options in
  match searchResult with
  | None | Some [] => ret []
  | Some uids =>
      let sorted := sortedUids uids maxResults in
      match sorted with
      | [] => ret []
      | _ =>
          tryCatch
            (msgs <- fetchAll sorted ;;
             ret (omap toSearchResult msgs))
            (fun error =>
               modify (setCurrentMailbox None) ;;
               throw (FetchFailed (message error)))
      end
  end.

(** [moveEmail] *)
Definition moveEmail (uid sourceFolder destinationFolder : string) : M Session unit :=
  ensureConnected ;;
  selectMailbox sourceFolder ;;
  let uidNum := JS.parseInt uid in
  send (MessageMove (One uidNum) destinationFolder) ;;
  modify (setCurrentMailbox None).

(** [uids.map((uid) => parseInt(uid, 10)).filter((n) => !Number.isNaN(n))] *)
Definition uidNumbers (uids : list string) : list Z := omap JS.parseInt uids.

(** [moveEmails] *)
Definition moveEmails (uids : list string) (sourceFolder destinationFolder : string)
  : M Session unit :=
  ensureConnected ;;
  selectMailbox sourceFolder ;;
  match uids with
  | [] => ret tt
  | _ =>
      match uidNumbers uids with
      | [] => throw NoValidUids
      | numbers =>
          send (MessageMove (Many numbers) destinationFolder) ;;
          modify (setCurrentMailbox None)
      end
  end.

(** The predicate of [folders.find] in [deleteEmail]. *)
Definition isTrashFolder (f : FolderInfo) : bool :=
  bool_decide (specialUse f = Some "\Trash")
  || JS.includes (JS.toLowerCase (path f)) "trash"
  || bool_decide (path f = "Deleted Messages").

(** Flag as deleted, then expunge. *)
Definition deletePermanently (uidNum : option Z) : M Session unit :=
  send (MessageFlagsAdd (One uidNum) ["\Deleted"]) ;;
  send (MessageDelete (One uidNum)).

(** [deleteEmail] *)
Definition deleteEmail (uid : string) (folder : option string) (permanent : option bool)
  : M Session unit :=
  ensureConnected ;;
  let mailbox := JS.orElse folder "INBOX" in
  selectMailbox mailbox ;;
  let uidNum := JS.parseInt uid in
  (if default false permanent then deletePermanently uidNum
   else
     folders <- listFolders ;;
     match JS.find isTrashFolder folders with
     | Some trashFolder => send (MessageMove (One uidNum) (path trashFolder))
     | None => deletePermanently uidNum
     end) ;;
  modify (setCurrentMailbox None).

(** [markEmailsRead] *)
Definition markEmailsRead (uids : list string) (folder : option string) : M Session unit :=
  ensureConnected ;;
  let mailbox := JS.orElse folder "INBOX" in
  selectMailbox mailbox ;;
  match uids with
  | [] => ret tt
  | _ =>
      match uidNumbers uids with
      | [] => throw NoValidUids
      | numbers => send (MessageFlagsAdd (Many numbers) ["\Seen"])
      end
  end.

(** The lookup of [downloadAttachment] in the parsed attachments: by
    content-id or filename first, by position otherwise. *)
Definition locateAttachment (attachments : option (list Attachment)) (partId : string)
  : Result Download :=
  let attachment :=
    attachments ≫= JS.find (fun att =>
      bool_decide (contentId att = Some partId) || bool_decide (filename att = Some partId)) in
  match attachment with
  | None =>
      let index := JS.parseInt partId in
      let attachmentByIndex := attachments ≫= (fun l => JS.index l index) in
      match attachmentByIndex with
      | None => Throw (AttachmentNotFound partId)
      | Some att =>
          Ok (mkDownload (content att)
                (JS.orElse (filename att) ("attachment-" +:+ from_option toString "NaN" index))
                (contentType att))
      end
  | Some att =>
      Ok (mkDownload (content att) (JS.orElse (filename att) "attachment") (contentType att))
  end.

(** [downloadAttachment] *)
Definition downloadAttachment (uid partId : string) (folder : option string)
  : M Session Download :=
  ensureConnected ;;
  let mailbox := JS.orElse folder "INBOX" in
  selectMailbox mailbox ;;
  let uidNum := JS.parseInt uid in
  answer <- gets (fun s => fetchedOne srv (log s) uidNum) ;;
  send (FetchOne uidNum) ;;
  match answer with
  | None | Some None => throw (MessageNotFound uid mailbox)
  | Some (Some source) =>
      match locateAttachment (parsed srv source) partId with
      | Ok d => ret d
      | Throw e => throw e
      end
  end.

(** [parseAttachments]: the attachment index of [readEmail]. *)
Definition parseAttachments (attachments : option (list Attachment)) : list EmailAttachment :=
  match attachments with
  | None => []
  | Some l =>
      imap (fun index att =>
              mkEmailAttachment
                (JS.orElse (contentId att) (toString (Z.of_nat index)))
                (JS.orElse (filename att) ("attachment-" +:+ toString (Z.of_nat index)))
                (contentType att)
                (size att)) l
  end.

End Client.
End Imap.

(* ===================================================================== *)
(** ** The iCloud server ([packages/icloud/src/index.ts])                 *)
(* ===================================================================== *)

Module ICloudTools.

#[local] Abbreviation Manager := (State unit ICloud.AccountCredentials unit).

(** An [ImapClient] object: the credentials it was constructed with, and
    the fields and command log of its session. *)
Record ImapClient : Type := mkImapClient {
  credentials : ICloud.AccountCredentials;
  session : Imap.Session;
}.

(** The module-level variables [accountManager] and [imapClients]. *)
Record ServerState : Type := mkServerState {
  accountManager : Manager;
  imapClients : gmap string ImapClient;
}.

(** A method call on [accountManager]. *)
Definition onManager {A} (c : M Manager A) : M ServerState A :=
  fun w =>
    let r := c (accountManager w) in
    (r.1, mkServerState r.2 (imapClients w)).

Section Tools.
Variable srv : Imap.Server.

(** [new ImapClient(credentials)] followed by [await client.connect()]
    and [imapClients.set(email, client)]; a client whose [connect] throws
    is not stored. *)
Definition connectNewClient (credentials : ICloud.AccountCredentials) : M ServerState unit :=
  fun w =>
    let r := Imap.connect srv (Imap.mkSession false None []) in
    match r.1 with
    | Ok _ =>
        (Ok tt,
         mkServerState (accountManager w)
           (<[ICloud.credEmail credentials := mkImapClient credentials r.2]> (imapClients w)))
    | Throw e => (Throw e, w)
    end.

(** [getImapClient(account?)]; the result is [imapClients.get(email)]. *)
Definition getImapClient (account : option string) : M ServerState (option ImapClient) :=
  credentials <- onManager (ICloud.getCredentials account) ;;
  let addr := ICloud.credEmail credentials in
  cached <- gets (fun w => bool_decide (is_Some (imapClients w !! addr))) ;;
  when (negb cached) (connectNewClient credentials) ;;
  gets (fun w => imapClients w !! addr).

End Tools.

#[local] Abbreviation St := (State unit ICloud.AccountCredentials unit).

(** [case 'switch_account']: the [activeAccount] of the reply. *)
Definition switch_account (account : string) : M St string :=
  setActiveAccount account ;;
  resolveEmailFromAlias account.

(** [case 'get_active_account']: the [activeAccount] of the reply and the
    [accountInfo] its alias and date are read from. *)
Definition get_active_account
  : M St (option string * Obj.Lookup (V := AccountInfo unit)) :=
  activeAccount <- getActiveAccount ;;
  accountInfo <- (if JS.truthy activeAccount
                  then getAccountInfo (default "" activeAccount)
                  else ret Obj.Undefined) ;;
  ret (activeAccount, accountInfo).

End ICloudTools.

(* ===================================================================== *)
(** ** Notions of the specification                                       *)
(* ===================================================================== *)

(** No two registry entries share a non-empty alias. *)
Definition aliasesUnique {S} (r : list (string * AccountInfo S)) : Prop :=
  forall k1 i1 k2 i2 a,
    (k1, i1) ∈ r -> (k2, i2) ∈ r ->
    alias i1 = Some a -> alias i2 = Some a -> a <> "" -> k1 = k2.

(** No alias equals the primary email of a different account. *)
Definition aliasNeverOtherEmail {S} (r : list (string * AccountInfo S)) : Prop :=
  forall k1 i1 k2 i2,
    (k1, i1) ∈ r -> (k2, i2) ∈ r -> alias i1 = Some k2 -> k1 = k2.

(** Every entry is stored under its own email. *)
Definition keyedByEmail {S} (r : list (string * AccountInfo S)) : Prop :=
  Forall (fun p => email p.2 = p.1) r.

(** A manager that has just been constructed on an empty configuration
    directory; the clock reads [0] forever. *)
Definition freshState {S C K} (k : K) : State S C K :=
  mkState [] None ∅ None k (fun _ => 0) 0%nat.

(** Run [c], then [k], keeping the state when [c] throws. *)
Definition andThen {St A B} (c : M St A) (k : M St B) : M St B := bind c (fun _ => k).

(** The state right after [addAccount] has written the credential file,
    the registry entry and the registry file (before the activation test). *)
Definition gmailAdded {Credentials} (addr : string) (credentials : Credentials)
    (a : option string) (sc : option (list string))
    (s : State (list string) Credentials (gset string))
  : State (list string) Credentials (gset string) :=
  let p := credentialsPathIn Gmail.ACCOUNTS_DIR addr in
  let r' := Obj.set (registry s) addr
              (mkAccountInfo addr a p (time s (tick s)) (default Gmail.defaultScopes sc)) in
  mkState r' (Some r') (<[p := credentials]> (credentialFiles s)) (activeFile s)
          (clients s) (time s) (Datatypes.S (tick s)).

Definition icloudAdded (credentials : ICloud.AccountCredentials) (a : option string)
    (s : State unit ICloud.AccountCredentials unit)
  : State unit ICloud.AccountCredentials unit :=
  let addr := ICloud.credEmail credentials in
  let p := credentialsPathIn ICloud.ACCOUNTS_DIR addr in
  let r' := Obj.set (registry s) addr (mkAccountInfo addr a p (time s (tick s)) tt) in
  mkState r' (Some r')
          (<[p := ICloud.mkCredentials addr (ICloud.appPassword credentials)]> (credentialFiles s))
          (activeFile s) (clients s) (time s) (Datatypes.S (tick s)).

(** The collision test [addAccount] performs for an optional alias. *)
Definition icloudAddCollision (r : list (string * AccountInfo unit))
    (credentials : ICloud.AccountCredentials) (a : option string) : option Error :=
  if JS.truthy a
  then ICloud.aliasUnavailable r (default "" a) (ICloud.credEmail credentials)
  else None.

(** Two Gmail accounts registered one after the other under the same
    alias, on a fresh manager. *)
Definition gmailSameAliasTwice : Result unit * State (list string) unit (gset string) :=
  andThen (Gmail.addAccount "a@gmail.com" tt (Some "work") None)
          (Gmail.addAccount "b@gmail.com" tt (Some "work") None)
          (freshState ∅).

(** A Gmail account whose alias is set to the address of another one. *)
Definition gmailAliasIsOtherEmail : Result unit * State (list string) unit (gset string) :=
  andThen (Gmail.addAccount "a@gmail.com" tt None None)
    (andThen (Gmail.addAccount "b@gmail.com" tt None None)
             (Gmail.setAlias "a@gmail.com" "b@gmail.com"))
    (freshState ∅).

(** An iCloud account registered under the alias "b@icloud.com", followed
    by the account whose address that is. *)
Definition icloudAliasThenEmail : Result unit * State unit ICloud.AccountCredentials unit :=
  andThen (ICloud.addAccount (ICloud.mkCredentials "a@icloud.com" "aaaa-bbbb-cccc-dddd")
                             (Some "b@icloud.com"))
          (ICloud.addAccount (ICloud.mkCredentials "b@icloud.com" "eeee-ffff-gggg-hhhh") None)
          (freshState tt).

(** Two iCloud accounts, the first with the alias "home". *)
Definition icloudTwoAccounts : State unit ICloud.AccountCredentials unit :=
  (andThen (ICloud.addAccount (ICloud.mkCredentials "a@icloud.com" "aaaa-bbbb-cccc-dddd")
                              (Some "home"))
           (ICloud.addAccount (ICloud.mkCredentials "b@icloud.com" "eeee-ffff-gggg-hhhh") None)
           (freshState tt)).2.

(** Two Gmail accounts, the first with the alias "work". *)
Definition gmailTwoAccounts : State (list string) unit (gset string) :=
  (andThen (Gmail.addAccount "a@gmail.com" tt (Some "work") None)
           (Gmail.addAccount "b@gmail.com" tt None None)
           (freshState ∅)).2.

(** [icloudTwoAccounts] and [gmailTwoAccounts] with "a" active and its
    credential file gone from the disk. *)
Definition icloudCredentialsLost : State unit ICloud.AccountCredentials unit :=
  setCredentialFiles
    (delete "~/.icloud-mcp/accounts/a@icloud.com.json" (credentialFiles icloudTwoAccounts))
    icloudTwoAccounts.

Definition gmailCredentialsLost : State (list string) unit (gset string) :=
  setCredentialFiles
    (delete "~/.gmail-mcp/accounts/a@gmail.com.json" (credentialFiles gmailTwoAccounts))
    gmailTwoAccounts.

(** What the batch handlers do for one identifier: send the request built
    by [req] and report the identifier as done. *)
Definition itemCall (respond : list Batch.Request -> Batch.Request -> option Error)
    (req : string -> Batch.Request) (id : string) : M (list Batch.Request) (string * bool) :=
  bind (Batch.call respond (req id)) (fun _ => ret (id, true)).

(** The identifiers a batch result accounts for: the successes, then the
    failures. *)
Definition covered (res : Batch.BatchResult string (string * bool)) : list string :=
  (Batch.successes res).*1 ++ (Batch.failures res).*1.

(** The endpoint accepts the whole chunk sent after the requests [h]: each
    request of the chunk, sent after the ones before it, is accepted. *)
Definition chunkAccepted (respond : list Batch.Request -> Batch.Request -> option Error)
    (req : string -> Batch.Request) (h : list Batch.Request) (chunk : list string) : Prop :=
  forall j id, chunk !! j = Some id ->
               respond (h ++ (req <$> take j chunk)) (req id) = None.

(** The answer of the endpoint to the individual request for the item at
    position [p.1] of a chunk retried item by item after the requests [h]. *)
Definition retryAnswer (respond : list Batch.Request -> Batch.Request -> option Error)
    (req : string -> Batch.Request) (h : list Batch.Request) (chunk : list string)
    (p : nat * string) : option Error :=
  respond (h ++ (req <$> take p.1 chunk)) (req p.2).

(** The items of a retried chunk whose individual request is accepted, in
    the order of the chunk, as the handlers report them... *)
Definition retrySuccesses (respond : list Batch.Request -> Batch.Request -> option Error)
    (req : string -> Batch.Request) (h : list Batch.Request) (chunk : list string)
  : list (string * bool) :=
  omap (fun p => match retryAnswer respond req h chunk p with
                 | None => Some (p.2, true)
                 | Some _ => None
                 end) (imap pair chunk).

(** ... and the ones whose individual request is rejected, each with the
    error of that request. *)
Definition retryFailures (respond : list Batch.Request -> Batch.Request -> option Error)
    (req : string -> Batch.Request) (h : list Batch.Request) (chunk : list string)
  : list (string * Error) :=
  omap (fun p => match retryAnswer respond req h chunk p with
                 | Some e => Some (p.2, e)
                 | None => None
                 end) (imap pair chunk).

(** An endpoint that rejects the identifier "bad" and accepts all others. *)
Definition rejectBad (history : list Batch.Request) (r : Batch.Request) : option Error :=
  match r with
  | Batch.MessagesModify id _ _ | Batch.MessagesDelete id =>
      if bool_decide (id = "bad") then Some (ProtocolError "Requested entity was not found.")
      else None
  end.

(** A server that accepts every command over a connection that stays
    usable, and whose fetch iterator ends normally. *)
Definition healthy (srv : Imap.Server) : Prop :=
  (forall h c, Imap.fails srv h c = None) /\
  (forall h, Imap.usable srv h = true) /\
  (forall h uids, (Imap.fetched srv h uids).2 = None).

(** The session once the connection is ensured on a healthy server. *)
Definition connected (s : Imap.Session) : Imap.Session :=
  if Imap.client s then s
  else Imap.mkSession true (Imap.currentMailbox s) (Imap.log s ++ [Imap.Connect]).

(** The session once [mailbox] is selected on a healthy server. *)
Definition opened (s : Imap.Session) (mailbox : string) : Imap.Session :=
  let s1 := connected s in
  if bool_decide (Imap.currentMailbox s1 = Some mailbox) then s1
  else Imap.mkSession true (Some mailbox) (Imap.log s1 ++ [Imap.MailboxOpen mailbox]).

Definition isMailboxOpen (c : Imap.Command) : bool :=
  match c with Imap.MailboxOpen _ => true | _ => false end.

Definition isFetch (c : Imap.Command) : bool :=
  match c with Imap.Fetch _ => true | _ => false end.

(** Number of mailbox-select commands in a log. *)
Definition selects (l : list Imap.Command) : nat := List.length (List.filter isMailboxOpen l).

(** A freshly constructed [ImapClient]. *)
Definition newSession : Imap.Session := Imap.mkSession false None [].

(** A healthy server with fixed answers: the folder list, the answer of
    every search, the messages of the mailbox (fetched in request order) and
    the attachments of every message. *)
Definition plainServer (folders : list Imap.ListResponse) (uids : option (list Z))
    (messages : list Imap.FetchMessageObject) (attachments : option (list Imap.Attachment))
  : Imap.Server :=
  Imap.mkServer
    (fun _ _ => None)
    (fun _ => true)
    (fun _ => folders)
    (fun _ _ => uids)
    (fun _ requested =>
       (omap (fun u => List.find (fun msg => bool_decide (Imap.msgUid msg = u)) messages)
             requested, None))
    (fun _ _ => Some (Some []))
    (fun _ => attachments).

Definition folderNamed (p : string) (specialUse : option string) : Imap.ListResponse :=
  Imap.mkListResponse p p "/" specialUse None.

(** An account without any trash-like folder, and the usual iCloud one. *)
Definition noTrashServer : Imap.Server :=
  plainServer [folderNamed "INBOX" None; folderNamed "Sent Messages" (Some "\Sent")]
              None [] None.


(** [searchEmails] from the point where the mailbox is selected, with the
    monad unfolded: the search, then at most one fetch, of the sorted and
    truncated UID list. *)
Definition searchSelected (srv : Imap.Server) (o : Imap.SearchOptions) (s1 : Imap.Session)
  : Result (list Imap.EmailSearchResult) * Imap.Session :=
  let q := Imap.buildQuery o in
  let s2 := Imap.mkSession (Imap.client s1) (Imap.currentMailbox s1)
                           (Imap.log s1 ++ [Imap.Search q]) in
  match Imap.fails srv (Imap.log s1) (Imap.Search q) with
  | Some msg => (Throw (ProtocolError msg), s2)
  | None =>
      let sorted := Imap.sortedUids (default [] (Imap.found srv (Imap.log s1) q))
                                    (Imap.effectiveMaxResults o) in
      match sorted with
      | [] => (Ok [], s2)
      | _ =>
          let s3 := Imap.mkSession (Imap.client s1) (Imap.currentMailbox s1)
                                   (Imap.log s2 ++ [Imap.Fetch sorted]) in
          match Imap.fails srv (Imap.log s2) (Imap.Fetch sorted),
                (Imap.fetched srv (Imap.log s2) sorted).2 with
          | None, None =>
              (Ok (omap Imap.toSearchResult (Imap.fetched srv (Imap.log s2) sorted).1), s3)
          | Some msg, _ | None, Some msg =>
              (Throw (FetchFailed msg), Imap.setCurrentMailbox None s3)
          end
      end
  end.

(** The options without any criterion. *)
Definition noCriteria (folder : option string) (maxResults : option Q) : Imap.SearchOptions :=
  Imap.mkSearchOptions folder None None None None None None None None maxResults.

(** A message with an envelope and nothing else of interest. *)
Definition plainMessage (uid : Z) : Imap.FetchMessageObject :=
  Imap.mkFetchMessageObject uid
    (Some (Imap.mkEnvelope (Some "hello") None None (Some 0))) None None.

(** A mailbox of three messages; every search answers [3, 1, 2]. *)
Definition mailServer : Imap.Server :=
  plainServer [folderNamed "INBOX" None] (Some [3; 1; 2])
              [plainMessage 1; plainMessage 2; plainMessage 3] None.

(** The same mailbox on a server that yields the fetched messages in the
    order of the mailbox, whatever the order of the request. *)
Definition mailboxOrderServer : Imap.Server :=
  Imap.mkServer
    (fun _ _ => None)
    (fun _ => true)
    (fun _ => [folderNamed "INBOX" None])
    (fun _ _ => Some [3; 1; 2])
    (fun _ requested =>
       (List.filter (fun msg => existsb (Z.eqb (Imap.msgUid msg)) requested)
                    [plainMessage 1; plainMessage 2; plainMessage 3], None))
    (fun _ _ => Some (Some []))
    (fun _ => None).

(** The bound [searchEmails] is asked for: [maxResults], 50 when absent. *)
Definition requestedMax (o : Imap.SearchOptions) : Q := default 50%Q (Imap.maxResults o).

(** No criterion is given: absent or empty strings, no date, no flag test. *)
Definition criteriaEmpty (o : Imap.SearchOptions) : Prop :=
  JS.truthy (Imap.from o) = false /\ JS.truthy (Imap.to o) = false /\
  JS.truthy (Imap.subject o) = false /\ JS.truthy (Imap.text o) = false /\
  Imap.since o = None /\ Imap.before o = None /\
  Imap.seen o = None /\ Imap.flagged o = None.

(** The lookup of an attachment as the specification words it: a
    content-id match first, else a filename match, else the position. *)
Definition locateThreeTier (attachments : list Imap.Attachment) (partId : string)
  : option Imap.Attachment :=
  match JS.find (fun att => bool_decide (Imap.contentId att = Some partId)) attachments with
  | Some att => Some att
  | None =>
      match JS.find (fun att => bool_decide (Imap.filename att = Some partId)) attachments with
      | Some att => Some att
      | None => JS.index attachments (JS.parseInt partId)
      end
  end.

(** [partId] names the attachment by content-id or by filename. *)
Definition namedBy (partId : string) (att : Imap.Attachment) : Prop :=
  Imap.contentId att = Some partId \/ Imap.filename att = Some partId.

Definition bytes (l : list Z) : list Byte.byte :=
  omap (fun z => Byte.of_nat (Z.to_nat z)) l.

(** A message whose first attachment has neither content-id nor filename
    and whose second attachment is the file named "0". *)
Definition unnamedThenZero : list Imap.Attachment :=
  [ Imap.mkAttachment None None "application/octet-stream" (bytes [1; 1; 1]) 3;
    Imap.mkAttachment None (Some "0") "text/plain" (bytes [2; 2]) 2 ].

(** A message whose first attachment is the file "logo.png" and whose
    second attachment has the content-id "logo.png". *)
Definition fileThenCid : list Imap.Attachment :=
  [ Imap.mkAttachment None (Some "logo.png") "image/png" (bytes [1; 1; 1]) 3;
    Imap.mkAttachment (Some "logo.png") (Some "inline.png") "image/png" (bytes [2; 2]) 2 ].

(** A message with one attachment that has neither content-id nor filename. *)
Definition unnamedOnly : list Imap.Attachment :=
  [ Imap.mkAttachment None None "application/octet-stream" (bytes [7; 7]) 2 ].

Definition attachmentServer (attachments : list Imap.Attachment) : Imap.Server :=
  plainServer [folderNamed "INBOX" None] None [] (Some attachments).

(** A call of the alias-related interface of the iCloud manager, and the
    manager after a sequence of such calls (a call that throws leaves the
    state it reached). *)
Inductive Call : Type :=
  | AddAccount (credentials : ICloud.AccountCredentials) (alias : option string)
  | SetAlias (emailOrAlias newAlias : string).

Definition runCall (c : Call) (s : State unit ICloud.AccountCredentials unit)
  : State unit ICloud.AccountCredentials unit :=
  match c with
  | AddAccount credentials a => (ICloud.addAccount credentials a s).2
  | SetAlias emailOrAlias newAlias => (ICloud.setAlias emailOrAlias newAlias s).2
  end.

Definition runCalls (cs : list Call) (s : State unit ICloud.AccountCredentials unit)
  : State unit ICloud.AccountCredentials unit :=
  foldl (fun s c => runCall c s) s cs.

(** A Gmail account that is given the alias "constructor", and an iCloud
    account registered under the alias "toString": the alias is any string
    ([z.string()] in the tool schema, the command-line argument of [auth]). *)
Definition gmailAliasConstructor : Result unit * State (list string) unit (gset string) :=
  andThen (Gmail.addAccount "a@gmail.com" tt None None)
          (Gmail.setAlias "a@gmail.com" "constructor")
          (freshState ∅).

Definition icloudAliasToString : Result unit * State unit ICloud.AccountCredentials unit :=
  ICloud.addAccount (ICloud.mkCredentials "a@icloud.com" "aaaa-bbbb-cccc-dddd")
                    (Some "toString") (freshState tt).

(* ===================================================================== *)
(** ** Notions used by the further properties                             *)
(* ===================================================================== *)

(** [id] is a registered email or the alias of a registered account. *)
Definition namesAccount {S} (r : list (string * AccountInfo S)) (id : string) : Prop :=
  is_Some (Obj.get r id) \/ exists k i, (k, i) ∈ r /\ alias i = Some id.

(** [id] names no member of [Object.prototype]. *)
Definition plain (id : string) : Prop := Obj.inherited id = false.

(** The second half of the iCloud [getCredentials], once the account
    [key] is chosen: the existence test, the credentials file, the
    [lastUsed] update.  [label] is the identifier named by the "Account not
    found" message. *)
Definition credentialsOf (label key : string) (s : State unit ICloud.AccountCredentials unit)
  : Result ICloud.AccountCredentials * State unit ICloud.AccountCredentials unit :=
  if Obj.has (registry s) key then
    match (credentialsPath <$> Obj.get (registry s) key) ≫=
            (fun p => credentialFiles s !! p) with
    | None => (Throw (CredentialsFileNotFound key), s)
    | Some credentials =>
        let r' := touch key (time s (tick s)) (registry s) in
        (Ok credentials,
         mkState r' (Some r') (credentialFiles s) (activeFile s) (clients s) (time s)
                 (Datatypes.S (tick s)))
    end
  else (Throw (AccountNotFoundAvailable label (ICloud.available (registry s))), s).

(** No account is active: the active-account file is absent, empty or
    blank. *)
Definition noActiveAccount {S C K} (s : State S C K) : Prop :=
  JS.truthy (readActive s) = false.

(** A manager that has just been constructed on an empty configuration
    directory, with a clock that advances by one at every reading. *)
Definition tickingState {S C K} (k : K) : State S C K :=
  mkState [] None ∅ None k (fun n => Z.of_nat n) 0%nat.

(** Two iCloud accounts registered under that clock, the first with the
    alias "home". *)
Definition icloudTicking : State unit ICloud.AccountCredentials unit :=
  (andThen (ICloud.addAccount (ICloud.mkCredentials "a@icloud.com" "aaaa-bbbb-cccc-dddd")
                              (Some "home"))
           (ICloud.addAccount (ICloud.mkCredentials "b@icloud.com" "eeee-ffff-gggg-hhhh") None)
           (tickingState tt)).2.

(** The calls of the public interface of the iCloud manager that can
    change its state, and the manager after a sequence of them (a call that
    throws leaves the state it reached). *)
Inductive ICloudOp : Type :=
  | IAdd (credentials : ICloud.AccountCredentials) (alias : option string)
  | IRemove (emailOrAlias : string)
  | ISetAlias (emailOrAlias newAlias : string)
  | ISetActive (emailOrAlias : string)
  | IGetCredentials (emailOrAlias : option string).

Definition runICloud (op : ICloudOp) (s : State unit ICloud.AccountCredentials unit)
  : State unit ICloud.AccountCredentials unit :=
  match op with
  | IAdd credentials a => (ICloud.addAccount credentials a s).2
  | IRemove emailOrAlias => (ICloud.removeAccount emailOrAlias s).2
  | ISetAlias emailOrAlias newAlias => (ICloud.setAlias emailOrAlias newAlias s).2
  | ISetActive emailOrAlias => (setActiveAccount emailOrAlias s).2
  | IGetCredentials emailOrAlias => (ICloud.getCredentials emailOrAlias s).2
  end.

Definition runICloudOps (ops : list ICloudOp) (s : State unit ICloud.AccountCredentials unit)
  : State unit ICloud.AccountCredentials unit :=
  foldl (fun s op => runICloud op s) s ops.

(** The same for the Gmail manager. *)
Inductive GmailOp (Credentials : Type) : Type :=
  | GAdd (addr : string) (credentials : Credentials) (alias : option string)
         (scopes : option (list string))
  | GRemove (emailOrAlias : string)
  | GSetAlias (emailOrAlias newAlias : string)
  | GSetActive (emailOrAlias : string).
Arguments GAdd {Credentials}.
Arguments GRemove {Credentials}.
Arguments GSetAlias {Credentials}.
Arguments GSetActive {Credentials}.

Definition runGmail {Credentials} (op : GmailOp Credentials)
    (s : State (list string) Credentials (gset string))
  : State (list string) Credentials (gset string) :=
  match op with
  | GAdd addr credentials a sc => (Gmail.addAccount addr credentials a sc s).2
  | GRemove emailOrAlias => (Gmail.removeAccount emailOrAlias s).2
  | GSetAlias emailOrAlias newAlias => (Gmail.setAlias emailOrAlias newAlias s).2
  | GSetActive emailOrAlias => (setActiveAccount emailOrAlias s).2
  end.

Definition runGmailOps {Credentials} (ops : list (GmailOp Credentials))
    (s : State (list string) Credentials (gset string))
  : State (list string) Credentials (gset string) :=
  foldl (fun s op => runGmail op s) s ops.

(** The registry file holds the registry of the manager (no file yet for
    a manager without accounts). *)
Definition saved {S C K} (s : State S C K) : Prop :=
  registryFile s = Some (registry s) \/ (registryFile s = None /\ registry s = []).

(** An entry is stored under its own email and names the credentials file
    of that email in the accounts directory [dir]. *)
Definition entryOk {S} (dir : string) (p : string * AccountInfo S) : Prop :=
  email p.2 = p.1 /\ credentialsPath p.2 = credentialsPathIn dir p.1.

Definition wellFormed {S} (dir : string) (r : list (string * AccountInfo S)) : Prop :=
  NoDup (Obj.keys r) /\ Forall (entryOk dir) r.





(** The states the managers move to when an account is used: the date of
    [key] is refreshed and the registry saved ([refreshed]), after the key
    was written to the active-account file ([activated]). *)
Definition refreshed {S C K} (key : string) (s : State S C K) : State S C K :=
  let r' := touch key (time s (tick s)) (registry s) in
  mkState r' (Some r') (credentialFiles s) (activeFile s) (clients s) (time s)
          (Datatypes.S (tick s)).

Definition activated {S C K} (key : string) (s : State S C K) : State S C K :=
  refreshed key (setActiveFile (Some key) s).

(** [icloudTwoAccounts] after its active account "a" was removed: one
    account is left, and none is active. *)
Definition icloudOneLeft : State unit ICloud.AccountCredentials unit :=
  runICloudOps [IRemove "home"] icloudTwoAccounts.

(** The iCloud server with the two accounts of [icloudTwoAccounts] and no
    IMAP client yet, and after a tool call for the alias "home" on a server
    that accepts every command. *)
Definition icloudServerState : ICloudTools.ServerState :=
  ICloudTools.mkServerState icloudTwoAccounts ∅.

Definition icloudHomeConnected : ICloudTools.ServerState :=
  (ICloudTools.getImapClient noTrashServer (Some "home") icloudServerState).2.

(* ===================================================================== *)
(** * Properties                                                          *)
(* ===================================================================== *)

(** ** The monad *)

Lemma bind_ok {St A B} (c : M St A) (k : A -> M St B) s a s1 :
  c s = (Ok a, s1) -> bind c k s = k a s1.
Proof. intros H. unfold bind. by rewrite H. Qed.

Lemma bind_throw {St A B} (c : M St A) (k : A -> M St B) s e s1 :
  c s = (Throw e, s1) -> bind c k s = (Throw e, s1).
Proof. intros H. unfold bind. by rewrite H. Qed.

Lemma bind_ok_inv {St A B} (c : M St A) (k : A -> M St B) s b s2 :
  bind c k s = (Ok b, s2) -> exists a s1, c s = (Ok a, s1) /\ k a s1 = (Ok b, s2).
Proof.
  unfold bind. destruct (c s) as [[a|e] s1]; [eauto | discriminate].
Qed.

Ltac monad_unfold :=
  unfold bind, ret, gets, modify, throw, when, tryCatch in *.

(** ** JavaScript objects *)

Section ObjFacts.
Context {V : Type}.
Implicit Types (o : list (string * V)) (k : string) (v : V).

Lemma get_set_eq o k v : Obj.get (Obj.set o k v) k = Some v.
Proof.
  induction o as [|[k' v'] o IH]; simpl.
  - by rewrite decide_True.
  - destruct (decide (k' = k)); simpl.
    + by rewrite decide_True.
    + by rewrite decide_False.
Qed.

Lemma get_set_ne o k k' v : k <> k' -> Obj.get (Obj.set o k v) k' = Obj.get o k'.
Proof.
  intros Hne. induction o as [|[k0 v0] o IH]; simpl.
  - by rewrite decide_False.
  - destruct (decide (k0 = k)) as [->|]; simpl.
    + by rewrite !decide_False.
    + by rewrite IH.
Qed.

Lemma get_delete_eq o k : Obj.get (Obj.delete o k) k = None.
Proof.
  induction o as [|[k0 v0] o IH]; simpl; [done|].
  destruct (decide (k0 = k)); simpl; [done|]. by rewrite decide_False.
Qed.


Lemma get_Some_elem o k v : Obj.get o k = Some v -> (k, v) ∈ o.
Proof.
  induction o as [|[k0 v0] o IH]; simpl; [done|].
  destruct (decide (k0 = k)) as [->|].
  - intros [= ->]. left.
  - intros H. right. auto.
Qed.

Lemma get_None_keys o k : Obj.get o k = None <-> k ∉ Obj.keys o.
Proof.
  unfold Obj.keys. induction o as [|[k0 v0] o IH]; simpl.
  - split; [intros _; apply not_elem_of_nil | done].
  - rewrite not_elem_of_cons. destruct (decide (k0 = k)) as [->|]; split.
    + done.
    + intros [? _]. done.
    + intros H. split; [congruence | by apply IH].
    + intros [_ H]. by apply IH.
Qed.

Lemma has_true o k :
  Obj.has o k = true <-> is_Some (Obj.get o k) \/ Obj.inherited k = true.
Proof. unfold Obj.has. by rewrite orb_true_iff, bool_decide_eq_true. Qed.

Lemma has_false o k :
  Obj.has o k = false <-> Obj.get o k = None /\ Obj.inherited k = false.
Proof.
  unfold Obj.has. by rewrite orb_false_iff, bool_decide_eq_false, eq_None_not_Some.
Qed.

Lemma has_own o k : is_Some (Obj.get o k) -> Obj.has o k = true.
Proof. intros H. apply has_true. by left. Qed.

(** For a key that names no member of [Object.prototype] the test sees
    the own properties only. *)
Lemma has_plain o k :
  Obj.inherited k = false -> Obj.has o k = bool_decide (is_Some (Obj.get o k)).
Proof. intros H. unfold Obj.has. by rewrite H, orb_false_r. Qed.

Lemma lookup_own o k v : Obj.get o k = Some v -> Obj.lookup o k = Obj.Own v.
Proof. intros H. unfold Obj.lookup. by rewrite H. Qed.

Lemma set_nonempty o k v : Obj.set o k v <> [].
Proof. destruct o as [|[k0 v0] o]; simpl; [done|]. by destruct (decide (k0 = k)). Qed.

(** An object with a single property after [o[k] = v] is [{k: v}]. *)
Lemma set_singleton o k v :
  List.length (Obj.set o k v) = 1%nat -> Obj.set o k v = [(k, v)].
Proof.
  destruct o as [|[k0 v0] o]; simpl; [done|].
  destruct (decide (k0 = k)) as [->|]; simpl.
  - intros H. by destruct o.
  - intros H. pose proof (set_nonempty o k v) as Hne.
    destruct (Obj.set o k v); [done | simpl in H; lia].
Qed.

Lemma keys_set_known o k v :
  is_Some (Obj.get o k) -> Obj.keys (Obj.set o k v) = Obj.keys o.
Proof.
  unfold Obj.keys. induction o as [|[k0 v0] o IH]; simpl.
  - by intros [? ?].
  - destruct (decide (k0 = k)) as [->|]; csimpl; [done|].
    intros H. f_equal. by apply IH.
Qed.

Lemma keys_set_fresh o k v :
  Obj.get o k = None -> Obj.keys (Obj.set o k v) = Obj.keys o ++ [k].
Proof.
  unfold Obj.keys. induction o as [|[k0 v0] o IH]; simpl; [done|].
  destruct (decide (k0 = k)) as [->|]; csimpl; [done|].
  intros H. f_equal. by apply IH.
Qed.
End ObjFacts.

(** ** Sorting *)

Section SortFacts.
Context {A : Type} (before : A -> A -> bool).

Lemma insert_perm x l : JS.insert before x l ≡ₚ x :: l.
Proof.
  induction l as [|y l IH]; simpl; [done|].
  destruct (before x y); [done|]. rewrite IH. apply Permutation_swap.
Qed.

Lemma sort_perm l : JS.sort before l ≡ₚ l.
Proof.
  induction l as [|x l IH]; simpl; [done|].
  unfold JS.sort in *. simpl. rewrite insert_perm. by rewrite IH.
Qed.

Lemma sort_length l : List.length (JS.sort before l) = List.length l.
Proof. apply Permutation_length, sort_perm. Qed.
End SortFacts.

(** ** Facts shared by the two account managers *)

Section FindFacts.
Context {A : Type} (p : A -> bool).

Lemma find_Some_first l x :
  List.find p l = Some x ->
  exists n, l !! n = Some x /\ p x = true /\
            forall m y, (m < n)%nat -> l !! m = Some y -> p y = false.
Proof.
  induction l as [|y l IH]; simpl; [done|].
  destruct (p y) eqn:Hy.
  - intros [= ->]. exists 0%nat. repeat split; [done|]. intros m z Hm. lia.
  - intros H. destruct (IH H) as (n & Hn & Hx & Hfirst).
    exists (Datatypes.S n). repeat split; [done..|].
    intros [|m] z Hm; simpl.
    + by intros [= <-].
    + apply Hfirst. lia.
Qed.

Lemma find_None_all l : List.find p l = None <-> Forall (fun y => p y = false) l.
Proof.
  induction l as [|y l IH]; simpl.
  - split; [constructor | done].
  - destruct (p y) eqn:Hy.
    + split; [done|]. intros H. apply Forall_cons in H as [H _]. congruence.
    + rewrite IH. split; [by constructor | by intros [_ ?]%Forall_cons].
Qed.

Lemma find_is_Some l x : x ∈ l -> p x = true -> is_Some (List.find p l).
Proof.
  intros Hin Hp. destruct (List.find p l) eqn:Hf; [eauto|].
  apply find_None_all in Hf. rewrite Forall_forall in Hf.
  specialize (Hf x Hin). congruence.
Qed.
End FindFacts.

Section ManagerFacts.
Context {S C K : Type}.
Implicit Types (r : list (string * AccountInfo S)) (s : State S C K).

Lemma resolve_known r k : is_Some (Obj.get r k) -> resolve r k = k.
Proof. intros H. unfold resolve. by rewrite has_own. Qed.

Lemma resolve_alias r a :
  Obj.has r a = false ->
  (exists k i, (k, i) ∈ r /\ alias i = Some a) ->
  exists n k i, r !! n = Some (k, i) /\ alias i = Some a /\ resolve r a = k /\
                forall m p, (m < n)%nat -> r !! m = Some p -> alias p.2 <> Some a.
Proof.
  intros Hnone (k & i & Hin & Ha). unfold resolve. rewrite Hnone.
  destruct (find_is_Some (fun p => bool_decide (alias p.2 = Some a)) r (k, i) Hin)
    as [[k' i'] Hfind]; [by apply bool_decide_eq_true|].
  unfold findAlias. rewrite Hfind.
  apply find_Some_first in Hfind as (n & Hn & Hp & Hfirst).
  exists n, k', i'. repeat split; [done | by apply bool_decide_eq_true in Hp | ].
  intros m p Hm Hlook. specialize (Hfirst m p Hm Hlook).
  by apply bool_decide_eq_false in Hfirst.
Qed.

Lemma resolve_unknown r a :
  Obj.has r a = false ->
  (forall k i, (k, i) ∈ r -> alias i <> Some a) ->
  resolve r a = a.
Proof.
  intros Hnone Hno. unfold resolve. rewrite Hnone.
  destruct (findAlias r a) as [[k i]|] eqn:Hfind; [|done].
  apply find_Some_first in Hfind as (n & Hn & Hp & _).
  apply bool_decide_eq_true in Hp. simpl in Hp.
  exfalso. eapply Hno; [|done]. by eapply list_elem_of_lookup_2.
Qed.

(** [resolve] returns a registered key or its argument. *)
Lemma resolve_cases r a :
  resolve r a = a \/ is_Some (Obj.get r (resolve r a)).
Proof.
  unfold resolve. destruct (Obj.has r a) eqn:Hhas; [by left|].
  destruct (findAlias r a) as [[k i]|] eqn:Hfind; [|by left].
  right. apply find_Some_first in Hfind as (n & Hn & _ & _).
  apply list_elem_of_lookup_2 in Hn. clear -Hn.
  induction r as [|[k0 v0] r IH]; [by apply elem_of_nil in Hn|].
  simpl. destruct (decide (k0 = k)); [eauto|].
  apply elem_of_cons in Hn as [[= -> ->]|Hn]; [done | auto].
Qed.

Lemma sortAccounts_length r : List.length (sortAccounts r) = List.length r.
Proof. unfold sortAccounts, Obj.values. by rewrite sort_length, length_fmap. Qed.

Lemma get_touch r k k' d :
  is_Some (Obj.get (touch k d r) k') <-> is_Some (Obj.get r k').
Proof.
  unfold touch. destruct (Obj.get r k) as [i|] eqn:Hk; [|done].
  destruct (decide (k = k')) as [<-|Hne].
  - rewrite get_set_eq, Hk. split; eauto.
  - by rewrite get_set_ne.
Qed.

(** [setActiveAccount] on a registered email. *)
Lemma setActiveAccount_known s k :
  is_Some (Obj.get (registry s) k) ->
  setActiveAccount k s =
    (Ok tt,
     let r' := touch k (time s (tick s)) (registry s) in
     mkState r' (Some r') (credentialFiles s) (Some k) (clients s) (time s)
             (Datatypes.S (tick s))).
Proof.
  intros Hk. unfold setActiveAccount, resolveEmailFromAlias, saveRegistry, newDate.
  monad_unfold. simpl. rewrite (resolve_known _ _ Hk).
  apply has_own in Hk. by rewrite Hk.
Qed.

Lemma setActiveAccount_unknown s a :
  Obj.has (registry s) (resolve (registry s) a) = false ->
  setActiveAccount a s = (Throw (AccountNotFound a), s).
Proof.
  intros Hk. unfold setActiveAccount, resolveEmailFromAlias. monad_unfold. simpl.
  by rewrite Hk.
Qed.
End ManagerFacts.

(** ** The Gmail manager *)

Section GmailFacts.
Context {Credentials : Type}.
Implicit Types (s : State (list string) Credentials (gset string)).

Lemma gmail_addAccount_eq addr (c : Credentials) a sc s :
  Gmail.addAccount addr c a sc s =
    let s1 := gmailAdded addr c a sc s in
    if bool_decide (List.length (registry s1) = 1%nat)
    then setActiveAccount addr s1 else (Ok tt, s1).
Proof.
  unfold Gmail.addAccount, listAccounts, saveRegistry, newDate. monad_unfold. simpl.
  rewrite sortAccounts_length. by destruct (bool_decide _).
Qed.

Lemma gmail_added_known addr (c : Credentials) a sc s :
  is_Some (Obj.get (registry (gmailAdded addr c a sc s)) addr).
Proof. simpl. rewrite get_set_eq. eauto. Qed.

(** [addAccount] of the Gmail manager never throws. *)
Lemma gmail_addAccount_ok addr (c : Credentials) a sc s :
  (Gmail.addAccount addr c a sc s).1 = Ok tt.
Proof.
  rewrite gmail_addAccount_eq. cbv zeta. case_bool_decide; [|done].
  by rewrite setActiveAccount_known by apply gmail_added_known.
Qed.

Lemma aliasTaken_collision r a owner e :
  Gmail.aliasTaken r a owner = Some e -> isAliasCollision e = true.
Proof.
  induction r as [|[k i] r IH]; simpl; [done|].
  destruct (_ && _); [by intros [= <-] | done].
Qed.

Lemma gmail_setAlias_eq a newAlias s :
  Gmail.setAlias a newAlias s =
    let key := resolve (registry s) a in
    if Obj.has (registry s) key then
      match Gmail.aliasTaken (registry s) newAlias key with
      | Some err => (Throw err, s)
      | None =>
          let r' := assignAlias key newAlias (registry s) in
          (Ok tt, mkState r' (Some r') (credentialFiles s) (activeFile s) (clients s)
                          (time s) (tick s))
      end
    else (Throw (AccountNotFound a), s).
Proof.
  unfold Gmail.setAlias, resolveEmailFromAlias, saveRegistry. monad_unfold. simpl.
  destruct (Obj.has _ _); simpl; [|done].
  by destruct (Gmail.aliasTaken _ _ _).
Qed.

(** The credential files after [unlinkIfExists]. *)
Lemma gmail_unlinkIfExists path s :
  unlinkIfExists path s =
    (Ok tt,
     setCredentialFiles
       (match path with
        | Some p => if bool_decide (is_Some (credentialFiles s !! p))
                    then delete p (credentialFiles s) else credentialFiles s
        | None => credentialFiles s
        end) s).
Proof.
  destruct s. unfold unlinkIfExists. destruct path as [p|]; [|done].
  monad_unfold. simpl. by destruct (bool_decide _).
Qed.

Lemma gmail_removeAccount_eq a s :
  Gmail.removeAccount a s =
    let key := resolve (registry s) a in
    if Obj.has (registry s) key then
      let files :=
        match credentialsPath <$> Obj.get (registry s) key with
        | Some p => if bool_decide (is_Some (credentialFiles s !! p))
                    then delete p (credentialFiles s) else credentialFiles s
        | None => credentialFiles s
        end in
      let r' := Obj.delete (registry s) key in
      (Ok tt, mkState r' (Some r') files
                      (if bool_decide (readActive s = Some key) then None else activeFile s)
                      (clients s ∖ {[key]}) (time s) (tick s))
    else (Throw (AccountNotFound a), s).
Proof.
  unfold Gmail.removeAccount, resolveEmailFromAlias. unfold bind at 1, gets at 1.
  unfold bind at 1, gets at 1. cbv zeta.
  destruct (Obj.has _ _); simpl; [|done].
  unfold bind at 1, gets at 1. unfold bind at 1. rewrite gmail_unlinkIfExists.
  unfold saveRegistry, getActiveAccount. monad_unfold. simpl.
  unfold readActive; simpl;
    destruct (bool_decide (_ = Some _)) eqn:Hact; simpl; try done;
    destruct (activeFile s); simpl; try done.
Qed.

(** [removeAccount] of a registered account. *)
Lemma gmail_removeAccount_own a s info :
  Obj.get (registry s) (resolve (registry s) a) = Some info ->
  Gmail.removeAccount a s =
    let key := resolve (registry s) a in
    let files := if bool_decide (is_Some (credentialFiles s !! credentialsPath info))
                 then delete (credentialsPath info) (credentialFiles s)
                 else credentialFiles s in
    let r' := Obj.delete (registry s) key in
    (Ok tt, mkState r' (Some r') files
                    (if bool_decide (readActive s = Some key) then None else activeFile s)
                    (clients s ∖ {[key]}) (time s) (tick s)).
Proof.
  intros Hk. rewrite gmail_removeAccount_eq. cbv zeta.
  rewrite has_own by (rewrite Hk; eauto). by rewrite Hk.
Qed.
End GmailFacts.

(** ** The iCloud manager *)

Section ICloudFacts.
Implicit Types (s : State unit ICloud.AccountCredentials unit).

Lemma icloud_addAccount_eq cred a s :
  ICloud.addAccount cred a s =
    match icloudAddCollision (registry s) cred a with
    | Some err => (Throw err, s)
    | None =>
        let s1 := icloudAdded cred a s in
        if bool_decide (List.length (registry s1) = 1%nat)
        then setActiveAccount (ICloud.credEmail cred) s1 else (Ok tt, s1)
    end.
Proof.
  unfold ICloud.addAccount, ICloud.ensureAliasAvailable, icloudAddCollision,
    listAccounts, saveRegistry, newDate.
  monad_unfold. simpl.
  destruct (JS.truthy a); simpl.
  - destruct (ICloud.aliasUnavailable _ _ _); simpl; [done|].
    rewrite sortAccounts_length. by destruct (bool_decide _).
  - rewrite sortAccounts_length. by destruct (bool_decide _).
Qed.

Lemma icloud_added_known cred a s :
  is_Some (Obj.get (registry (icloudAdded cred a s)) (ICloud.credEmail cred)).
Proof. simpl. rewrite get_set_eq. eauto. Qed.

Lemma aliasUnavailable_collision r a owner e :
  ICloud.aliasUnavailable r a owner = Some e -> isAliasCollision e = true.
Proof.
  induction r as [|[k i] r IH]; simpl; [done|].
  destruct (_ && _); [by intros [= <-]|].
  destruct (_ && _); [by intros [= <-] | done].
Qed.

Lemma icloud_setAlias_eq a newAlias s :
  ICloud.setAlias a newAlias s =
    let key := resolve (registry s) a in
    if Obj.has (registry s) key then
      match ICloud.aliasUnavailable (registry s) newAlias key with
      | Some err => (Throw err, s)
      | None =>
          let r' := assignAlias key newAlias (registry s) in
          (Ok tt, mkState r' (Some r') (credentialFiles s) (activeFile s) (clients s)
                          (time s) (tick s))
      end
    else (Throw (AccountNotFound a), s).
Proof.
  unfold ICloud.setAlias, ICloud.ensureAliasAvailable, resolveEmailFromAlias, saveRegistry.
  monad_unfold. simpl.
  destruct (Obj.has _ _); simpl; [|done].
  by destruct (ICloud.aliasUnavailable _ _ _).
Qed.

(** The credential files after [unlinkIfExists]. *)
Lemma icloud_unlinkIfExists path s :
  unlinkIfExists path s =
    (Ok tt,
     setCredentialFiles
       (match path with
        | Some p => if bool_decide (is_Some (credentialFiles s !! p))
                    then delete p (credentialFiles s) else credentialFiles s
        | None => credentialFiles s
        end) s).
Proof.
  destruct s. unfold unlinkIfExists. destruct path as [p|]; [|done].
  monad_unfold. simpl. by destruct (bool_decide _).
Qed.

Lemma icloud_removeAccount_eq a s :
  ICloud.removeAccount a s =
    let key := resolve (registry s) a in
    if Obj.has (registry s) key then
      let files :=
        match credentialsPath <$> Obj.get (registry s) key with
        | Some p => if bool_decide (is_Some (credentialFiles s !! p))
                    then delete p (credentialFiles s) else credentialFiles s
        | None => credentialFiles s
        end in
      let r' := Obj.delete (registry s) key in
      (Ok tt, mkState r' (Some r') files
                      (if bool_decide (readActive s = Some key) then None else activeFile s)
                      (clients s) (time s) (tick s))
    else (Throw (AccountNotFound a), s).
Proof.
  unfold ICloud.removeAccount, resolveEmailFromAlias. unfold bind at 1, gets at 1.
  unfold bind at 1, gets at 1. cbv zeta.
  destruct (Obj.has _ _); simpl; [|done].
  unfold bind at 1, gets at 1. unfold bind at 1. rewrite icloud_unlinkIfExists.
  unfold saveRegistry, getActiveAccount. monad_unfold. simpl.
  unfold readActive; simpl;
    destruct (bool_decide (_ = Some _)) eqn:Hact; simpl; try done;
    destruct (activeFile s); simpl; try done.
Qed.

(** [removeAccount] of a registered account. *)
Lemma icloud_removeAccount_own a s info :
  Obj.get (registry s) (resolve (registry s) a) = Some info ->
  ICloud.removeAccount a s =
    let key := resolve (registry s) a in
    let files := if bool_decide (is_Some (credentialFiles s !! credentialsPath info))
                 then delete (credentialsPath info) (credentialFiles s)
                 else credentialFiles s in
    let r' := Obj.delete (registry s) key in
    (Ok tt, mkState r' (Some r') files
                    (if bool_decide (readActive s = Some key) then None else activeFile s)
                    (clients s) (time s) (tick s)).
Proof.
  intros Hk. rewrite icloud_removeAccount_eq. cbv zeta.
  rewrite has_own by (rewrite Hk; eauto). by rewrite Hk.
Qed.
End ICloudFacts.

(** ** Account resolution *)

Lemma getCredentials_unknown (s : State unit ICloud.AccountCredentials unit) (id : string) :
  id <> "" ->
  Obj.has (registry s) (resolve (registry s) id) = false ->
  ICloud.getCredentials (Some id) s =
    (Throw (AccountNotFoundAvailable id (ICloud.available (registry s))), s).
Proof.
  intros Hid Hnone. unfold ICloud.getCredentials, resolveEmailFromAlias. monad_unfold.
  destruct id as [|c id]; [done|]. simpl. by rewrite Hnone.
Qed.

(** X17 — Account resolution for identifiers that name no member of
    [Object.prototype].  An identifier that is a key of the registry
    resolves to itself, whatever the aliases are.  Otherwise, when some
    entry has it as alias (exact string equality), it resolves to the key of
    the first such entry in enumeration order, which is that entry's email
    in a registry keyed by email.  Otherwise it is returned unchanged, and
    the failure is only reported by the credential lookup
    ([getCredentials] of the iCloud manager throws "Account not found"
    without touching the state). *)
Theorem resolution_email_then_alias_then_passthrough :
  (forall (S C K : Type) (s : State S C K) (id : string),
      let r := registry s in
      (is_Some (Obj.get r id) -> resolveEmailFromAlias id s = (Ok id, s)) /\
      (Obj.inherited id = false -> Obj.get r id = None ->
       (exists k i, (k, i) ∈ r /\ alias i = Some id) ->
       exists n k i,
         r !! n = Some (k, i) /\ alias i = Some id /\
         (forall m p, (m < n)%nat -> r !! m = Some p -> alias p.2 <> Some id) /\
         resolveEmailFromAlias id s = (Ok k, s) /\
         (keyedByEmail r -> k = email i)) /\
      (Obj.inherited id = false -> Obj.get r id = None ->
       (forall k i, (k, i) ∈ r -> alias i <> Some id) ->
       resolveEmailFromAlias id s = (Ok id, s))) /\
  (forall (s : State unit ICloud.AccountCredentials unit) (id : string),
      id <> "" -> Obj.inherited id = false ->
      Obj.get (registry s) id = None ->
      (forall k i, (k, i) ∈ registry s -> alias i <> Some id) ->
      ICloud.getCredentials (Some id) s =
        (Throw (AccountNotFoundAvailable id (ICloud.available (registry s))), s)).
Proof.
  split.
  - intros S C K s id r. unfold resolveEmailFromAlias, gets. subst r. repeat split.
    + intros H. by rewrite resolve_known.
    + intros Hplain Hnone Hex.
      assert (Obj.has (registry s) id = false) as Hhas by by apply has_false.
      destruct (resolve_alias _ id Hhas Hex) as (n & k & i & Hn & Ha & Hres & Hfirst).
      exists n, k, i. repeat split; [done.. | by rewrite Hres |].
      intros Hkeyed. unfold keyedByEmail in Hkeyed. rewrite Forall_forall in Hkeyed.
      symmetry. apply (Hkeyed (k, i)). by eapply list_elem_of_lookup_2.
    + intros Hplain Hnone Hno. rewrite resolve_unknown; [done | by apply has_false | done].
  - intros s id Hid Hplain Hnone Hno.
    assert (Obj.has (registry s) id = false) as Hhas by by apply has_false.
    apply getCredentials_unknown; [done|]. by rewrite resolve_unknown.
Qed.

Lemma resolution_witness :
  resolveEmailFromAlias "a@icloud.com" icloudTwoAccounts = (Ok "a@icloud.com", icloudTwoAccounts) /\
  (exists n k i,
      registry icloudTwoAccounts !! n = Some (k, i) /\ alias i = Some "home" /\
      resolveEmailFromAlias "home" icloudTwoAccounts = (Ok k, icloudTwoAccounts)) /\
  resolveEmailFromAlias "nobody" icloudTwoAccounts = (Ok "nobody", icloudTwoAccounts) /\
  (ICloud.getCredentials (Some "nobody") icloudTwoAccounts).1 =
    Throw (AccountNotFoundAvailable "nobody" ["home"; "b@icloud.com"]).
Proof.
  destruct resolution_email_then_alias_then_passthrough as [Hres Hcred].
  destruct (Hres _ _ _ icloudTwoAccounts "a@icloud.com") as (H1 & _ & _).
  destruct (Hres _ _ _ icloudTwoAccounts "home") as (_ & H2 & _).
  destruct (Hres _ _ _ icloudTwoAccounts "nobody") as (_ & _ & H3).
  assert (Hno : forall k i, (k, i) ∈ registry icloudTwoAccounts -> alias i <> Some "nobody").
  { intros k i Hin. vm_compute in Hin.
    repeat (apply elem_of_cons in Hin as [[= -> ->]|Hin]; [done|]).
    by apply elem_of_nil in Hin. }
  split; [apply H1; vm_compute; eauto|].
  split.
  - destruct H2 as (n & k & i & Hn & Ha & _ & Hr & _);
      [reflexivity | reflexivity | eexists _, _; split; [vm_compute; left | reflexivity] |].
    by exists n, k, i.
  - split; [apply H3; [reflexivity | reflexivity | exact Hno]|].
    rewrite (Hcred icloudTwoAccounts "nobody");
      [reflexivity | done | reflexivity | reflexivity | exact Hno].
Defined.

(** C4 — Account resolution misses an alias that is spelled like a member
    of [Object.prototype].  The test [this.registry[emailOrAlias]] that is
    meant to tell whether the identifier is a registered email is also true
    of "constructor", "toString" and the like, which every plain object
    inherits.  A Gmail account is given the alias "constructor": the
    registry has no key "constructor", the entry of "a@gmail.com" has that
    alias, and yet the identifier resolves to itself.  An iCloud account is
    registered under the alias "toString": the identifier resolves to
    itself, and [getCredentials] then throws "Credentials file not found"
    where the credentials of the account were asked for. *)
Theorem resolution_misses_alias_named_like_object_member :
  (gmailAliasConstructor.1 = Ok tt /\
   (exists i, Obj.get (registry gmailAliasConstructor.2) "a@gmail.com" = Some i /\
              alias i = Some "constructor") /\
   Obj.get (registry gmailAliasConstructor.2) "constructor" = None /\
   resolveEmailFromAlias "constructor" gmailAliasConstructor.2 =
     (Ok "constructor", gmailAliasConstructor.2)) /\
  (icloudAliasToString.1 = Ok tt /\
   (exists i, Obj.get (registry icloudAliasToString.2) "a@icloud.com" = Some i /\
              alias i = Some "toString") /\
   Obj.get (registry icloudAliasToString.2) "toString" = None /\
   resolveEmailFromAlias "toString" icloudAliasToString.2 =
     (Ok "toString", icloudAliasToString.2) /\
   (ICloud.getCredentials (Some "toString") icloudAliasToString.2).1 =
     Throw (CredentialsFileNotFound "toString")).
Proof.
  split.
  - split; [reflexivity|]. split; [eexists; split; reflexivity|]. split; reflexivity.
  - split; [reflexivity|]. split; [eexists; split; reflexivity|].
    split; [reflexivity|]. split; reflexivity.
Qed.

(** ** Activation of the first account *)

Lemma sole_key {V} (o : list (string * V)) k v k' :
  List.length (Obj.set o k v) = 1%nat -> is_Some (Obj.get o k') -> k' = k.
Proof.
  intros Hlen Hk'. destruct (decide (k' = k)) as [|Hne]; [done|].
  pose proof (set_singleton o k v Hlen) as Hset.
  assert (Obj.get (Obj.set o k v) k' = Obj.get o k') as Hget by (apply get_set_ne; congruence).
  rewrite Hset in Hget. simpl in Hget. rewrite decide_False in Hget by congruence.
  rewrite <- Hget in Hk'. by destruct Hk'.
Qed.

(** C5 — Auto-activation.  On a manager without accounts, [addAccount]
    succeeds and leaves the address of the new account in the
    active-account file.  When an account [A] is registered and the
    active-account file holds [A], it still holds [A] after any
    [addAccount].  Both hold for the Gmail and for the iCloud manager. *)
Theorem auto_activation :
  (forall (Cred : Type) (s : State (list string) Cred (gset string)) addr c a sc,
      registry s = [] ->
      exists s', Gmail.addAccount addr c a sc s = (Ok tt, s') /\ activeFile s' = Some addr) /\
  (forall (s : State unit ICloud.AccountCredentials unit) cred a,
      registry s = [] ->
      exists s', ICloud.addAccount cred a s = (Ok tt, s') /\
                 activeFile s' = Some (ICloud.credEmail cred)) /\
  (forall (Cred : Type) (s : State (list string) Cred (gset string)) A B c a sc,
      is_Some (Obj.get (registry s) A) -> activeFile s = Some A ->
      activeFile (Gmail.addAccount B c a sc s).2 = Some A) /\
  (forall (s : State unit ICloud.AccountCredentials unit) A cred a,
      is_Some (Obj.get (registry s) A) -> activeFile s = Some A ->
      activeFile (ICloud.addAccount cred a s).2 = Some A).
Proof.
  repeat split.
  - intros Cred s addr c a sc Hempty. rewrite gmail_addAccount_eq. cbv zeta.
    rewrite bool_decide_eq_true_2 by (simpl; by rewrite Hempty).
    rewrite setActiveAccount_known by apply gmail_added_known. eauto.
  - intros s cred a Hempty. rewrite icloud_addAccount_eq.
    unfold icloudAddCollision. rewrite Hempty. simpl.
    replace (if JS.truthy a then None else None) with (@None Error) by by destruct (JS.truthy a).
    rewrite bool_decide_eq_true_2 by (simpl; by rewrite Hempty).
    rewrite setActiveAccount_known by apply icloud_added_known. eauto.
  - intros Cred s A B c a sc HA Hact. rewrite gmail_addAccount_eq. cbv zeta.
    case_bool_decide as Hlen; [|done].
    rewrite setActiveAccount_known by apply gmail_added_known. simpl.
    f_equal. symmetry. eapply sole_key; [exact Hlen | exact HA].
  - intros s A cred a HA Hact. rewrite icloud_addAccount_eq.
    destruct (icloudAddCollision _ _ _); [done|]. cbv zeta.
    case_bool_decide as Hlen; [|done].
    rewrite setActiveAccount_known by apply icloud_added_known. simpl.
    f_equal. symmetry. eapply sole_key; [exact Hlen | exact HA].
Qed.

Lemma auto_activation_witness :
  (exists s', ICloud.addAccount (ICloud.mkCredentials "a@icloud.com" "aaaa-bbbb-cccc-dddd")
                (Some "home") (freshState tt) = (Ok tt, s') /\
              activeFile s' = Some "a@icloud.com") /\
  (exists s', Gmail.addAccount "a@gmail.com" tt None None (freshState ∅) = (Ok tt, s') /\
              activeFile s' = Some "a@gmail.com") /\
  activeFile (ICloud.addAccount (ICloud.mkCredentials "c@icloud.com" "x") None
                icloudTwoAccounts).2 = Some "a@icloud.com" /\
  activeFile (Gmail.addAccount "c@gmail.com" tt None None gmailTwoAccounts).2
    = Some "a@gmail.com".
Proof.
  destruct auto_activation as (Hg1 & Hi1 & Hg2 & Hi2).
  split; [apply (Hi1 (freshState tt)); reflexivity|].
  split; [apply (Hg1 unit (freshState ∅)); reflexivity|].
  split.
  - apply (Hi2 icloudTwoAccounts "a@icloud.com"); [vm_compute; eauto | reflexivity].
  - apply (Hg2 unit gmailTwoAccounts "a@gmail.com"); [vm_compute; eauto | reflexivity].
Defined.

(** ** Alias collisions *)

(** C8 — Collision atomicity.  When [addAccount] or [setAlias] ends with
    an alias-collision error, the manager is in the state it started from:
    registry, registry file, credential files and active-account file are
    untouched.  The Gmail [addAccount] performs no collision test and never
    throws. *)
Theorem collision_leaves_state_untouched :
  (forall (s : State unit ICloud.AccountCredentials unit) cred a e,
      (ICloud.addAccount cred a s).1 = Throw e -> isAliasCollision e = true ->
      (ICloud.addAccount cred a s).2 = s) /\
  (forall (s : State unit ICloud.AccountCredentials unit) id newAlias e,
      (ICloud.setAlias id newAlias s).1 = Throw e -> isAliasCollision e = true ->
      (ICloud.setAlias id newAlias s).2 = s) /\
  (forall (Cred : Type) (s : State (list string) Cred (gset string)) id newAlias e,
      (Gmail.setAlias id newAlias s).1 = Throw e -> isAliasCollision e = true ->
      (Gmail.setAlias id newAlias s).2 = s) /\
  (forall (Cred : Type) (s : State (list string) Cred (gset string)) addr c a sc,
      (Gmail.addAccount addr c a sc s).1 = Ok tt).
Proof.
  repeat split.
  - intros s cred a e. rewrite icloud_addAccount_eq.
    destruct (icloudAddCollision _ _ _); [done|]. cbv zeta.
    case_bool_decide; [|done].
    by rewrite setActiveAccount_known by apply icloud_added_known.
  - intros s id newAlias e. rewrite icloud_setAlias_eq. cbv zeta.
    destruct (Obj.has _ _); [|done].
    by destruct (ICloud.aliasUnavailable _ _ _).
  - intros Cred s id newAlias e. rewrite gmail_setAlias_eq. cbv zeta.
    destruct (Obj.has _ _); [|done].
    by destruct (Gmail.aliasTaken _ _ _).
  - intros Cred s addr c a sc. apply gmail_addAccount_ok.
Qed.

Lemma collision_witness :
  (ICloud.addAccount (ICloud.mkCredentials "c@icloud.com" "x") (Some "home")
     icloudTwoAccounts).2 = icloudTwoAccounts /\
  (ICloud.setAlias "b@icloud.com" "a@icloud.com" icloudTwoAccounts).2 = icloudTwoAccounts /\
  (Gmail.setAlias "b@gmail.com" "work" gmailTwoAccounts).2 = gmailTwoAccounts.
Proof.
  destruct collision_leaves_state_untouched as (Hadd & Hset & Hgset & _).
  split; [|split].
  - apply (Hadd _ _ _ (AliasInUse "home" "a@icloud.com")); reflexivity.
  - apply (Hset _ _ _ (AliasIsEmail "a@icloud.com" "a@icloud.com")); reflexivity.
  - apply (Hgset _ _ _ _ (AliasInUse "work" "a@gmail.com")); reflexivity.
Defined.

(** ** Removing an account *)

(** C10 — [removeAccount] on a registered account whose credential file
    is no longer on the disk succeeds: the entry is deleted from the
    registry, the registry is written to its file, the credential files are
    left as they are, and the active-account file is removed exactly when
    [getActiveAccount] read this account from it.  Both managers. *)
Theorem removeAccount_tolerates_missing_credentials :
  (forall (Cred : Type) (s : State (list string) Cred (gset string)) id info,
      Obj.get (registry s) (resolve (registry s) id) = Some info ->
      credentialFiles s !! credentialsPath info = None ->
      exists s',
        Gmail.removeAccount id s = (Ok tt, s') /\
        registry s' = Obj.delete (registry s) (resolve (registry s) id) /\
        Obj.get (registry s') (resolve (registry s) id) = None /\
        registryFile s' = Some (registry s') /\
        credentialFiles s' = credentialFiles s /\
        activeFile s' =
          if bool_decide (readActive s = Some (resolve (registry s) id))
          then None else activeFile s) /\
  (forall (s : State unit ICloud.AccountCredentials unit) id info,
      Obj.get (registry s) (resolve (registry s) id) = Some info ->
      credentialFiles s !! credentialsPath info = None ->
      exists s',
        ICloud.removeAccount id s = (Ok tt, s') /\
        registry s' = Obj.delete (registry s) (resolve (registry s) id) /\
        Obj.get (registry s') (resolve (registry s) id) = None /\
        registryFile s' = Some (registry s') /\
        credentialFiles s' = credentialFiles s /\
        activeFile s' =
          if bool_decide (readActive s = Some (resolve (registry s) id))
          then None else activeFile s).
Proof.
  split.
  - intros Cred s id info Hget Hfile. rewrite (gmail_removeAccount_own _ _ info Hget).
    cbv zeta. rewrite Hfile. rewrite bool_decide_eq_false_2 by (by intros [? ?]).
    eexists. split; [reflexivity|]. simpl. by rewrite get_delete_eq.
  - intros s id info Hget Hfile. rewrite (icloud_removeAccount_own _ _ info Hget).
    cbv zeta. rewrite Hfile. rewrite bool_decide_eq_false_2 by (by intros [? ?]).
    eexists. split; [reflexivity|]. simpl. by rewrite get_delete_eq.
Qed.

Lemma removeAccount_witness :
  (exists s', ICloud.removeAccount "home" icloudCredentialsLost = (Ok tt, s') /\
              Obj.keys (registry s') = ["b@icloud.com"] /\ activeFile s' = None) /\
  (exists s', Gmail.removeAccount "work" gmailCredentialsLost = (Ok tt, s') /\
              Obj.keys (registry s') = ["b@gmail.com"] /\ activeFile s' = None).
Proof.
  destruct removeAccount_tolerates_missing_credentials as [Hg Hi].
  split.
  - destruct (Hi icloudCredentialsLost "home"
                (mkAccountInfo "a@icloud.com" (Some "home")
                   "~/.icloud-mcp/accounts/a@icloud.com.json" 0 tt))
      as (s' & Hrun & Hreg & _ & _ & _ & Hact); [reflexivity | reflexivity |].
    exists s'. split; [exact Hrun|]. rewrite Hreg, Hact. split; reflexivity.
  - destruct (Hg unit gmailCredentialsLost "work"
                (mkAccountInfo "a@gmail.com" (Some "work")
                   "~/.gmail-mcp/accounts/a@gmail.com.json" 0 Gmail.defaultScopes))
      as (s' & Hrun & Hreg & _ & _ & _ & Hact); [reflexivity | reflexivity |].
    exists s'. split; [exact Hrun|]. rewrite Hreg, Hact. split; reflexivity.
Defined.

(** ** Alias uniqueness *)

Section UniqueAliases.
Context {S : Type}.
Implicit Types (r : list (string * AccountInfo S)) (k : string) (v : AccountInfo S).

Lemma NoDup_keys_set r k v : NoDup (Obj.keys r) -> NoDup (Obj.keys (Obj.set r k v)).
Proof.
  intros Hnd. destruct (Obj.get r k) as [v0|] eqn:Hk.
  - by rewrite keys_set_known by eauto.
  - rewrite keys_set_fresh by done. apply NoDup_app. split; [done|].
    split; [|apply NoDup_singleton].
    intros x Hx Hxk. apply list_elem_of_singleton in Hxk as ->.
    by apply get_None_keys in Hk.
Qed.

Lemma elem_of_set r k v k' v' :
  NoDup (Obj.keys r) -> (k', v') ∈ Obj.set r k v ->
  (k' = k /\ v' = v) \/ (k' <> k /\ (k', v') ∈ r).
Proof.
  unfold Obj.keys. induction r as [|[k0 v0] r IH]; csimpl; intros Hnd Hin.
  - apply list_elem_of_singleton in Hin as [= -> ->]. by left.
  - apply NoDup_cons in Hnd as [Hk0 Hnd].
    destruct (decide (k0 = k)) as [->|Hne].
    + apply elem_of_cons in Hin as [[= -> ->]|Hin]; [by left|].
      right. split; [|by right]. intros ->. apply Hk0.
      by apply (list_elem_of_fmap_2 fst) in Hin.
    + apply elem_of_cons in Hin as [[= -> ->]|Hin].
      * right. split; [done | left].
      * destruct (IH Hnd Hin) as [?|[? ?]]; [by left|]. right. split; [done | by right].
Qed.

(** Writing an entry whose alias no other entry has keeps the aliases
    unique. *)
Lemma set_aliasesUnique r k v :
  NoDup (Obj.keys r) -> aliasesUnique r ->
  (forall a k' v', alias v = Some a -> a <> "" -> (k', v') ∈ r -> k' <> k ->
                   alias v' <> Some a) ->
  aliasesUnique (Obj.set r k v).
Proof.
  intros Hnd Huniq Hfresh k1 i1 k2 i2 a H1 H2 Ha1 Ha2 Hne.
  destruct (elem_of_set _ _ _ _ _ Hnd H1) as [[-> ->]|[Hk1 H1']];
    destruct (elem_of_set _ _ _ _ _ Hnd H2) as [[-> ->]|[Hk2 H2']]; try done.
  - exfalso. by apply (Hfresh a k2 i2).
  - exfalso. by apply (Hfresh a k1 i1).
  - by apply (Huniq k1 i1 k2 i2 a).
Qed.

Lemma touch_invariant r k d :
  NoDup (Obj.keys r) -> aliasesUnique r ->
  NoDup (Obj.keys (touch k d r)) /\ aliasesUnique (touch k d r).
Proof.
  intros Hnd Huniq. unfold touch. destruct (Obj.get r k) as [i|] eqn:Hk; [|done].
  split; [by apply NoDup_keys_set|]. apply set_aliasesUnique; [done..|].
  simpl. intros a k' v' Ha Hne Hin Hk' Hv'. apply Hk'.
  apply get_Some_elem in Hk. by eapply Huniq.
Qed.
End UniqueAliases.

Lemma aliasUnavailable_None (r : list (string * AccountInfo unit)) a owner :
  ICloud.aliasUnavailable r a owner = None ->
  forall k i, (k, i) ∈ r -> k <> owner -> alias i <> Some a /\ a <> k.
Proof.
  induction r as [|[k0 i0] r IH]; simpl; intros Hnone k i Hin Hk.
  - by apply elem_of_nil in Hin.
  - destruct (bool_decide (a = k0) && negb (bool_decide (k0 = owner))) eqn:H1; [done|].
    destruct (bool_decide (alias i0 = Some a) && negb (bool_decide (k0 = owner))) eqn:H2;
      [done|].
    apply elem_of_cons in Hin as [[= -> ->]|Hin]; [|by apply IH].
    rewrite (bool_decide_eq_false_2 (k0 = owner)) in H1, H2 by done.
    rewrite andb_true_r in H1, H2.
    apply bool_decide_eq_false in H1, H2. done.
Qed.

(** What does hold of the iCloud manager: after any sequence of
    [addAccount] and [setAlias] calls on a fresh manager, no two entries
    share a non-empty alias. *)
Lemma icloud_call_invariant (c : Call) (s : State unit ICloud.AccountCredentials unit) :
  NoDup (Obj.keys (registry s)) -> aliasesUnique (registry s) ->
  NoDup (Obj.keys (registry (runCall c s))) /\ aliasesUnique (registry (runCall c s)).
Proof.
  intros Hnd Huniq. destruct c as [cred a|id newAlias]; simpl.
  - rewrite icloud_addAccount_eq. unfold icloudAddCollision.
    destruct (if JS.truthy a then _ else None) as [err|] eqn:Hcheck; [done|].
    assert (NoDup (Obj.keys (registry (icloudAdded cred a s))) /\
            aliasesUnique (registry (icloudAdded cred a s))) as [Hnd1 Huniq1].
    { simpl. split; [by apply NoDup_keys_set|]. apply set_aliasesUnique; [done..|].
      simpl. intros a' k' v' -> Hne Hin Hk'.
      destruct a' as [|c a']; [done|]. simpl in Hcheck.
      by apply (aliasUnavailable_None _ _ _ Hcheck k' v'). }
    cbv zeta. case_bool_decide; [|done].
    rewrite setActiveAccount_known by apply icloud_added_known.
    by apply touch_invariant.
  - rewrite icloud_setAlias_eq. cbv zeta. destruct (Obj.has _ _); [|done].
    destruct (ICloud.aliasUnavailable _ _ _) eqn:Hcheck; [done|]. simpl.
    unfold assignAlias. destruct (Obj.get _ _) as [i|]; [|done].
    split; [by apply NoDup_keys_set|]. apply set_aliasesUnique; [done..|].
    simpl. intros a' k' v' [= <-] Hne Hin Hk'.
    by apply (aliasUnavailable_None _ _ _ Hcheck k' v').
Qed.

Lemma icloud_aliases_stay_unique (cs : list Call) :
  aliasesUnique (registry (runCalls cs (freshState tt))).
Proof.
  assert (forall s, NoDup (Obj.keys (registry s)) -> aliasesUnique (registry s) ->
                    aliasesUnique (registry (runCalls cs s))) as H.
  { induction cs as [|c cs IH]; intros s Hnd Huniq; [done|].
    simpl. destruct (icloud_call_invariant c s Hnd Huniq). by apply IH. }
  apply H; [constructor|]. intros k1 i1 k2 i2 a Hin. by apply elem_of_nil in Hin.
Qed.


(** C1 — Alias uniqueness is broken by the code.  The Gmail [addAccount]
    registers a second account under an alias that is already taken, and
    its [setAlias] accepts the email of another account as alias; the
    iCloud [addAccount] registers an account whose email is already the
    alias of another one.  All calls succeed. *)
Theorem alias_uniqueness_violated :
  (gmailSameAliasTwice.1 = Ok tt /\ ~ aliasesUnique (registry gmailSameAliasTwice.2)) /\
  (gmailAliasIsOtherEmail.1 = Ok tt /\
   ~ aliasNeverOtherEmail (registry gmailAliasIsOtherEmail.2)) /\
  (icloudAliasThenEmail.1 = Ok tt /\
   ~ aliasNeverOtherEmail (registry icloudAliasThenEmail.2)).
Proof.
  split; [|split]; (split; [reflexivity|]).
  - intros H.
    specialize (H "a@gmail.com"
                  (mkAccountInfo "a@gmail.com" (Some "work")
                     "~/.gmail-mcp/accounts/a@gmail.com.json" 0 Gmail.defaultScopes)
                  "b@gmail.com"
                  (mkAccountInfo "b@gmail.com" (Some "work")
                     "~/.gmail-mcp/accounts/b@gmail.com.json" 0 Gmail.defaultScopes)
                  "work").
    discriminate H; [vm_compute; left | vm_compute; right; left | done..].
  - intros H.
    specialize (H "a@gmail.com"
                  (mkAccountInfo "a@gmail.com" (Some "b@gmail.com")
                     "~/.gmail-mcp/accounts/a@gmail.com.json" 0 Gmail.defaultScopes)
                  "b@gmail.com"
                  (mkAccountInfo "b@gmail.com" None
                     "~/.gmail-mcp/accounts/b@gmail.com.json" 0 Gmail.defaultScopes)).
    discriminate H; [vm_compute; left | vm_compute; right; left | done].
  - intros H.
    specialize (H "a@icloud.com"
                  (mkAccountInfo "a@icloud.com" (Some "b@icloud.com")
                     "~/.icloud-mcp/accounts/a@icloud.com.json" 0 tt)
                  "b@icloud.com"
                  (mkAccountInfo "b@icloud.com" None
                     "~/.icloud-mcp/accounts/b@icloud.com.json" 0 tt)).
    discriminate H; [vm_compute; left | vm_compute; right; left | done].
Qed.

(** ** Batch processing *)

Section SliceFacts.
Context {A : Type}.

Lemma slice_chunk (l : list A) (k n : nat) :
  (k < List.length l)%nat -> (0 < n)%nat ->
  JS.slice l (Z.of_nat k) (Z.of_nat k + Z.of_nat n) = take n (drop k l).
Proof.
  intros Hk Hn. unfold JS.slice, JS.relativeIndex.
  destruct (Z.ltb_spec (Z.of_nat k) 0); [lia|].
  destruct (Z.ltb_spec (Z.of_nat k + Z.of_nat n) 0); [lia|].
  rewrite (Z.min_l (Z.of_nat k)) by lia. rewrite Nat2Z.id.
  destruct (decide (k + n <= List.length l)%nat) as [Hle|Hgt].
  - rewrite Z.min_l by lia. f_equal. lia.
  - rewrite Z.min_r by lia.
    rewrite !take_ge; [done | rewrite length_drop; lia | rewrite length_drop; lia].
Qed.

Lemma slice_prefix (l : list A) (n : Z) :
  0 <= n -> JS.slice l 0 n = take (Z.to_nat n) l.
Proof.
  intros Hn. unfold JS.slice, JS.relativeIndex. simpl.
  destruct (Z.ltb_spec n 0); [lia|].
  rewrite (Z.min_l 0) by lia. rewrite Z.sub_0_r. simpl. rewrite drop_0.
  destruct (decide (n <= Z.of_nat (List.length l))).
  - by rewrite Z.min_l by lia.
  - rewrite Z.min_r by lia. rewrite Nat2Z.id. rewrite !take_ge; [done | lia | lia].
Qed.
End SliceFacts.

Section ChunkFacts.
Context {T : Type}.
Implicit Types (l : list T) (n : nat).

Lemma chunksOf_fuel fuel1 fuel2 n l :
  (0 < n)%nat -> (List.length l <= fuel1)%nat -> (List.length l <= fuel2)%nat ->
  Batch.chunksOf fuel1 n l = Batch.chunksOf fuel2 n l.
Proof.
  intros Hn. revert fuel2 l. induction fuel1 as [|fuel1 IH]; intros fuel2 l H1 H2.
  - destruct l; [by destruct fuel2 | simpl in H1; lia].
  - destruct l as [|x l]; [by destruct fuel2|].
    destruct fuel2 as [|fuel2]; [simpl in H2; lia|].
    cbn [Batch.chunksOf]. f_equal.
    apply IH; rewrite length_drop; simpl in *; lia.
Qed.

Lemma chunksOf_enough fuel n l :
  (0 < n)%nat -> (List.length l <= fuel)%nat ->
  Batch.chunksOf fuel n l = Batch.chunksOf (List.length l) n l.
Proof. intros Hn Hlen. by apply chunksOf_fuel. Qed.

Lemma chunks_cons n l :
  (0 < n)%nat -> l <> [] -> Batch.chunks n l = take n l :: Batch.chunks n (drop n l).
Proof.
  intros Hn Hl. unfold Batch.chunks. destruct l as [|x l]; [done|].
  change (List.length (x :: l)) with (Datatypes.S (List.length l)).
  cbn [Batch.chunksOf]. f_equal. apply chunksOf_enough; [done|].
  rewrite length_drop. simpl. lia.
Qed.

Lemma chunks_nil n : Batch.chunks n (@nil T) = [].
Proof. reflexivity. Qed.

(** The chunks are consecutive pieces of the input... *)
Lemma chunks_concat n l : (0 < n)%nat -> List.concat (Batch.chunks n l) = l.
Proof.
  intros Hn. remember (List.length l) as len eqn:Hlen.
  revert l Hlen. induction (lt_wf len) as [len _ IH]. intros l ->.
  destruct l as [|x l]; [done|].
  rewrite chunks_cons by done. simpl List.concat.
  rewrite (IH (List.length (drop n (x :: l)))); [apply take_drop | | done].
  rewrite length_drop. simpl. lia.
Qed.

(** ... each with at least one and at most [n] items. *)
Lemma chunks_bounded n l :
  (0 < n)%nat ->
  Forall (fun c => (0 < List.length c <= n)%nat) (Batch.chunks n l).
Proof.
  intros Hn. remember (List.length l) as len eqn:Hlen.
  revert l Hlen. induction (lt_wf len) as [len _ IH]. intros l ->.
  destruct l as [|x l]; [constructor|].
  rewrite chunks_cons by done. constructor.
  - rewrite length_take. simpl. lia.
  - apply (IH (List.length (drop n (x :: l)))); [|done].
    rewrite length_drop. simpl. lia.
Qed.
End ChunkFacts.

Section NumberFacts.

Lemma inject_Z_plus (x y : Z) : (inject_Z x + inject_Z y)%Q = inject_Z (x + y).
Proof. unfold Qplus, inject_Z. simpl. f_equal. lia. Qed.

Lemma toInteger_inject (z : Z) : JS.toInteger (inject_Z z) = z.
Proof. unfold JS.toInteger, inject_Z. simpl. apply Z.quot_1_r. Qed.

Lemma ltNumber_inject (x y : Z) : JS.ltNumber (inject_Z x) (inject_Z y) = (x <? y).
Proof.
  unfold JS.ltNumber, Qle_bool, inject_Z. simpl. rewrite !Z.mul_1_r.
  destruct (Z.ltb_spec x y), (Z.leb_spec y x); (done || lia).
Qed.

Lemma sliceNumber_inject {A} (l : list A) (i j : Z) :
  JS.sliceNumber l (inject_Z i) (inject_Z j) = JS.slice l i j.
Proof. unfold JS.sliceNumber. by rewrite !toInteger_inject. Qed.

Lemma ltNumber_nonpositive (i : Q) (n : nat) :
  (i <= 0)%Q -> (0 < n)%nat -> JS.ltNumber i (inject_Z (Z.of_nat n)) = true.
Proof.
  intros Hi Hn. unfold JS.ltNumber.
  destruct (Qle_bool (inject_Z (Z.of_nat n)) i) eqn:Hle; [|done].
  apply Qle_bool_iff in Hle. pose proof (Qle_trans _ _ _ Hle Hi) as H0.
  unfold Qle, inject_Z in H0. simpl in H0. lia.
Qed.

Lemma Qplus_nonpositive (i b : Q) : (i <= 0)%Q -> (b < 0)%Q -> (i + b <= 0)%Q.
Proof.
  intros Hi Hb. apply Qlt_le_weak in Hb.
  pose proof (Qplus_le_compat _ _ _ _ Hi Hb) as H. by rewrite Qplus_0_l in H.
Qed.
Lemma toInteger_nonneg (q : Q) : (0 <= q)%Q -> 0 <= JS.toInteger q.
Proof.
  destruct q as [a b]. unfold Qle, JS.toInteger. simpl. intros Ha.
  apply Z.quot_pos; lia.
Qed.

(** Dropping the fraction of a number that is not negative does not
    increase it. *)
Lemma toInteger_le (q : Q) : (0 <= q)%Q -> (inject_Z (JS.toInteger q) <= q)%Q.
Proof.
  destruct q as [a b]. unfold Qle, JS.toInteger, inject_Z. simpl. intros Ha.
  rewrite Z.quot_div_nonneg by lia.
  pose proof (Z.mul_div_le a (Z.pos b)). lia.
Qed.
End NumberFacts.

Section LoopFacts.
Context {St T U : Type} (processFn : list T -> M St (list U)).

(** With a whole number of items as its step, the loop of [processBatches]
    walks through the chunks of the input. *)
Lemma batchLoop_chunks (fuel : nat) (items : list T) (n k : nat)
    (acc : Batch.BatchResult T U) (h : St) :
  (0 < n)%nat -> (List.length items - k < fuel)%nat ->
  Batch.batchLoop processFn fuel items (inject_Z (Z.of_nat n)) (inject_Z (Z.of_nat k)) acc h =
    bind (Batch.processChunks processFn (Batch.chunks n (drop k items)) acc)
         (fun r => ret (Some r)) h.
Proof.
  intros Hn. revert k acc h. induction fuel as [|fuel IH]; intros k acc h Hfuel; [lia|].
  cbn [Batch.batchLoop]. rewrite ltNumber_inject, inject_Z_plus, sliceNumber_inject.
  destruct (Z.ltb_spec (Z.of_nat k) (Z.of_nat (List.length items))) as [Hlt|Hge].
  - rewrite slice_chunk by lia.
    rewrite chunks_cons; [|done|].
    2:{ intros Hnil. apply (f_equal List.length) in Hnil.
        rewrite length_drop in Hnil. simpl in Hnil. lia. }
    cbn [Batch.processChunks]. unfold bind.
    destruct (Batch.processBatch processFn _ acc h) as [[acc'|e] h1]; [|done].
    rewrite drop_drop. rewrite <- Nat2Z.inj_add.
    rewrite IH by lia. reflexivity.
  - rewrite drop_ge by lia. reflexivity.
Qed.
End LoopFacts.

Lemma omap_imap_ext {A B C} (g g' : B -> option C) (f f' : nat -> A -> B) (l : list A) :
  (forall i x, l !! i = Some x -> g (f i x) = g' (f' i x)) ->
  omap g (imap f l) = omap g' (imap f' l).
Proof.
  revert f f'. induction l as [|x l IH]; intros f f' H; [done|].
  simpl. rewrite (H 0%nat x eq_refl).
  assert (omap g (imap (f ∘ Datatypes.S) l) = omap g' (imap (f' ∘ Datatypes.S) l)) as IH'.
  { apply IH. intros i y Hi. apply (H (Datatypes.S i) y Hi). }
  destruct (g' (f' 0%nat x)); [f_equal|]; exact IH'.
Qed.

Section BatchFacts.
Variable respond : list Batch.Request -> Batch.Request -> option Error.
Variable req : string -> Batch.Request.

#[local] Abbreviation processFn := (Batch.promiseAllMap (itemCall respond req)).
#[local] Abbreviation reported := (fun id : string => (id, true)).

Lemma promiseAll_history batch h : (processFn batch h).2 = h ++ (req <$> batch).
Proof.
  revert h. induction batch as [|x batch IH]; intros h; simpl.
  - by rewrite app_nil_r.
  - unfold itemCall at 1, Batch.call, bind, ret.
    destruct (respond h (req x)); simpl.
    + rewrite IH. by rewrite <- app_assoc.
    + specialize (IH (h ++ [req x])).
      destruct (processFn batch (h ++ [req x])) as [[ys|e] h']; simpl in *;
        subst h'; by rewrite <- app_assoc.
Qed.

Lemma promiseAll_ok batch h ys : (processFn batch h).1 = Ok ys -> ys = reported <$> batch.
Proof.
  revert h ys. induction batch as [|x batch IH]; intros h ys; simpl.
  - by intros [= <-].
  - unfold itemCall at 1, Batch.call, bind, ret.
    destruct (respond h (req x)); simpl; [done|].
    specialize (IH (h ++ [req x])).
    destruct (processFn batch (h ++ [req x])) as [[zs|e] h']; simpl in *; [|done].
    intros [= <-]. f_equal. by apply IH.
Qed.

Lemma promiseAll_single item h :
  processFn [item] h =
    (match respond h (req item) with Some e => Throw e | None => Ok [reported item] end,
     h ++ [req item]).
Proof.
  simpl. unfold itemCall, Batch.call, bind, ret. by destruct (respond h (req item)).
Qed.

Lemma chunkAccepted_cons h x l :
  chunkAccepted respond req h (x :: l) <->
  respond h (req x) = None /\ chunkAccepted respond req (h ++ [req x]) l.
Proof.
  unfold chunkAccepted. split.
  - intros H. split.
    + specialize (H 0%nat x eq_refl). simpl in H. by rewrite app_nil_r in H.
    + intros j id Hj. specialize (H (Datatypes.S j) id Hj).
      simpl in H. by rewrite <- app_assoc.
  - intros [H0 H] [|j] id Hj.
    + injection Hj as <-. simpl. by rewrite app_nil_r.
    + specialize (H j id Hj). simpl. by rewrite <- app_assoc in H.
Qed.

(** The attempt on the whole chunk succeeds exactly when the endpoint
    accepts the whole chunk. *)
Lemma promiseAll_accepted batch h :
  chunkAccepted respond req h batch -> (processFn batch h).1 = Ok (reported <$> batch).
Proof.
  revert h. induction batch as [|x batch IH]; intros h H; [done|].
  apply chunkAccepted_cons in H as [H0 H]. simpl.
  unfold itemCall at 1, Batch.call, bind, ret. rewrite H0.
  specialize (IH _ H).
  destruct (processFn batch (h ++ [req x])) as [[zs|e] h']; simpl in *; [|done].
  by injection IH as ->.
Qed.

Lemma promiseAll_ok_accepted batch h ys :
  (processFn batch h).1 = Ok ys -> chunkAccepted respond req h batch.
Proof.
  revert h ys. induction batch as [|x batch IH]; intros h ys.
  - intros _ j id Hj. done.
  - simpl. unfold itemCall at 1, Batch.call, bind, ret.
    destruct (respond h (req x)) eqn:H0; simpl; [done|].
    specialize (IH (h ++ [req x])).
    destruct (processFn batch (h ++ [req x])) as [[zs|e] h']; simpl in *; [|done].
    intros _. apply chunkAccepted_cons. split; [done|]. by apply (IH zs).
Qed.

Lemma retrySuccesses_cons h x l :
  retrySuccesses respond req h (x :: l) =
    (if respond h (req x) is None then [reported x] else []) ++
    retrySuccesses respond req (h ++ [req x]) l.
Proof.
  unfold retrySuccesses. simpl.
  unfold retryAnswer at 1. simpl. rewrite app_nil_r.
  rewrite (omap_imap_ext _
             (fun p => match retryAnswer respond req (h ++ [req x]) l p with
                       | None => Some (p.2, true)
                       | Some _ => None
                       end) _ pair).
  - by destruct (respond h (req x)).
  - intros i y _. unfold retryAnswer. simpl. by rewrite <- app_assoc.
Qed.

Lemma retryFailures_cons h x l :
  retryFailures respond req h (x :: l) =
    (if respond h (req x) is Some e then [(x, e)] else []) ++
    retryFailures respond req (h ++ [req x]) l.
Proof.
  unfold retryFailures. simpl.
  unfold retryAnswer at 1. simpl. rewrite app_nil_r.
  rewrite (omap_imap_ext _
             (fun p => match retryAnswer respond req (h ++ [req x]) l p with
                       | Some e => Some (p.2, e)
                       | None => None
                       end) _ pair).
  - by destruct (respond h (req x)).
  - intros i y _. unfold retryAnswer. simpl. by rewrite <- app_assoc.
Qed.

(** The individual retries: one request per item, an accepted item filed
    under the successes, a rejected one under the failures with its error,
    no exception. *)
Lemma retryItems_exact batch acc h :
  Batch.retryItems processFn batch acc h =
    (Ok (Batch.mkBatchResult
           (Batch.successes acc ++ retrySuccesses respond req h batch)
           (Batch.failures acc ++ retryFailures respond req h batch)),
     h ++ (req <$> batch)).
Proof.
  revert acc h. induction batch as [|item batch IH]; intros acc h.
  - simpl. unfold retrySuccesses, retryFailures. simpl. rewrite !app_nil_r. by destruct acc.
  - cbn [Batch.retryItems]. unfold bind at 1, tryCatch, bind at 1, ret.
    rewrite promiseAll_single, retrySuccesses_cons, retryFailures_cons.
    destruct (respond h (req item)) as [e|]; rewrite IH; simpl;
      rewrite <- !app_assoc; simpl; by rewrite ?app_nil_r.
Qed.

Lemma retry_covers batch h :
  (retrySuccesses respond req h batch).*1 ++ (retryFailures respond req h batch).*1 ≡ₚ batch.
Proof.
  revert h. induction batch as [|x batch IH]; intros h; [done|].
  rewrite retrySuccesses_cons, retryFailures_cons.
  destruct (respond h (req x)) as [e|]; simpl.
  - rewrite <- Permutation_middle. apply Permutation_skip, IH.
  - apply Permutation_skip, IH.
Qed.

Lemma retrySuccesses_elem batch h id :
  id ∈ batch -> (forall h', respond h' (req id) = None) ->
  (id, true) ∈ retrySuccesses respond req h batch.
Proof.
  intros Hin Hacc. apply list_elem_of_lookup_1 in Hin as [j Hj].
  unfold retrySuccesses. apply list_elem_of_omap. exists (j, id). split.
  - apply elem_of_lookup_imap. by exists j, id.
  - unfold retryAnswer. simpl. by rewrite Hacc.
Qed.

Lemma retryFailures_elem batch h id e :
  (id, e) ∈ retryFailures respond req h batch ->
  id ∈ batch /\ exists h', respond h' (req id) = Some e.
Proof.
  unfold retryFailures. intros Hin.
  apply list_elem_of_omap in Hin as ([j x] & Hin & Hp).
  apply elem_of_lookup_imap in Hin as (j' & x' & [= -> ->] & Hj).
  unfold retryAnswer in Hp. simpl in Hp.
  destruct (respond _ (req x')) as [e'|] eqn:Hr; [|done].
  injection Hp as -> ->. split; [by eapply list_elem_of_lookup_2 | by eexists].
Qed.

(** One chunk: the whole chunk is sent first; when the endpoint accepts
    all of it, its items are the new successes... *)
Lemma processBatch_accepted batch acc h :
  chunkAccepted respond req h batch ->
  Batch.processBatch processFn batch acc h =
    (Ok (Batch.pushSuccesses acc (reported <$> batch)), h ++ (req <$> batch)).
Proof.
  intros Hacc. unfold Batch.processBatch, tryCatch, bind, ret.
  pose proof (promiseAll_history batch h) as Hh.
  pose proof (promiseAll_accepted batch h Hacc) as Hok.
  destruct (processFn batch h) as [[ys|e] h1]; simpl in *; [|done].
  injection Hok as ->. by subst h1.
Qed.

(** ... and otherwise every item of the chunk is sent again on its own. *)
Lemma processBatch_rejected batch acc h :
  ~ chunkAccepted respond req h batch ->
  Batch.processBatch processFn batch acc h =
    (Ok (Batch.mkBatchResult
           (Batch.successes acc ++ retrySuccesses respond req (h ++ (req <$> batch)) batch)
           (Batch.failures acc ++ retryFailures respond req (h ++ (req <$> batch)) batch)),
     (h ++ (req <$> batch)) ++ (req <$> batch)).
Proof.
  intros Hrej. unfold Batch.processBatch, tryCatch, bind, ret.
  pose proof (promiseAll_history batch h) as Hh.
  pose proof (promiseAll_ok_accepted batch h) as Hok.
  destruct (processFn batch h) as [[ys|e] h1]; simpl in *.
  - destruct Hrej. by apply (Hok ys).
  - subst h1. apply retryItems_exact.
Qed.

(** What one chunk adds to the result, whatever the endpoint answers. *)
Lemma processBatch_split batch acc h :
  exists ss fs extra,
    Batch.processBatch processFn batch acc h =
      (Ok (Batch.mkBatchResult (Batch.successes acc ++ ss) (Batch.failures acc ++ fs)),
       h ++ extra) /\
    ss.*1 ++ fs.*1 ≡ₚ batch /\
    (forall id, id ∈ batch -> req id ∈ extra) /\
    (forall id, id ∈ batch -> (forall h', respond h' (req id) = None) -> (id, true) ∈ ss) /\
    (forall id e, (id, e) ∈ fs -> id ∈ batch /\ exists h', respond h' (req id) = Some e).
Proof.
  destruct ((processFn batch h).1) as [ys|e] eqn:Hrun.
  - pose proof (promiseAll_ok_accepted batch h ys Hrun) as Hacc.
    exists (reported <$> batch), [], (req <$> batch).
    rewrite (processBatch_accepted batch acc h Hacc).
    unfold Batch.pushSuccesses. rewrite !app_nil_r.
    split; [done|]. split.
    { rewrite <- list_fmap_compose. by rewrite list_fmap_id. }
    split; [intros id Hin; by apply list_elem_of_fmap_2|].
    split; [intros id Hin _; by apply (list_elem_of_fmap_2 reported)|].
    intros id e Hin. by apply elem_of_nil in Hin.
  - assert (~ chunkAccepted respond req h batch) as Hrej.
    { intros Hacc. apply promiseAll_accepted in Hacc. congruence. }
    eexists _, _, ((req <$> batch) ++ (req <$> batch)).
    rewrite (processBatch_rejected batch acc h Hrej), <- app_assoc.
    split; [done|]. split; [apply retry_covers|].
    split; [intros id Hin; apply elem_of_app; left; by apply list_elem_of_fmap_2|].
    split; [intros id Hin Hacc; by apply retrySuccesses_elem|].
    intros id e'. apply retryFailures_elem.
Qed.

Lemma processChunks_split cs acc h :
  exists ss fs extra,
    Batch.processChunks processFn cs acc h =
      (Ok (Batch.mkBatchResult (Batch.successes acc ++ ss) (Batch.failures acc ++ fs)),
       h ++ extra) /\
    ss.*1 ++ fs.*1 ≡ₚ List.concat cs /\
    (forall id, id ∈ List.concat cs -> req id ∈ extra) /\
    (forall id, id ∈ List.concat cs -> (forall h', respond h' (req id) = None) ->
                (id, true) ∈ ss) /\
    (forall id e, (id, e) ∈ fs ->
                  id ∈ List.concat cs /\ exists h', respond h' (req id) = Some e).
Proof.
  revert acc h. induction cs as [|c cs IH]; intros acc h.
  - exists [], [], []. simpl. rewrite !app_nil_r. destruct acc. simpl.
    split; [done|]. split; [done|].
    split; [intros id Hin; by apply elem_of_nil in Hin|].
    split; [intros id Hin; by apply elem_of_nil in Hin|].
    intros id e Hin. by apply elem_of_nil in Hin.
  - cbn [Batch.processChunks]. unfold bind at 1.
    destruct (processBatch_split c acc h) as (ss1 & fs1 & x1 & Hrun & Hcov & Hreq & Hok & Hfail).
    rewrite Hrun.
    destruct (IH (Batch.mkBatchResult (Batch.successes acc ++ ss1) (Batch.failures acc ++ fs1))
                 (h ++ x1))
      as (ss2 & fs2 & x2 & Hrun' & Hcov' & Hreq' & Hok' & Hfail').
    exists (ss1 ++ ss2), (fs1 ++ fs2), (x1 ++ x2).
    rewrite Hrun'. simpl. rewrite !app_assoc.
    split; [done|]. split.
    { rewrite !fmap_app, <- Hcov, <- Hcov'.
      rewrite <- !app_assoc. apply Permutation_app_head.
      rewrite !app_assoc. apply Permutation_app_tail, Permutation_app_comm. }
    split.
    { intros id Hin. apply elem_of_app in Hin as [Hin|Hin]; apply elem_of_app; auto. }
    split.
    { intros id Hin Hacc. apply elem_of_app in Hin as [Hin|Hin]; apply elem_of_app; auto. }
    intros id e Hin. apply elem_of_app in Hin as [Hin|Hin].
    + destruct (Hfail id e Hin) as [Hc Hr]. split; [apply elem_of_app; auto | done].
    + destruct (Hfail' id e Hin) as [Hc Hr]. split; [apply elem_of_app; auto | done].
Qed.
End BatchFacts.

Lemma effectiveBatchSize_pos (batchSize : Z) :
  0 <= batchSize ->
  exists n, (0 < n)%nat /\
            Batch.effectiveBatchSize (inject_Z batchSize) = inject_Z (Z.of_nat n) /\
            n = Z.to_nat (JS.toInteger (Batch.effectiveBatchSize (inject_Z batchSize))).
Proof.
  intros Hb. unfold Batch.effectiveBatchSize.
  replace (Qeq_bool (inject_Z batchSize) 0) with (batchSize =? 0)
    by (unfold Qeq_bool, inject_Z; simpl; by rewrite Z.mul_1_r).
  destruct (Z.eqb_spec batchSize 0).
  - exists 50%nat. split; [lia|]. split; reflexivity.
  - exists (Z.to_nat batchSize). rewrite toInteger_inject, Z2Nat.id by lia.
    split; [lia | done].
Qed.

(** What a batch handler built on [processBatches] does, for the request
    constructor [req] of the handler and a whole number as chunk size. *)
Lemma batch_handler_total respond req (ids : list string) (batchSize : Z)
    (fuel : nat) (h : list Batch.Request) :
  0 <= batchSize -> (List.length ids < fuel)%nat ->
  exists res extra,
    Batch.processBatches (Batch.promiseAllMap (itemCall respond req)) fuel ids
        (Batch.effectiveBatchSize (inject_Z batchSize)) h = (Ok (Some res), h ++ extra) /\
    Batch.processChunks (Batch.promiseAllMap (itemCall respond req))
        (Batch.chunks
           (Z.to_nat (JS.toInteger (Batch.effectiveBatchSize (inject_Z batchSize)))) ids)
        (Batch.mkBatchResult [] []) h = (Ok res, h ++ extra) /\
    (Batch.successCount res + Batch.failureCount res = List.length ids)%nat /\
    covered res ≡ₚ ids /\
    (forall id, id ∈ ids -> req id ∈ extra) /\
    (forall id, id ∈ ids -> (forall h', respond h' (req id) = None) ->
                (id, true) ∈ Batch.successes res /\ id ∉ (Batch.failures res).*1) /\
    (forall id e, (id, e) ∈ Batch.failures res ->
                  id ∈ ids /\ exists h', respond h' (req id) = Some e).
Proof.
  intros Hb Hfuel.
  destruct (effectiveBatchSize_pos batchSize Hb) as (n & Hn & Hsize & Hnat).
  rewrite <- Hnat, Hsize. unfold Batch.processBatches.
  change 0%Q with (inject_Z (Z.of_nat 0)).
  rewrite batchLoop_chunks by lia. rewrite drop_0.
  destruct (processChunks_split respond req (Batch.chunks n ids) (Batch.mkBatchResult [] []) h)
    as (ss & fs & extra & Hrun & Hcov & Hreq & Hok & Hfail).
  rewrite chunks_concat in Hcov, Hreq, Hok, Hfail by done. simpl in Hrun.
  exists (Batch.mkBatchResult ss fs), extra. unfold bind, ret. rewrite Hrun. simpl.
  split; [done|]. split; [done|]. split.
  { apply Permutation_length in Hcov.
    rewrite length_app, !length_fmap in Hcov. exact Hcov. }
  split; [exact Hcov|]. split; [exact Hreq|]. split; [|exact Hfail].
  intros id Hin Hacc. split; [by apply Hok|].
  intros Hf. apply list_elem_of_fmap in Hf as ([id' e] & -> & Hf).
  destruct (Hfail _ _ Hf) as [_ [h' Hr]]. simpl in Hr. by rewrite Hacc in Hr.
Qed.

(** A negative [batchSize] is not a chunk size: the index of the loop then
    never passes the end of a non-empty input, and the loop is still running
    after any number of iterations. *)
Lemma negative_batchSize_never_returns respond req (items : list string)
    (batchSize i : Q) (fuel : nat) acc (h : list Batch.Request) :
  (batchSize < 0)%Q -> (i <= 0)%Q -> items <> [] ->
  (Batch.batchLoop (Batch.promiseAllMap (itemCall respond req)) fuel items batchSize i acc h).1
    = Ok None.
Proof.
  intros Hb Hi Hne. revert i acc h Hi.
  induction fuel as [|fuel IH]; intros i acc h Hi; [done|].
  cbn [Batch.batchLoop].
  rewrite ltNumber_nonpositive; [|done|destruct items; [done | simpl; lia]].
  unfold bind at 1.
  destruct (processBatch_split respond req
              (JS.sliceNumber items i (i + batchSize)%Q) acc h)
    as (ss & fs & extra & Hrun & _).
  rewrite Hrun. apply IH. by apply Qplus_nonpositive.
Qed.

(** C2 — Batch partial-failure isolation, for a chunk size that is a whole
    number [batchSize >= 0] (the handlers read [0] as [50]) and enough
    iterations.  The input is cut into consecutive chunks of at least one
    and at most that many identifiers.  For each chunk the whole chunk is
    sent first.  When the endpoint accepts all of it, its identifiers are
    added to the successes.  Otherwise every identifier of the chunk is sent
    again on its own, in the order of the chunk: the ones accepted then are
    added to the successes, the ones rejected then to the failures with the
    error of their own request.  [batch_modify_emails] and
    [batch_delete_emails] return the result of processing the chunks one
    after the other: the numbers of successes and failures add up to the
    number of identifiers, the identifiers of the successes and of the
    failures are the input up to order, a request was sent for every
    identifier, an identifier the endpoint always accepts is a success and
    no failure whatever happens to the others, and every failure carries an
    error with which the endpoint rejected a request for that identifier. *)
Theorem batch_partial_failure_isolation :
  forall (respond : list Batch.Request -> Batch.Request -> option Error)
         (messageIds : list string) (addLabelIds removeLabelIds : option (list string))
         (batchSize : Z) (fuel : nat) (h : list Batch.Request),
    0 <= batchSize -> (List.length messageIds < fuel)%nat ->
    let n := Z.to_nat (JS.toInteger (Batch.effectiveBatchSize (inject_Z batchSize))) in
    let modify := fun id => Batch.MessagesModify id addLabelIds removeLabelIds in
    let reported := fun id : string => (id, true) in
    (n = Z.to_nat (if batchSize =? 0 then 50 else batchSize) /\
     List.concat (Batch.chunks n messageIds) = messageIds /\
     Forall (fun c => (0 < List.length c <= n)%nat) (Batch.chunks n messageIds)) /\
    (forall req chunk acc h0,
        let processFn := Batch.promiseAllMap (itemCall respond req) in
        let h1 := h0 ++ (req <$> chunk) in
        (chunkAccepted respond req h0 chunk ->
         Batch.processBatch processFn chunk acc h0 =
           (Ok (Batch.mkBatchResult (Batch.successes acc ++ (reported <$> chunk))
                                    (Batch.failures acc)), h1)) /\
        (~ chunkAccepted respond req h0 chunk ->
         Batch.processBatch processFn chunk acc h0 =
           (Ok (Batch.mkBatchResult
                  (Batch.successes acc ++ retrySuccesses respond req h1 chunk)
                  (Batch.failures acc ++ retryFailures respond req h1 chunk)),
            h1 ++ (req <$> chunk)))) /\
    (exists res extra,
        Batch.batch_modify_emails respond fuel messageIds addLabelIds removeLabelIds
          (inject_Z batchSize) h = (Ok (Some res), h ++ extra) /\
        Batch.processChunks (Batch.promiseAllMap (itemCall respond modify))
          (Batch.chunks n messageIds) (Batch.mkBatchResult [] []) h = (Ok res, h ++ extra) /\
        (Batch.successCount res + Batch.failureCount res = List.length messageIds)%nat /\
        covered res ≡ₚ messageIds /\
        (forall id, id ∈ messageIds -> modify id ∈ extra) /\
        (forall id, id ∈ messageIds -> (forall h', respond h' (modify id) = None) ->
                    (id, true) ∈ Batch.successes res /\ id ∉ (Batch.failures res).*1) /\
        (forall id e, (id, e) ∈ Batch.failures res ->
                      id ∈ messageIds /\ exists h', respond h' (modify id) = Some e)) /\
    (exists res extra,
        Batch.batch_delete_emails respond fuel messageIds (inject_Z batchSize) h
          = (Ok (Some res), h ++ extra) /\
        Batch.processChunks (Batch.promiseAllMap (itemCall respond Batch.MessagesDelete))
          (Batch.chunks n messageIds) (Batch.mkBatchResult [] []) h = (Ok res, h ++ extra) /\
        (Batch.successCount res + Batch.failureCount res = List.length messageIds)%nat /\
        covered res ≡ₚ messageIds /\
        (forall id, id ∈ messageIds -> Batch.MessagesDelete id ∈ extra) /\
        (forall id, id ∈ messageIds ->
                    (forall h', respond h' (Batch.MessagesDelete id) = None) ->
                    (id, true) ∈ Batch.successes res /\ id ∉ (Batch.failures res).*1) /\
        (forall id e, (id, e) ∈ Batch.failures res ->
                      id ∈ messageIds /\
                      exists h', respond h' (Batch.MessagesDelete id) = Some e)).
Proof.
  intros respond ids add rem batchSize fuel h Hb Hfuel n modify reported.
  destruct (effectiveBatchSize_pos batchSize Hb) as (n' & Hn & Hsize & Hnat).
  fold n in Hnat. subst n'.
  split.
  { split; [|split; [by apply chunks_concat | by apply chunks_bounded]].
    unfold n, Batch.effectiveBatchSize.
    replace (Qeq_bool (inject_Z batchSize) 0) with (batchSize =? 0)
      by (unfold Qeq_bool, inject_Z; simpl; by rewrite Z.mul_1_r).
    destruct (batchSize =? 0); [reflexivity | by rewrite toInteger_inject]. }
  split.
  - intros req chunk acc h0 processFn h1. split.
    + apply processBatch_accepted.
    + apply processBatch_rejected.
  - split.
    + apply (batch_handler_total respond modify ids batchSize fuel h Hb Hfuel).
    + apply (batch_handler_total respond Batch.MessagesDelete ids batchSize fuel h Hb Hfuel).
Qed.

Lemma batch_witness :
  exists res extra,
    Batch.batch_modify_emails rejectBad 6 ["m1"; "m2"; "bad"; "m4"; "m5"]
      (Some ["Label_1"]) None (inject_Z 5) [] = (Ok (Some res), extra) /\
    (Batch.successCount res + Batch.failureCount res = 5)%nat.
Proof.
  destruct (batch_partial_failure_isolation rejectBad ["m1"; "m2"; "bad"; "m4"; "m5"]
              (Some ["Label_1"]) None 5 6%nat [])
    as (_ & _ & (res & extra & Hrun & _ & Hcount & _) & _); [lia | simpl; lia |].
  exists res, extra. split; [exact Hrun | exact Hcount].
Defined.

(** The handlers take any number as chunk size.  With [-1] the handler is
    still running after any number of iterations; with [3/2] the second
    chunk has two identifiers, "bad" and "c", sent together and then one by
    one; with [0] the chunk size is [50], and "a" shares its chunk with
    "bad". *)
Lemma batch_chunk_size_not_every_number :
  ~ (exists fuel res h,
        Batch.batch_modify_emails rejectBad fuel ["m1"] None None (inject_Z (-1)) []
          = (Ok (Some res), h)) /\
  (Batch.batch_delete_emails rejectBad 4 ["a"; "bad"; "c"] (3 # 2) []).2 =
    Batch.MessagesDelete <$> ["a"; "bad"; "c"; "bad"; "c"] /\
  (Batch.batch_delete_emails rejectBad 3 ["a"; "bad"] 0%Q []).2 =
    Batch.MessagesDelete <$> ["a"; "bad"; "a"; "bad"].
Proof.
  split; [|split; reflexivity].
  intros (fuel & res & h & Hrun).
  pose proof (negative_batchSize_never_returns rejectBad
                (fun id => Batch.MessagesModify id None None) ["m1"]
                (Batch.effectiveBatchSize (inject_Z (-1))) 0%Q fuel
                (Batch.mkBatchResult [] []) []) as Hloop.
  unfold Batch.batch_modify_emails, Batch.processBatches in Hrun.
  change (Batch.promiseAllMap _) with
    (Batch.promiseAllMap (itemCall rejectBad (fun id => Batch.MessagesModify id None None)))
    in Hrun.
  rewrite Hrun in Hloop. discriminate Hloop; done.
Qed.

(** One of five identifiers is rejected: four successes, one failure, and
    the chunk was sent once as a whole and once item by item. *)
Example batch_one_of_five_fails :
  let run := Batch.batch_modify_emails rejectBad 6 ["m1"; "m2"; "bad"; "m4"; "m5"]
               (Some ["Label_1"]) None (inject_Z 5) [] in
  match run.1 with
  | Ok (Some res) =>
      Batch.successCount res = 4%nat /\ Batch.failureCount res = 1%nat /\
      (Batch.failures res).*1 = ["bad"]
  | _ => False
  end /\
  List.length run.2 = 10%nat.
Proof. vm_compute. by repeat split. Qed.


(** ** The IMAP client: connection and mailbox selection *)

Section ImapFacts.
Variable srv : Imap.Server.
Implicit Types (s : Imap.Session) (m : string).

Lemma send_eq c s :
  Imap.send srv c s =
    (match Imap.fails srv (Imap.log s) c with
     | Some msg => Throw (ProtocolError msg)
     | None => Ok tt
     end,
     Imap.mkSession (Imap.client s) (Imap.currentMailbox s) (Imap.log s ++ [c])).
Proof. unfold Imap.send. by destruct (Imap.fails srv (Imap.log s) c). Qed.

(** On a connection that is up and usable nothing is sent to ensure it. *)
Lemma ensureConnected_usable s :
  Imap.client s = true -> Imap.usable srv (Imap.log s) = true ->
  Imap.ensureConnected srv s = (Ok tt, s).
Proof.
  intros Hc Hu. unfold Imap.ensureConnected. monad_unfold. rewrite Hc. simpl.
  by rewrite Hu.
Qed.

(** What [selectMailbox] does once the connection is ensured. *)
Lemma selectMailbox_after_ensure m s s1 :
  Imap.ensureConnected srv s = (Ok tt, s1) ->
  Imap.selectMailbox srv m s =
    if bool_decide (Imap.currentMailbox s1 = Some m) then (Ok tt, s1)
    else (match Imap.fails srv (Imap.log s1) (Imap.MailboxOpen m) with
          | Some msg =>
              (Throw (ProtocolError msg),
               Imap.mkSession (Imap.client s1) (Imap.currentMailbox s1)
                              (Imap.log s1 ++ [Imap.MailboxOpen m]))
          | None =>
              (Ok tt, Imap.mkSession (Imap.client s1) (Some m)
                                     (Imap.log s1 ++ [Imap.MailboxOpen m]))
          end).
Proof.
  intros He. unfold Imap.selectMailbox. rewrite (bind_ok _ _ _ _ _ He).
  monad_unfold. case_bool_decide; simpl; [done|].
  rewrite send_eq. by destruct (Imap.fails srv _ _).
Qed.

Lemma selectMailbox_ok m s s' :
  Imap.selectMailbox srv m s = (Ok tt, s') -> Imap.currentMailbox s' = Some m.
Proof.
  intros H. unfold Imap.selectMailbox in H.
  apply bind_ok_inv in H as ([] & s1 & He & H).
  monad_unfold. simpl in H. case_bool_decide as Hcur; simpl in H.
  - by injection H as <-.
  - rewrite send_eq in H. destruct (Imap.fails srv _ _); [done|].
    by injection H as <-.
Qed.

Lemma send_keeps_mailbox c s r s' :
  Imap.send srv c s = (r, s') -> Imap.currentMailbox s' = Imap.currentMailbox s.
Proof. rewrite send_eq. by intros [= _ <-]. Qed.

Section Healthy.
Hypothesis Hsrv : healthy srv.

Lemma send_healthy c s :
  Imap.send srv c s =
    (Ok tt, Imap.mkSession (Imap.client s) (Imap.currentMailbox s) (Imap.log s ++ [c])).
Proof. rewrite send_eq. destruct Hsrv as (Hf & _). by rewrite Hf. Qed.

Lemma ensureConnected_healthy s : Imap.ensureConnected srv s = (Ok tt, connected s).
Proof.
  unfold connected. destruct (Imap.client s) eqn:Hc.
  - apply ensureConnected_usable; [done|]. by destruct Hsrv as (_ & Hu & _).
  - unfold Imap.ensureConnected, Imap.connect. monad_unfold. rewrite Hc. simpl.
    rewrite Hc. by rewrite send_healthy.
Qed.

Lemma client_connected s : Imap.client (connected s) = true.
Proof. unfold connected. by destruct (Imap.client s) eqn:Hc. Qed.

Lemma connected_idem s : Imap.client s = true -> connected s = s.
Proof. unfold connected. by intros ->. Qed.

Lemma client_opened s m : Imap.client (opened s m) = true.
Proof. unfold opened. case_bool_decide; [apply client_connected | done]. Qed.

Lemma mailbox_opened s m : Imap.currentMailbox (opened s m) = Some m.
Proof. unfold opened. by case_bool_decide. Qed.

Lemma selectMailbox_healthy m s : Imap.selectMailbox srv m s = (Ok tt, opened s m).
Proof.
  rewrite (selectMailbox_after_ensure m s _ (ensureConnected_healthy s)).
  unfold opened. case_bool_decide; [done|].
  destruct Hsrv as (Hf & _). by rewrite Hf, client_connected.
Qed.

(** Selecting again the mailbox that is selected sends nothing. *)
Lemma opened_again s m : opened (opened s m) m = opened s m.
Proof.
  unfold opened at 1. rewrite connected_idem by apply client_opened.
  by rewrite bool_decide_eq_true_2 by apply mailbox_opened.
Qed.

End Healthy.
End ImapFacts.

Lemma plainServer_healthy folders uids messages attachments :
  healthy (plainServer folders uids messages attachments).
Proof. by repeat split. Qed.

(** ** Deleting a message *)


Section DeleteFacts.
Variable srv : Imap.Server.
Hypothesis Hsrv : healthy srv.

Lemma opened_connected s m : opened (connected s) m = opened s m.
Proof.
  unfold opened. by rewrite (connected_idem (connected s)) by apply client_connected.
Qed.


End DeleteFacts.



(** ** Searching *)

Section SearchFacts.
Variable srv : Imap.Server.

Lemma sortedUids_nil n : Imap.sortedUids [] n = [].
Proof.
  unfold Imap.sortedUids, JS.sliceNumber, JS.slice. simpl. by rewrite take_nil.
Qed.

Lemma searchEmails_after_select o s s1 :
  bind (Imap.ensureConnected srv)
       (fun _ => Imap.selectMailbox srv (JS.orElse (Imap.folder o) "INBOX")) s = (Ok tt, s1) ->
  Imap.searchEmails srv o s = searchSelected srv o s1.
Proof.
  intros Hpre. apply bind_ok_inv in Hpre as ([] & s0 & He & Hsel).
  unfold Imap.searchEmails. rewrite (bind_ok _ _ _ _ _ He), (bind_ok _ _ _ _ _ Hsel).
  unfold searchSelected, bind at 1, gets, bind at 1. rewrite send_eq.
  destruct (Imap.fails srv (Imap.log s1) _) as [msg|]; [done|].
  destruct (Imap.found srv (Imap.log s1) _) as [[|u uids]|]; simpl default;
    [by rewrite sortedUids_nil | | by rewrite sortedUids_nil].
  destruct (Imap.sortedUids (u :: uids) _) as [|u' sorted] eqn:Hsorted; [done|].
  unfold tryCatch, Imap.fetchAll, bind, gets, throw, modify, ret. rewrite send_eq. simpl.
  destruct (Imap.fails srv _ (Imap.Fetch _)) as [msg|]; [done|].
  by destruct (Imap.fetched srv _ _).2.
Qed.

Lemma searchEmails_healthy o s :
  healthy srv ->
  Imap.searchEmails srv o s = searchSelected srv o (opened s (JS.orElse (Imap.folder o) "INBOX")).
Proof.
  intros Hsrv. apply searchEmails_after_select.
  rewrite (bind_ok _ _ _ _ _ (ensureConnected_healthy srv Hsrv s)).
  rewrite selectMailbox_healthy by done. by rewrite opened_connected.
Qed.
End SearchFacts.

(** Sorting numbers with [(a, b) => b - a] puts them in descending order. *)
Section Descending.
#[local] Abbreviation desc := (fun a b : Z => b - a <=? 0).

Lemma insert_desc_Forall (P : Z -> Prop) x l :
  P x -> Forall P l -> Forall P (JS.insert desc x l).
Proof. intros Hx Hl. rewrite insert_perm. by constructor. Qed.

Lemma insert_desc_sorted x l :
  StronglySorted Z.ge l -> StronglySorted Z.ge (JS.insert desc x l).
Proof.
  induction 1 as [|y l Hl IH Hy]; simpl; [repeat constructor|].
  destruct (Z.leb_spec (y - x) 0) as [Hle|Hgt].
  - constructor; [by constructor|].
    constructor; [lia|]. eapply Forall_impl; [exact Hy|]. simpl. lia.
  - constructor; [exact IH|]. apply insert_desc_Forall; [lia | exact Hy].
Qed.

Lemma sort_desc_sorted l : StronglySorted Z.ge (JS.sort desc l).
Proof.
  induction l as [|x l IH]; [constructor|]. by apply insert_desc_sorted.
Qed.

Lemma sorted_strict l : StronglySorted Z.ge l -> NoDup l -> StronglySorted Z.gt l.
Proof.
  induction 1 as [|x l Hl IH Hx]; intros Hnd; [constructor|].
  apply NoDup_cons in Hnd as [Hnotin Hnd]. constructor; [by apply IH|].
  rewrite Forall_forall in Hx |- *. intros y Hy.
  specialize (Hx y Hy). assert (x <> y) by (intros ->; done). lia.
Qed.

Lemma sorted_sublist (R : Z -> Z -> Prop) l1 l2 :
  l1 `sublist_of` l2 -> StronglySorted R l2 -> StronglySorted R l1.
Proof.
  induction 1 as [|x l1 l2 Hsub IH|x l1 l2 Hsub IH]; intros Hs; [constructor| |].
  - apply StronglySorted_inv in Hs as [Hs Hx]. constructor; [by apply IH|].
    rewrite Forall_forall in Hx |- *. intros y Hy. apply Hx.
    by eapply elem_of_sublist.
  - apply StronglySorted_inv in Hs as [Hs _]. by apply IH.
Qed.

(** The UID list handed to [fetch]: descending, strictly so when the
    search answer has no duplicate, and of at most [n] numbers. *)
Lemma sortedUids_spec uids (n : Q) :
  (0 <= n)%Q ->
  StronglySorted Z.ge (Imap.sortedUids uids n) /\
  (NoDup uids -> StronglySorted Z.gt (Imap.sortedUids uids n)) /\
  (inject_Z (Z.of_nat (List.length (Imap.sortedUids uids n))) <= n)%Q /\
  Imap.sortedUids uids n = take (Z.to_nat (JS.toInteger n)) (JS.sort desc uids).
Proof.
  intros Hn. pose proof (toInteger_nonneg n Hn) as Hint.
  unfold Imap.sortedUids, JS.sliceNumber.
  change (JS.toInteger 0%Q) with 0. rewrite slice_prefix by done.
  assert (StronglySorted Z.ge (take (Z.to_nat (JS.toInteger n)) (JS.sort desc uids))) as Hs.
  { eapply sorted_sublist; [apply sublist_take | apply sort_desc_sorted]. }
  split; [exact Hs|]. split; [|split; [|done]].
  - intros Hnd. apply sorted_strict; [exact Hs|].
    apply (sublist_NoDup _ (JS.sort desc uids)); [by rewrite sort_perm | apply sublist_take].
  - eapply Qle_trans; [|by apply toInteger_le].
    rewrite <- Zle_Qle. rewrite length_take. lia.
Qed.
End Descending.

Lemma fmap_sublist {A B} (f : A -> B) (l1 l2 : list A) :
  l1 `sublist_of` l2 -> (f <$> l1) `sublist_of` (f <$> l2).
Proof. induction 1; csimpl; by constructor. Qed.

(** The results are built from the fetched messages that have an envelope,
    in the order of the fetch. *)
Lemma results_of_messages (msgs : list Imap.FetchMessageObject) :
  exists kept,
    kept `sublist_of` msgs /\
    Forall2 (fun r m => Imap.toSearchResult m = Some r) (omap Imap.toSearchResult msgs) kept.
Proof.
  induction msgs as [|m msgs (kept & Hsub & Hall)]; [exists []; by repeat constructor|].
  csimpl. destruct (Imap.toSearchResult m) as [r|] eqn:Hr.
  - exists (m :: kept). split; [by constructor | by constructor].
  - exists kept. split; [by constructor | done].
Qed.

Lemma effectiveMaxResults_requested o :
  (0 < requestedMax o)%Q -> Imap.effectiveMaxResults o = requestedMax o.
Proof.
  unfold requestedMax, Imap.effectiveMaxResults.
  destruct (Imap.maxResults o) as [n|]; simpl; [|done].
  intros Hn. destruct (Qeq_bool n 0) eqn:Hz; [|done].
  apply Qeq_bool_iff in Hz. rewrite Hz in Hn. by apply Qlt_irrefl in Hn.
Qed.

Lemma buildQuery_empty o : criteriaEmpty o -> Imap.buildQuery o = Imap.All.
Proof.
  intros (Hf & Ht & Hs & Hx & Hsi & Hb & Hse & Hfl).
  unfold Imap.buildQuery, Imap.buildCriteria, Imap.countKeys. simpl.
  by rewrite Hf, Ht, Hs, Hx, Hsi, Hb, Hse, Hfl.
Qed.

(** C6 (amended) — Search bound.  Let the requested maximum be
    [maxResults], or 50 when it is absent, and let it be positive.  Once
    the mailbox is selected:
      - when the search command is accepted and answers [false] or an
        empty list, [searchEmails] returns the empty list and fetches
        nothing;
      - when [searchEmails] returns, the only commands it has sent are the
        search and, when the UID list is not empty, one fetch of the
        search answer sorted in descending order and cut to the maximum
        (strictly descending when the answer has no duplicate); there is
        one result for each fetched message that has an envelope, so the
        results are at most the maximum when the fetch yields no more
        messages than UIDs were requested;
      - options without criteria give the match-all query. *)
Theorem search_bound_and_order :
  forall (srv : Imap.Server) (o : Imap.SearchOptions) (s s1 : Imap.Session),
    bind (Imap.ensureConnected srv)
         (fun _ => Imap.selectMailbox srv (JS.orElse (Imap.folder o) "INBOX")) s = (Ok tt, s1) ->
    (0 < requestedMax o)%Q ->
    let q := Imap.buildQuery o in
    let answer := default [] (Imap.found srv (Imap.log s1) q) in
    let sorted := Imap.sortedUids answer (requestedMax o) in
    let fetchedMsgs := (Imap.fetched srv (Imap.log s1 ++ [Imap.Search q]) sorted).1 in
    (Imap.fails srv (Imap.log s1) (Imap.Search q) = None -> answer = [] ->
     exists s', Imap.searchEmails srv o s = (Ok [], s') /\
                Imap.log s' = Imap.log s1 ++ [Imap.Search q]) /\
    (forall rs s',
        Imap.searchEmails srv o s = (Ok rs, s') ->
        Imap.log s' = Imap.log s1 ++
          Imap.Search q :: (if sorted is [] then [] else [Imap.Fetch sorted]) /\
        sorted = take (Z.to_nat (JS.toInteger (requestedMax o)))
                      (JS.sort (fun a b => b - a <=? 0) answer) /\
        StronglySorted Z.ge sorted /\
        (NoDup answer -> StronglySorted Z.gt sorted) /\
        (inject_Z (Z.of_nat (List.length sorted)) <= requestedMax o)%Q /\
        rs = (if sorted is [] then [] else omap Imap.toSearchResult fetchedMsgs) /\
        ((List.length fetchedMsgs <= List.length sorted)%nat ->
         (inject_Z (Z.of_nat (List.length rs)) <= requestedMax o)%Q)) /\
    (criteriaEmpty o -> q = Imap.All).
Proof.
  intros srv o s s1 Hpre Hmax q answer sorted fetchedMsgs.
  rewrite (searchEmails_after_select srv o s s1 Hpre). unfold searchSelected.
  rewrite (effectiveMaxResults_requested o Hmax). fold q answer sorted.
  destruct (sortedUids_spec answer (requestedMax o)) as (Hge & Hgt & Hlen & Htake);
    [by apply Qlt_le_weak|].
  fold sorted in Hge, Hgt, Hlen, Htake.
  split; [|split; [|apply buildQuery_empty]].
  - intros Hok Hempty. rewrite Hok. subst sorted. rewrite Hempty, sortedUids_nil. eauto.
  - intros rs s'. destruct (Imap.fails srv (Imap.log s1) (Imap.Search q)); [done|].
    destruct sorted as [|u rest] eqn:Hsorted.
    + intros [= <- <-]. simpl. repeat split; try done.
    + cbn [Imap.log]. fold fetchedMsgs.
      destruct (Imap.fails srv _ (Imap.Fetch _)); [done|].
      destruct (Imap.fetched srv _ _).2 eqn:Hend; [done|].
      intros [= <- <-]. cbn [Imap.log]. rewrite <- app_assoc.
      repeat split; try done.
      intros Hfetched.
      destruct (results_of_messages fetchedMsgs) as (kept & Hkept & Hall).
      apply Forall2_length in Hall. rewrite Hall.
      apply sublist_length in Hkept.
      eapply Qle_trans; [|exact Hlen]. rewrite <- Zle_Qle. lia.
Qed.

Lemma search_witness :
  exists rs s',
    Imap.searchEmails mailServer (noCriteria None (Some 2%Q)) newSession = (Ok rs, s') /\
    (inject_Z (Z.of_nat (List.length rs)) <= 2)%Q /\
    Imap.log s' = [Imap.Connect; Imap.MailboxOpen "INBOX"; Imap.Search Imap.All;
                   Imap.Fetch [3; 2]].
Proof.
  destruct (search_bound_and_order mailServer (noCriteria None (Some 2%Q)) newSession
              (opened newSession "INBOX")) as (_ & H & _);
    [reflexivity | by vm_compute |].
  destruct (Imap.searchEmails mailServer (noCriteria None (Some 2%Q)) newSession)
    as [[rs|e] s'] eqn:Hrun; [|by vm_compute in Hrun].
  destruct (H rs s' eq_refl) as (Hlog & _ & _ & _ & _ & _ & Hres).
  exists rs, s'. split; [done|]. split; [|exact Hlog].
  apply Hres. vm_compute. lia.
Defined.

(** C6, as stated, fails for a [maxResults] that is not positive.  The
    source reads [options.maxResults || 50], so with [0] three messages are
    returned where at most zero were asked for; with [-1] the sorted list
    loses its last UID only, and two messages are returned.  It also fails
    on a server that yields the fetched messages in the order of the
    mailbox: the UIDs [3, 2, 1] are requested and the results come back in
    the order 1, 2, 3, which the source keeps. *)
Lemma search_max_and_order_fail :
  (Imap.maxResults (noCriteria None (Some 0%Q)) = Some 0%Q /\
   match (Imap.searchEmails mailServer (noCriteria None (Some 0%Q)) newSession).1 with
   | Ok rs => Imap.srUid <$> rs = ["3"; "2"; "1"] /\
              ~ (inject_Z (Z.of_nat (List.length rs)) <= 0)%Q
   | Throw _ => False
   end) /\
  match (Imap.searchEmails mailServer (noCriteria None (Some (-1)%Q)) newSession).1 with
  | Ok rs => Imap.srUid <$> rs = ["3"; "2"] /\
             ~ (inject_Z (Z.of_nat (List.length rs)) <= -1)%Q
  | Throw _ => False
  end /\
  match Imap.searchEmails mailboxOrderServer (noCriteria None (Some 5%Q)) newSession with
  | (Ok rs, s') =>
      Imap.log s' = [Imap.Connect; Imap.MailboxOpen "INBOX"; Imap.Search Imap.All;
                     Imap.Fetch [3; 2; 1]] /\
      Imap.srUid <$> rs = ["1"; "2"; "3"] /\
      ~ StronglySorted Z.gt [1; 2; 3]
  | (Throw _, _) => False
  end.
Proof.
  split; [|split].
  - split; [reflexivity|]. vm_compute. split; [reflexivity|]. intros H. by apply H.
  - vm_compute. split; [reflexivity|]. intros H. by apply H.
  - vm_compute. split; [reflexivity|]. split; [reflexivity|].
    intros H. apply StronglySorted_inv in H as [_ H].
    apply Forall_inv in H. discriminate H.
Qed.

(** ** The cache of the selected mailbox *)

Lemma selects_app l1 l2 : selects (l1 ++ l2) = (selects l1 + selects l2)%nat.
Proof. unfold selects. by rewrite List.filter_app, length_app. Qed.

Section CacheFacts.
Variable srv : Imap.Server.

Lemma moveEmail_invalidates uid src dst s s' :
  Imap.moveEmail srv uid src dst s = (Ok tt, s') -> Imap.currentMailbox s' = None.
Proof.
  unfold Imap.moveEmail. intros H.
  apply bind_ok_inv in H as ([] & s1 & _ & H).
  apply bind_ok_inv in H as ([] & s2 & _ & H).
  apply bind_ok_inv in H as ([] & s3 & _ & H).
  unfold modify in H. by injection H as <-.
Qed.

Lemma moveEmails_invalidates uids src dst s s' :
  uids <> [] ->
  Imap.moveEmails srv uids src dst s = (Ok tt, s') -> Imap.currentMailbox s' = None.
Proof.
  unfold Imap.moveEmails. intros Hne H.
  apply bind_ok_inv in H as ([] & s1 & _ & H).
  apply bind_ok_inv in H as ([] & s2 & _ & H).
  destruct uids as [|u uids]; [done|].
  destruct (Imap.uidNumbers (u :: uids)); [done|].
  apply bind_ok_inv in H as ([] & s3 & _ & H).
  unfold modify in H. by injection H as <-.
Qed.

Lemma deleteEmail_invalidates uid folder permanent s s' :
  Imap.deleteEmail srv uid folder permanent s = (Ok tt, s') -> Imap.currentMailbox s' = None.
Proof.
  unfold Imap.deleteEmail. intros H.
  apply bind_ok_inv in H as ([] & s1 & _ & H).
  apply bind_ok_inv in H as ([] & s2 & _ & H).
  apply bind_ok_inv in H as ([] & s3 & _ & H).
  unfold modify in H. by injection H as <-.
Qed.

Lemma markEmailsRead_keeps uids folder s s' :
  Imap.markEmailsRead srv uids folder s = (Ok tt, s') ->
  Imap.currentMailbox s' = Some (JS.orElse folder "INBOX").
Proof.
  unfold Imap.markEmailsRead. intros H.
  apply bind_ok_inv in H as ([] & s1 & _ & H).
  apply bind_ok_inv in H as ([] & s2 & Hsel & H).
  apply selectMailbox_ok in Hsel.
  destruct uids as [|u uids]; [unfold ret in H; by injection H as <-|].
  destruct (Imap.uidNumbers (u :: uids)); [done|].
  apply send_keeps_mailbox in H. by rewrite H.
Qed.

Lemma selectMailbox_log_after m s s1 :
  Imap.ensureConnected srv s = (Ok tt, s1) ->
  Imap.log (Imap.selectMailbox srv m s).2 =
    Imap.log s1 ++
      (if bool_decide (Imap.currentMailbox s1 = Some m) then [] else [Imap.MailboxOpen m]).
Proof.
  intros He. rewrite (selectMailbox_after_ensure srv m s s1 He).
  case_bool_decide; simpl; [by rewrite app_nil_r|].
  by destruct (Imap.fails srv _ _).
Qed.

Lemma selectMailbox_log m s :
  Imap.client s = true -> Imap.usable srv (Imap.log s) = true ->
  Imap.log (Imap.selectMailbox srv m s).2 =
    Imap.log s ++
      (if bool_decide (Imap.currentMailbox s = Some m) then [] else [Imap.MailboxOpen m]).
Proof.
  intros Hc Hu.
  rewrite (selectMailbox_after_ensure srv m s s (ensureConnected_usable srv s Hc Hu)).
  case_bool_decide; simpl; [by rewrite app_nil_r|].
  by destruct (Imap.fails srv _ _).
Qed.

Section Healthy.
Hypothesis Hsrv : healthy srv.

Lemma selects_opened s m :
  selects (Imap.log (opened s m)) =
    (selects (Imap.log s) +
     (if bool_decide (Imap.currentMailbox (connected s) = Some m) then 0 else 1))%nat.
Proof.
  unfold opened. assert (selects (Imap.log (connected s)) = selects (Imap.log s)) as Hc.
  { unfold connected. destruct (Imap.client s); [done|]. simpl.
    rewrite selects_app. unfold selects. simpl. lia. }
  case_bool_decide; simpl; [lia|]. rewrite selects_app, Hc. unfold selects. simpl. lia.
Qed.

(** On a healthy server [searchEmails] leaves the mailbox selected and
    sends no select command beyond the one of [selectMailbox]. *)
Lemma searchEmails_selected o s :
  let m := JS.orElse (Imap.folder o) "INBOX" in
  let s' := (Imap.searchEmails srv o s).2 in
  Imap.client s' = true /\ Imap.currentMailbox s' = Some m /\
  selects (Imap.log s') = selects (Imap.log (opened s m)).
Proof.
  intros m s'. subst s'. rewrite searchEmails_healthy by done. fold m.
  pose proof (client_opened s m) as Hc. pose proof (mailbox_opened s m) as Hm.
  unfold searchSelected. destruct Hsrv as (Hf & _ & Hfetch). rewrite !Hf.
  destruct (Imap.sortedUids _ _) as [|u rest]; simpl.
  - rewrite selects_app. split; [done|]. split; [done|]. unfold selects. simpl. lia.
  - rewrite Hfetch. simpl. rewrite !selects_app. split; [done|]. split; [done|].
    unfold selects. simpl. lia.
Qed.

(** ... and so does [markEmailsRead]. *)
Lemma markEmailsRead_selected uids folder s :
  let m := JS.orElse folder "INBOX" in
  let s' := (Imap.markEmailsRead srv uids folder s).2 in
  Imap.client s' = true /\ Imap.currentMailbox s' = Some m /\
  selects (Imap.log s') = selects (Imap.log (opened s m)).
Proof.
  intros m s'. subst s'. unfold Imap.markEmailsRead.
  rewrite (bind_ok _ _ _ _ _ (ensureConnected_healthy srv Hsrv s)).
  rewrite (bind_ok _ _ _ _ _ (selectMailbox_healthy srv Hsrv _ (connected s))).
  rewrite opened_connected. fold m.
  pose proof (client_opened s m) as Hc. pose proof (mailbox_opened s m) as Hm.
  destruct uids as [|u uids]; [done|].
  destruct (Imap.uidNumbers (u :: uids)); [done|].
  rewrite send_healthy by done. simpl. rewrite selects_app.
  split; [done|]. split; [done|]. unfold selects. simpl. lia.
Qed.

Lemma opened_selected s m :
  Imap.client s = true -> Imap.currentMailbox s = Some m -> opened s m = s.
Proof.
  intros Hc Hm. unfold opened. rewrite connected_idem by done.
  by rewrite bool_decide_eq_true_2.
Qed.
End Healthy.
End CacheFacts.

(** C7 (amended) — Selected-mailbox cache.  Once the connection is ensured
    (and so, on a connection that is up and usable, from the start),
    [selectMailbox] sends a mailbox-open command exactly when the cached
    mailbox differs from the requested one, and a successful
    [selectMailbox] leaves the requested mailbox in the cache.  On a healthy
    server a search followed by a flag change in the same folder sends one
    select command when the folder was not selected before, and none when it
    was.  A successful [moveEmail], [moveEmails] (of a non-empty list) or
    [deleteEmail] (to the trash or permanent) leaves the cache empty; a
    successful [markEmailsRead] leaves the folder it worked on in the cache. *)
Theorem mailbox_cache_discipline :
  forall srv : Imap.Server,
    (forall m s s1,
        Imap.ensureConnected srv s = (Ok tt, s1) ->
        Imap.log (Imap.selectMailbox srv m s).2 =
          Imap.log s1 ++
            (if bool_decide (Imap.currentMailbox s1 = Some m) then [] else [Imap.MailboxOpen m])) /\
    (forall m s,
        Imap.client s = true -> Imap.usable srv (Imap.log s) = true ->
        Imap.log (Imap.selectMailbox srv m s).2 =
          Imap.log s ++
            (if bool_decide (Imap.currentMailbox s = Some m) then [] else [Imap.MailboxOpen m])) /\
    (forall m s s',
        Imap.selectMailbox srv m s = (Ok tt, s') -> Imap.currentMailbox s' = Some m) /\
    (healthy srv ->
     forall o uids s,
       let m := JS.orElse (Imap.folder o) "INBOX" in
       let s1 := (Imap.searchEmails srv o s).2 in
       let s2 := (Imap.markEmailsRead srv uids (Imap.folder o) s1).2 in
       selects (Imap.log s2) =
         (selects (Imap.log s) +
          (if bool_decide (Imap.currentMailbox (connected s) = Some m) then 0 else 1))%nat) /\
    (forall uid src dst s s',
        Imap.moveEmail srv uid src dst s = (Ok tt, s') -> Imap.currentMailbox s' = None) /\
    (forall uids src dst s s',
        uids <> [] ->
        Imap.moveEmails srv uids src dst s = (Ok tt, s') -> Imap.currentMailbox s' = None) /\
    (forall uid folder permanent s s',
        Imap.deleteEmail srv uid folder permanent s = (Ok tt, s') ->
        Imap.currentMailbox s' = None) /\
    (forall uids folder s s',
        Imap.markEmailsRead srv uids folder s = (Ok tt, s') ->
        Imap.currentMailbox s' = Some (JS.orElse folder "INBOX")).
Proof.
  intros srv.
  split; [apply selectMailbox_log_after|].
  split; [apply selectMailbox_log|].
  split; [apply selectMailbox_ok|].
  split.
  - intros Hsrv o uids s m s1 s2.
    destruct (searchEmails_selected srv Hsrv o s) as (Hc1 & Hm1 & Hn1).
    destruct (markEmailsRead_selected srv Hsrv uids (Imap.folder o) s1) as (_ & _ & Hn2).
    fold m s1 in Hc1, Hm1, Hn1, Hn2. fold s2 in Hn2.
    rewrite Hn2, (opened_selected s1 m Hc1 Hm1), Hn1.
    by apply selects_opened.
  - split; [apply moveEmail_invalidates|].
    split; [apply moveEmails_invalidates|].
    split; [apply deleteEmail_invalidates | apply markEmailsRead_keeps].
Qed.

Lemma mailbox_cache_witness :
  selects (Imap.log (Imap.markEmailsRead mailServer ["3"] None
                       (Imap.searchEmails mailServer (noCriteria None None) newSession).2).2)
    = 1%nat /\
  Imap.currentMailbox (Imap.moveEmail mailServer "3" "INBOX" "Archive" newSession).2 = None /\
  Imap.currentMailbox (Imap.moveEmails mailServer ["3"; "x"] "INBOX" "Archive" newSession).2
    = None /\
  Imap.currentMailbox (Imap.deleteEmail mailServer "3" None (Some true) newSession).2 = None /\
  Imap.currentMailbox (Imap.markEmailsRead mailServer ["3"] None newSession).2 = Some "INBOX" /\
  Imap.log (Imap.selectMailbox mailServer "INBOX"
              (Imap.mkSession true (Some "Archive") [Imap.Connect])).2
    = [Imap.Connect; Imap.MailboxOpen "INBOX"].
Proof.
  destruct (mailbox_cache_discipline mailServer)
    as (_ & Hlog & _ & Htwo & Hmove & Hmoves & Hdel & Hmark).
  split; [exact (Htwo (plainServer_healthy _ _ _ _) (noCriteria None None) ["3"] newSession)|].
  split; [apply (Hmove "3" "INBOX" "Archive" newSession); by vm_compute|].
  split; [apply (Hmoves ["3"; "x"] "INBOX" "Archive" newSession); [done | by vm_compute]|].
  split; [apply (Hdel "3" None (Some true) newSession); by vm_compute|].
  split; [apply (Hmark ["3"] None newSession); by vm_compute|].
  by apply (Hlog "INBOX" (Imap.mkSession true (Some "Archive") [Imap.Connect])).
Defined.

(** C7, as stated, fails for the flag change: after [markEmailsRead] the
    folder is still the cached mailbox, and the next operation on it sends
    no select command. *)
Lemma flag_change_keeps_selection :
  let once := Imap.markEmailsRead noTrashServer ["7"] (Some "INBOX") newSession in
  let twice := Imap.markEmailsRead noTrashServer ["8"] (Some "INBOX") once.2 in
  once.1 = Ok tt /\
  Imap.currentMailbox once.2 = Some "INBOX" /\
  Imap.currentMailbox once.2 <> None /\
  Imap.log twice.2 =
    [Imap.Connect; Imap.MailboxOpen "INBOX";
     Imap.MessageFlagsAdd (Imap.Many [7]) ["\Seen"];
     Imap.MessageFlagsAdd (Imap.Many [8]) ["\Seen"]].
Proof. by vm_compute. Qed.

(** ** Downloading an attachment *)

Lemma find_first_Some {A} (p : A -> bool) (l : list A) (i : nat) (x : A) :
  l !! i = Some x -> p x = true ->
  (forall j y, (j < i)%nat -> l !! j = Some y -> p y = false) ->
  List.find p l = Some x.
Proof.
  revert i. induction l as [|y l IH]; intros i Hi Hp Hfirst; [done|].
  destruct i as [|i]; simpl in *.
  - injection Hi as ->. by rewrite Hp.
  - rewrite (Hfirst 0%nat y) by (done || lia).
    apply (IH i); [done..|]. intros j z Hj Hz. apply (Hfirst (Datatypes.S j)); [lia | done].
Qed.

Section AttachmentFacts.
Variable srv : Imap.Server.

#[local] Abbreviation matches partId :=
  (fun att => bool_decide (Imap.contentId att = Some partId)
              || bool_decide (Imap.filename att = Some partId)).

Lemma matches_namedBy partId att : matches partId att = true <-> namedBy partId att.
Proof. unfold namedBy. by rewrite orb_true_iff, !bool_decide_eq_true. Qed.

Lemma matches_not_namedBy partId att : matches partId att = false <-> ~ namedBy partId att.
Proof. rewrite <- matches_namedBy. symmetry. apply not_true_iff_false. Qed.

Lemma locate_undefined partId :
  Imap.locateAttachment None partId = Imap.locateAttachment (Some []) partId.
Proof.
  unfold Imap.locateAttachment. simpl. unfold JS.index.
  destruct (JS.parseInt partId) as [z|]; [|done]. by destruct (0 <=? z).
Qed.

Lemma locate_named atts partId att :
  List.find (matches partId) atts = Some att ->
  Imap.locateAttachment (Some atts) partId =
    Ok (Imap.mkDownload (Imap.content att) (JS.orElse (Imap.filename att) "attachment")
                        (Imap.contentType att)).
Proof. intros H. unfold Imap.locateAttachment, JS.find. simpl. by rewrite H. Qed.

Lemma locate_position atts partId :
  List.find (matches partId) atts = None ->
  Imap.locateAttachment (Some atts) partId =
    match JS.index atts (JS.parseInt partId) with
    | Some att =>
        Ok (Imap.mkDownload (Imap.content att)
              (JS.orElse (Imap.filename att)
                 ("attachment-" +:+ from_option Imap.toString "NaN" (JS.parseInt partId)))
              (Imap.contentType att))
    | None => Throw (AttachmentNotFound partId)
    end.
Proof. intros H. unfold Imap.locateAttachment, JS.find. simpl. by rewrite H. Qed.

Lemma downloadAttachment_after_select uid partId folder s s1 source :
  bind (Imap.ensureConnected srv)
       (fun _ => Imap.selectMailbox srv (JS.orElse folder "INBOX")) s = (Ok tt, s1) ->
  Imap.fails srv (Imap.log s1) (Imap.FetchOne (JS.parseInt uid)) = None ->
  Imap.fetchedOne srv (Imap.log s1) (JS.parseInt uid) = Some (Some source) ->
  Imap.downloadAttachment srv uid partId folder s =
    (Imap.locateAttachment (Imap.parsed srv source) partId,
     Imap.mkSession (Imap.client s1) (Imap.currentMailbox s1)
                    (Imap.log s1 ++ [Imap.FetchOne (JS.parseInt uid)])).
Proof.
  intros Hpre Hok Hfetch. apply bind_ok_inv in Hpre as ([] & s0 & He & Hsel).
  unfold Imap.downloadAttachment.
  rewrite (bind_ok _ _ _ _ _ He), (bind_ok _ _ _ _ _ Hsel).
  unfold bind, gets. rewrite send_eq, Hok, Hfetch.
  by destruct (Imap.locateAttachment _ _).
Qed.
End AttachmentFacts.

(** C9 (amended) — Attachment lookup.  Once the mailbox is selected and
    the message is fetched and parsed, [downloadAttachment] returns the
    first attachment, in message order, whose content-id or filename equals
    the identifier; when there is none, the attachment at the position
    [parseInt(identifier)]; and it throws "Attachment not found" when
    neither exists.  With the identifier "0", when no attachment has "0" as
    content-id or filename, it returns the bytes of the first attachment. *)
Theorem attachment_lookup :
  forall (srv : Imap.Server) (uid partId : string) (folder : option string)
         (s s1 : Imap.Session) (source : list Byte.byte),
    bind (Imap.ensureConnected srv)
         (fun _ => Imap.selectMailbox srv (JS.orElse folder "INBOX")) s = (Ok tt, s1) ->
    Imap.fails srv (Imap.log s1) (Imap.FetchOne (JS.parseInt uid)) = None ->
    Imap.fetchedOne srv (Imap.log s1) (JS.parseInt uid) = Some (Some source) ->
    let atts := default [] (Imap.parsed srv source) in
    let run := Imap.downloadAttachment srv uid partId folder s in
    (forall i att,
        atts !! i = Some att -> namedBy partId att ->
        (forall j b, (j < i)%nat -> atts !! j = Some b -> ~ namedBy partId b) ->
        run.1 = Ok (Imap.mkDownload (Imap.content att)
                      (JS.orElse (Imap.filename att) "attachment") (Imap.contentType att))) /\
    ((forall b, b ∈ atts -> ~ namedBy partId b) ->
     forall att,
       JS.index atts (JS.parseInt partId) = Some att ->
       exists d, run.1 = Ok d /\ Imap.dlContent d = Imap.content att /\
                 Imap.dlMimeType d = Imap.contentType att) /\
    ((forall b, b ∈ atts -> ~ namedBy partId b) ->
     JS.index atts (JS.parseInt partId) = None ->
     run.1 = Throw (AttachmentNotFound partId)) /\
    (partId = "0" ->
     (forall b, b ∈ atts -> ~ namedBy "0" b) ->
     forall first rest, atts = first :: rest ->
       exists d, run.1 = Ok d /\ Imap.dlContent d = Imap.content first).
Proof.
  intros srv uid partId folder s s1 source Hpre Hok Hfetch atts run.
  assert (run.1 = Imap.locateAttachment (Some atts) partId) as Hrun.
  { subst run atts.
    rewrite (downloadAttachment_after_select srv uid partId folder s s1 source Hpre Hok Hfetch).
    simpl. destruct (Imap.parsed srv source); [done | apply locate_undefined]. }
  assert (forall p, (forall b, b ∈ atts -> ~ namedBy p b) ->
                    List.find (fun att => bool_decide (Imap.contentId att = Some p)
                                          || bool_decide (Imap.filename att = Some p)) atts
                    = None) as Hnone.
  { intros p Hno. apply find_None_all. rewrite Forall_forall. intros b Hb.
    apply matches_not_namedBy. by apply Hno. }
  rewrite Hrun. repeat split.
  - intros i att Hi Hnamed Hfirst. apply locate_named.
    apply (find_first_Some _ atts i att Hi); [by apply matches_namedBy|].
    intros j b Hj Hb. apply matches_not_namedBy. by eapply Hfirst.
  - intros Hno att Hidx. rewrite locate_position by by apply Hnone.
    rewrite Hidx. eauto.
  - intros Hno Hidx. rewrite locate_position by by apply Hnone. by rewrite Hidx.
  - intros -> Hno first rest Hatts. rewrite locate_position by by apply Hnone.
    rewrite Hatts. simpl. eauto.
Qed.

Lemma attachment_lookup_witness :
  (exists d,
      (Imap.downloadAttachment (attachmentServer unnamedOnly) "12" "0" None newSession).1 = Ok d /\
      Imap.dlContent d = bytes [7; 7]) /\
  (Imap.downloadAttachment (attachmentServer fileThenCid) "12" "inline.png" None newSession).1
    = Ok (Imap.mkDownload (bytes [2; 2]) "inline.png" "image/png") /\
  (Imap.downloadAttachment (attachmentServer unnamedOnly) "12" "report.pdf" None newSession).1
    = Throw (AttachmentNotFound "report.pdf").
Proof.
  assert (forall p, (p = "0" \/ p = "report.pdf") ->
                    forall b, b ∈ default [] (Some unnamedOnly) -> ~ namedBy p b) as Hno.
  { intros p Hp b Hb [H|H]; apply list_elem_of_singleton in Hb; subst b; discriminate H. }
  split; [|split].
  - destruct (attachment_lookup (attachmentServer unnamedOnly) "12" "0" None newSession
                (opened newSession "INBOX") [])
      as (_ & _ & _ & Hzero); [reflexivity..|].
    apply (Hzero eq_refl (Hno "0" (or_introl eq_refl)) _ [] eq_refl).
  - destruct (attachment_lookup (attachmentServer fileThenCid) "12" "inline.png" None newSession
                (opened newSession "INBOX") [])
      as (Hnamed & _); [reflexivity..|].
    apply (Hnamed 1%nat _ eq_refl); [by right|].
    intros [|j] b Hj Hb; [|lia]. injection Hb as <-. intros [H|H]; discriminate H.
  - destruct (attachment_lookup (attachmentServer unnamedOnly) "12" "report.pdf" None newSession
                (opened newSession "INBOX") [])
      as (_ & _ & Hmissing & _); [reflexivity..|].
    apply Hmissing; [apply Hno; by right | reflexivity].
Defined.

(** C9, as stated, fails on both counts.  The identifier "0" does not
    return the bytes of a first attachment without content-id and filename
    when another attachment is the file named "0"; and an attachment that
    matches by filename is returned before a later one that matches by
    content-id, where the three tiers of the specification give the latter. *)
Lemma attachment_tiers_differ :
  (Imap.contentId <$> unnamedThenZero !! 0%nat = Some None /\
   Imap.filename <$> unnamedThenZero !! 0%nat = Some None /\
   match (Imap.downloadAttachment (attachmentServer unnamedThenZero) "12" "0" None
            newSession).1 with
   | Ok d => Imap.dlContent d = bytes [2; 2] /\
             Some (Imap.dlContent d) <> (Imap.content <$> unnamedThenZero !! 0%nat)
   | Throw _ => False
   end) /\
  (match (Imap.downloadAttachment (attachmentServer fileThenCid) "12" "logo.png" None
            newSession).1 with
   | Ok d => Imap.dlContent d = bytes [1; 1; 1] /\
             Some (Imap.dlContent d) <>
               (Imap.content <$> locateThreeTier fileThenCid "logo.png")
   | Throw _ => False
   end).
Proof. vm_compute. repeat split; discriminate. Qed.
(* ===================================================================== *)
(** * Further properties of the code                                      *)
(* ===================================================================== *)

(** ** Numbers and their decimal notation *)

Ltac digit_step :=
  match goal with
  | |- context [JS.isDigit ?c] => change (JS.isDigit c) with true
  end;
  match goal with
  | |- context [JS.digitValue ?c] =>
      let v := eval vm_compute in (JS.digitValue c) in
      change (JS.digitValue c) with v
  end;
  cbn match; cbn [default from_option]; unfold id.

Lemma digits_acc_pos (d : Decimal.uint) (p : positive) :
  JS.digits (Some (Z.pos p)) (NilEmpty.string_of_uint d) = Some (Z.pos (Pos.of_uint_acc d p)).
Proof.
  revert p. induction d; intros p; cbn [NilEmpty.string_of_uint Pos.of_uint_acc JS.digits];
    [done | digit_step; rewrite <- IHd; do 2 f_equal; lia ..].
Qed.

Lemma digits_zero (d : Decimal.uint) :
  JS.digits (Some 0) (NilEmpty.string_of_uint d) = Some (Z.of_N (Pos.of_uint d)).
Proof.
  induction d; cbn [NilEmpty.string_of_uint Pos.of_uint JS.digits];
    [done | digit_step ..];
    [exact IHd | exact (digits_acc_pos d _) ..].
Qed.

Lemma digits_uint (d : Decimal.uint) :
  d <> Decimal.Nil ->
  JS.digits None (NilEmpty.string_of_uint d) = Some (Z.of_N (Pos.of_uint d)).
Proof.
  intros Hd. destruct d; [done | ..];
    cbn [NilEmpty.string_of_uint Pos.of_uint JS.digits]; digit_step;
    [apply digits_zero | exact (digits_acc_pos d _) ..].
Qed.

Lemma digits_positive (p : positive) :
  JS.digits None (NilEmpty.string_of_uint (Pos.to_uint p)) = Some (Z.pos p).
Proof.
  rewrite digits_uint by apply DecimalPos.Unsigned.to_uint_nonnil.
  by rewrite DecimalPos.Unsigned.of_to.
Qed.

Lemma trimStart_digit c s : JS.isWhiteSpace c = false -> JS.trimStart (String c s) = String c s.
Proof. intros H. simpl. by rewrite H. Qed.

(** Reading back the decimal notation of an integer gives the integer. *)
Lemma parseInt_toString (z : Z) : JS.parseInt (Imap.toString z) = Some z.
Proof.
  unfold Imap.toString, JS.parseInt. destruct z as [|p|p]; [done | |];
    cbn [Z.to_int NilZero.string_of_int];
    pose proof (digits_positive p) as Hd;
    pose proof (DecimalPos.Unsigned.to_uint_nonnil p) as Hnil.
  - destruct (Pos.to_uint p) as [|d|d|d|d|d|d|d|d|d|d] eqn:Hp; [done | ..];
      cbn [NilZero.string_of_uint NilEmpty.string_of_uint] in *;
      rewrite trimStart_digit by done; exact Hd.
  - rewrite trimStart_digit by done. cbn match.
    destruct (Pos.to_uint p) as [|d|d|d|d|d|d|d|d|d|d] eqn:Hp; [done | ..];
      cbn [NilZero.string_of_uint NilEmpty.string_of_uint] in *; by rewrite Hd.
Qed.

(** ** Sorting by a key, largest first *)

Section SortByKey.
Context {A : Type} (f : A -> Z).

#[local] Abbreviation byKey := (fun a b : A => f b - f a <=? 0).
#[local] Abbreviation notAfter := (fun a b : A => f b <= f a).

Lemma insert_byKey_sorted x l :
  StronglySorted notAfter l -> StronglySorted notAfter (JS.insert byKey x l).
Proof.
  induction 1 as [|y l Hl IH Hy]; simpl; [repeat constructor|].
  destruct (Z.leb_spec (f y - f x) 0) as [Hle|Hgt].
  - constructor; [by constructor|].
    constructor; [lia|]. eapply Forall_impl; [exact Hy|]. simpl. lia.
  - constructor; [exact IH|]. rewrite insert_perm. constructor; [lia | exact Hy].
Qed.

Lemma sort_byKey_sorted l : StronglySorted notAfter (JS.sort byKey l).
Proof.
  induction l as [|x l IH]; [constructor|]. by apply insert_byKey_sorted.
Qed.

(** The sort is stable: items with the same key keep their order. *)
Lemma insert_byKey_stable t x l :
  filter (fun a => f a = t) (JS.insert byKey x l) = filter (fun a => f a = t) (x :: l).
Proof.
  induction l as [|y l IH]; simpl; [done|].
  destruct (Z.leb_spec (f y - f x) 0) as [Hle|Hgt]; [done|].
  rewrite (filter_cons _ y), IH, !(filter_cons _ x), (filter_cons _ y).
  destruct (decide (f x = t)), (decide (f y = t)); try done. lia.
Qed.

Lemma sort_byKey_stable t l :
  filter (fun a => f a = t) (JS.sort byKey l) = filter (fun a => f a = t) l.
Proof.
  induction l as [|x l IH]; [done|].
  change (JS.sort byKey (x :: l)) with (JS.insert byKey x (JS.sort byKey l)).
  rewrite insert_byKey_stable, !(filter_cons _ x), IH. done.
Qed.

(** The head of a list sorted this way has the largest key. *)
Lemma sorted_head_max x l y :
  StronglySorted notAfter (x :: l) -> y ∈ x :: l -> f y <= f x.
Proof.
  intros Hs Hy. apply StronglySorted_inv in Hs as [_ Hx].
  apply elem_of_cons in Hy as [->|Hy]; [lia|].
  rewrite Forall_forall in Hx. by apply Hx.
Qed.
End SortByKey.

(** ** The account list *)

(** X1 — [listAccounts] (both managers) returns every registry entry
    exactly once, most recently used first, entries used at the same
    instant in registry order; it changes nothing. *)
Theorem listAccounts_most_recent_first :
  forall (S C K : Type) (s : State S C K),
  exists l,
    listAccounts s = (Ok l, s) /\
    l ≡ₚ Obj.values (registry s) /\
    StronglySorted (fun a b => lastUsed b <= lastUsed a) l /\
    (forall t, filter (fun a => lastUsed a = t) l =
               filter (fun a => lastUsed a = t) (Obj.values (registry s))).
Proof.
  intros S C K s. exists (sortAccounts (registry s)). unfold sortAccounts.
  split; [done|]. split; [apply sort_perm|].
  split; [apply (sort_byKey_sorted lastUsed) | intros t; apply (sort_byKey_stable lastUsed)].
Qed.

(** ** Which identifiers name an account *)

Lemma elem_get_is_Some {V} (o : list (string * V)) k v :
  (k, v) ∈ o -> is_Some (Obj.get o k).
Proof.
  induction o as [|[k0 v0] o IH]; intros Hin; [by apply elem_of_nil in Hin|].
  simpl. destruct (decide (k0 = k)); [eauto|].
  apply elem_of_cons in Hin as [[= -> ->]|Hin]; [done | auto].
Qed.

Section KnownFacts.
Context {S C K : Type}.
Implicit Types (r : list (string * AccountInfo S)) (s : State S C K).

(** For an identifier that names no member of [Object.prototype], the
    key it resolves to passes the existence test only as a registered
    key. *)
Lemma has_resolve r id :
  plain id -> Obj.has r (resolve r id) = true -> is_Some (Obj.get r (resolve r id)).
Proof.
  intros Hp Hh. destruct (resolve_cases r id) as [Heq|Hs]; [|done].
  rewrite Heq in *. apply has_true in Hh as [H|H]; [done | congruence].
Qed.

(** Such an identifier resolves to a registered key exactly when it is a
    registered key or the alias of an entry. *)
Lemma resolve_registered r id :
  plain id ->
  Obj.has r (resolve r id) = true <->
  is_Some (Obj.get r id) \/ exists k i, (k, i) ∈ r /\ alias i = Some id.
Proof.
  intros Hp. split.
  - intros H. apply (has_resolve r id Hp) in H.
    destruct (Obj.get r id) as [v|] eqn:Hid; [left; eauto|]. right.
    assert (Obj.has r id = false) as Hhas by by apply has_false.
    unfold resolve in H. rewrite Hhas in H.
    destruct (findAlias r id) as [[k i]|] eqn:Hfind; [|by rewrite Hid in H; destruct H].
    apply find_Some_first in Hfind as (n & Hn & Hq & _).
    apply bool_decide_eq_true in Hq. exists k, i. split; [|done].
    by eapply list_elem_of_lookup_2.
  - intros [H|H]; [rewrite resolve_known by done; by apply has_own|].
    destruct (Obj.get r id) as [v|] eqn:Hid;
      [rewrite resolve_known by (rewrite Hid; eauto); apply has_own; rewrite Hid; eauto|].
    assert (Obj.has r id = false) as Hhas by by apply has_false.
    destruct (resolve_alias r id Hhas H) as (n & k & i & Hn & _ & -> & _).
    eapply has_own, elem_get_is_Some. by eapply list_elem_of_lookup_2.
Qed.

Lemma resolve_inherited r id : Obj.inherited id = true -> resolve r id = id.
Proof. intros H. unfold resolve. by rewrite (proj2 (has_true r id)) by by right. Qed.

Lemma hasAccount_eq id s :
  hasAccount id s = (Ok (Obj.has (registry s) (resolve (registry s) id)), s).
Proof. reflexivity. Qed.

Lemma getAccountInfo_eq id s :
  getAccountInfo id s = (Ok (Obj.lookup (registry s) (resolve (registry s) id)), s).
Proof. reflexivity. Qed.

Lemma setActiveAccount_eq id s :
  setActiveAccount id s =
    let key := resolve (registry s) id in
    if Obj.has (registry s) key then
      (Ok tt,
       let r' := touch key (time s (tick s)) (registry s) in
       mkState r' (Some r') (credentialFiles s) (Some key) (clients s) (time s)
               (Datatypes.S (tick s)))
    else (Throw (AccountNotFound id), s).
Proof.
  unfold setActiveAccount, resolveEmailFromAlias, saveRegistry, newDate.
  monad_unfold. simpl. by destruct (Obj.has _ _).
Qed.
End KnownFacts.

(** X2 — Which identifiers name an account.  For an identifier that names
    no member of [Object.prototype], [hasAccount] (both managers) answers
    [true] exactly for a registered email and for the alias of a registered
    account, and [getAccountInfo] returns an entry of the registry for
    exactly these identifiers and [null] for the others; neither throws nor
    changes anything.  [setActiveAccount] and [removeAccount] throw "Account
    not found", leaving everything as it was, for exactly the others.  For
    an identifier that does name such a member ("constructor", "toString",
    ...) [hasAccount] answers [true] and [setActiveAccount] succeeds,
    whatever the registry holds. *)
Theorem hasAccount_registered_email_or_alias :
  (forall (S C K : Type) (s : State S C K) (id : string),
      plain id ->
      (exists b info,
          hasAccount id s = (Ok b, s) /\ getAccountInfo id s = (Ok info, s) /\
          (b = true <-> namesAccount (registry s) id) /\
          (namesAccount (registry s) id ->
           exists i, info = Obj.Own i /\
                     Obj.get (registry s) (resolve (registry s) id) = Some i) /\
          (~ namesAccount (registry s) id -> info = Obj.Undefined)) /\
      (namesAccount (registry s) id -> (setActiveAccount id s).1 = Ok tt) /\
      (~ namesAccount (registry s) id ->
       setActiveAccount id s = (Throw (AccountNotFound id), s))) /\
  (forall (s : State unit ICloud.AccountCredentials unit) (id : string),
      plain id ->
      (namesAccount (registry s) id -> (ICloud.removeAccount id s).1 = Ok tt) /\
      (~ namesAccount (registry s) id ->
       ICloud.removeAccount id s = (Throw (AccountNotFound id), s))) /\
  (forall (Cred : Type) (s : State (list string) Cred (gset string)) (id : string),
      plain id ->
      (namesAccount (registry s) id -> (Gmail.removeAccount id s).1 = Ok tt) /\
      (~ namesAccount (registry s) id ->
       Gmail.removeAccount id s = (Throw (AccountNotFound id), s))) /\
  (forall (S C K : Type) (s : State S C K) (id : string),
      Obj.inherited id = true ->
      hasAccount id s = (Ok true, s) /\ (setActiveAccount id s).1 = Ok tt).
Proof.
  split; [|split; [|split]].
  - intros S C K s id Hp.
    pose proof (resolve_registered (registry s) id Hp) as Hres.
    fold (namesAccount (registry s) id) in Hres.
    split; [|split].
    + exists (Obj.has (registry s) (resolve (registry s) id)),
             (Obj.lookup (registry s) (resolve (registry s) id)).
      split; [apply hasAccount_eq|]. split; [apply getAccountInfo_eq|].
      split; [done|]. split.
      * intros Hk. apply Hres, (has_resolve _ _ Hp) in Hk as [i Hi].
        exists i. split; [by apply lookup_own | done].
      * intros Hk. destruct (Obj.has (registry s) (resolve (registry s) id)) eqn:Hh;
          [by destruct Hk; apply Hres|].
        apply has_false in Hh as [Hget Hinh]. unfold Obj.lookup. by rewrite Hget, Hinh.
    + intros Hk. apply Hres in Hk. rewrite setActiveAccount_eq. cbv zeta. by rewrite Hk.
    + intros Hk. apply setActiveAccount_unknown.
      destruct (Obj.has _ _) eqn:Hg; [|done]. exfalso. by apply Hk, Hres.
  - intros s id Hp.
    pose proof (resolve_registered (registry s) id Hp) as Hres.
    fold (namesAccount (registry s) id) in Hres.
    rewrite icloud_removeAccount_eq. cbv zeta. split.
    + intros Hk. apply Hres in Hk. by rewrite Hk.
    + intros Hk. destruct (Obj.has _ _) eqn:Hg; [|done]. exfalso. by apply Hk, Hres.
  - intros Cred s id Hp.
    pose proof (resolve_registered (registry s) id Hp) as Hres.
    fold (namesAccount (registry s) id) in Hres.
    rewrite gmail_removeAccount_eq. cbv zeta. split.
    + intros Hk. apply Hres in Hk. by rewrite Hk.
    + intros Hk. destruct (Obj.has _ _) eqn:Hg; [|done]. exfalso. by apply Hk, Hres.
  - intros S C K s id Hinh.
    assert (Obj.has (registry s) (resolve (registry s) id) = true) as Hh.
    { rewrite resolve_inherited by done. apply has_true. by right. }
    split; [by rewrite hasAccount_eq, Hh|].
    rewrite setActiveAccount_eq. cbv zeta. by rewrite Hh.
Qed.

Lemma hasAccount_witness :
  hasAccount "home" icloudTwoAccounts = (Ok true, icloudTwoAccounts) /\
  hasAccount "b@icloud.com" icloudTwoAccounts = (Ok true, icloudTwoAccounts) /\
  hasAccount "work" icloudTwoAccounts = (Ok false, icloudTwoAccounts) /\
  (setActiveAccount "home" icloudTwoAccounts).1 = Ok tt /\
  ICloud.removeAccount "work" icloudTwoAccounts =
    (Throw (AccountNotFound "work"), icloudTwoAccounts) /\
  hasAccount "constructor" icloudTwoAccounts = (Ok true, icloudTwoAccounts).
Proof.
  assert (~ namesAccount (registry icloudTwoAccounts) "work") as Hwork.
  { intros [[v Hv]|(k & i & Hin & Ha)]; [discriminate Hv|].
    vm_compute in Hin.
    repeat (apply elem_of_cons in Hin as [[= -> ->]|Hin]; [discriminate Ha|]).
    by apply elem_of_nil in Hin. }
  assert (namesAccount (registry icloudTwoAccounts) "home") as Hhome.
  { right. eexists _, _. split; [vm_compute; left | reflexivity]. }
  destruct hasAccount_registered_email_or_alias as (Hany & Hicloud & _ & Hmember).
  destruct (Hany _ _ _ icloudTwoAccounts "home") as (_ & Hset & _); [reflexivity|].
  destruct (Hicloud icloudTwoAccounts "work") as (_ & Hrem); [reflexivity|].
  destruct (Hmember _ _ _ icloudTwoAccounts "constructor") as [Hhas _]; [reflexivity|].
  split; [reflexivity|]. split; [reflexivity|]. split; [reflexivity|].
  split; [exact (Hset Hhome)|]. split; [exact (Hrem Hwork) | exact Hhas].
Defined.

(** ** Switching the active account *)

Section TouchFacts.
Context {S : Type}.
Implicit Types (r : list (string * AccountInfo S)) (k : string) (v : AccountInfo S).

(** Writing a property that exists replaces the value of its first (and,
    in an object, only) occurrence. *)
Lemma set_split r k v0 v :
  Obj.get r k = Some v0 ->
  exists l1 l2, r = l1 ++ (k, v0) :: l2 /\ Obj.set r k v = l1 ++ (k, v) :: l2 /\
                k ∉ Obj.keys l1.
Proof.
  induction r as [|[k0 i0] r IH]; simpl; [done|].
  destruct (decide (k0 = k)) as [->|Hne].
  - intros [= ->]. exists [], r. split; [done|]. split; [done|]. apply not_elem_of_nil.
  - intros H. destruct (IH H) as (l1 & l2 & -> & -> & Hk).
    exists ((k0, i0) :: l1), l2. split; [done|]. split; [done|].
    unfold Obj.keys in *. csimpl. rewrite not_elem_of_cons. split; [congruence | done].
Qed.

Lemma find_skip {A} (p : A -> bool) (l1 l2 : list A) (x y : A) :
  p x = p y ->
  match List.find p (l1 ++ x :: l2), List.find p (l1 ++ y :: l2) with
  | Some a, Some b => a = b \/ (a = x /\ b = y)
  | None, None => True
  | _, _ => False
  end.
Proof.
  intros Hp. induction l1 as [|z l1 IH]; simpl.
  - rewrite Hp. destruct (p y); [by right|]. destruct (List.find p l2); [by left | done].
  - destruct (p z); [by left | exact IH].
Qed.

(** Updating [lastUsed] changes neither the keys nor what an identifier
    resolves to. *)
Lemma keys_touch r k d : Obj.keys (touch k d r) = Obj.keys r.
Proof.
  unfold touch. destruct (Obj.get r k) eqn:Hk; [|done].
  apply keys_set_known. eauto.
Qed.

Lemma resolve_touch r k d id : resolve (touch k d r) id = resolve r id.
Proof.
  unfold resolve.
  assert (Obj.has (touch k d r) id = Obj.has r id) as ->.
  { unfold Obj.has. f_equal. apply bool_decide_ext, get_touch. }
  destruct (Obj.has r id); [done|].
  unfold touch, findAlias. destruct (Obj.get r k) as [i|] eqn:Hk; [|done].
  destruct (set_split r k i
              (mkAccountInfo (email i) (alias i) (credentialsPath i) d (scopes i)) Hk)
    as (l1 & l2 & Hr & -> & _).
  rewrite Hr.
  pose proof (find_skip (fun p => bool_decide (alias p.2 = Some id)) l1 l2
                (k, mkAccountInfo (email i) (alias i) (credentialsPath i) d (scopes i))
                (k, i) eq_refl) as H.
  destruct (List.find _ (l1 ++ (k, mkAccountInfo _ _ _ _ _) :: l2)) as [[k1 i1]|],
           (List.find _ (l1 ++ (k, i) :: l2)) as [[k2 i2]|]; try done.
  by destruct H as [[= -> ->]|[[= -> ->] [= -> ->]]].
Qed.

Lemma get_touch_eq r k d i :
  Obj.get r k = Some i ->
  Obj.get (touch k d r) k =
    Some (mkAccountInfo (email i) (alias i) (credentialsPath i) d (scopes i)).
Proof. intros H. unfold touch. rewrite H. apply get_set_eq. Qed.

Lemma get_touch_ne r k k' d : k <> k' -> Obj.get (touch k d r) k' = Obj.get r k'.
Proof.
  intros H. unfold touch. destruct (Obj.get r k); [|done]. by apply get_set_ne.
Qed.

(** The account that was just used comes first in the sorted list when the
    clock has passed every recorded date. *)
Lemma touched_first r k d i :
  Obj.get r k = Some i ->
  (forall k' i', (k', i') ∈ r -> lastUsed i' < d) ->
  exists rest,
    sortAccounts (touch k d r) =
      mkAccountInfo (email i) (alias i) (credentialsPath i) d (scopes i) :: rest /\
    Forall (fun a => lastUsed a < d) rest.
Proof.
  intros Hk Hclock. set (v := mkAccountInfo _ _ _ d _).
  unfold touch. rewrite Hk. fold v.
  destruct (set_split r k i v Hk) as (l1 & l2 & Hr & Hset & _). rewrite Hset.
  assert (Forall (fun a : AccountInfo S => lastUsed a < d) ((l1 ++ l2).*2)) as Hold.
  { rewrite Forall_forall. intros a Ha.
    apply list_elem_of_fmap in Ha as ([k' a'] & Heq & Hin). simpl in Heq. subst a.
    apply (Hclock k' a'). rewrite Hr. apply elem_of_app.
    apply elem_of_app in Hin as [Hin|Hin]; [by left | right; by right]. }
  assert (sortAccounts (l1 ++ (k, v) :: l2) ≡ₚ v :: (l1 ++ l2).*2) as Hperm.
  { unfold sortAccounts, Obj.values. rewrite sort_perm, !fmap_app. csimpl.
    by rewrite Permutation_middle. }
  pose proof (sort_byKey_sorted lastUsed (Obj.values (l1 ++ (k, v) :: l2))) as Hsorted.
  fold (sortAccounts (l1 ++ (k, v) :: l2)) in Hsorted.
  destruct (sortAccounts (l1 ++ (k, v) :: l2)) as [|h rest] eqn:Hl.
  { apply Permutation_nil_l in Hperm. done. }
  assert (h = v) as ->.
  { assert (h ∈ v :: (l1 ++ l2).*2) as Hh by (rewrite <- Hperm; left).
    apply elem_of_cons in Hh as [->|Hh]; [done|]. exfalso.
    rewrite Forall_forall in Hold. specialize (Hold h Hh).
    assert (lastUsed v <= lastUsed h) as Hle.
    { apply (sorted_head_max lastUsed h rest v Hsorted). rewrite Hperm. left. }
    simpl in Hle. lia. }
  exists rest. split; [done|]. apply Permutation_cons_inv in Hperm. by rewrite Hperm.
Qed.
End TouchFacts.

(** ** Looking up credentials *)

Section CredentialFacts.
Implicit Types (s : State unit ICloud.AccountCredentials unit).

Lemma getCredentials_tail label key s :
  (known <- gets (fun s => Obj.has (registry s) key) ;;
   if negb known then
     names <- gets (fun s => ICloud.available (registry s)) ;;
     throw (AccountNotFoundAvailable label names)
   else
     credentialsPath <- gets (fun s => credentialsPath <$> Obj.get (registry s) key) ;;
     file <- gets (fun s => credentialsPath ≫= (fun p => credentialFiles s !! p)) ;;
     match file with
     | None => throw (CredentialsFileNotFound key)
     | Some credentials =>
         d <- newDate ;;
         modify (fun s => setRegistry (touch key d (registry s)) s) ;;
         saveRegistry ;;
         ret credentials
     end) s = credentialsOf label key s.
Proof.
  unfold credentialsOf, saveRegistry, newDate. monad_unfold. simpl.
  destruct (Obj.has _ _); simpl; [|done].
  by destruct (_ ≫= _).
Qed.

(** With an identifier. *)
Lemma getCredentials_named name s :
  name <> "" ->
  ICloud.getCredentials (Some name) s = credentialsOf name (resolve (registry s) name) s.
Proof.
  intros Hid. destruct name as [|c name]; [done|].
  unfold ICloud.getCredentials. cbn [JS.truthy default from_option id JS.orElse].
  unfold resolveEmailFromAlias. unfold bind at 1, gets at 1.
  apply getCredentials_tail.
Qed.

(** Without one ([undefined] or the empty string), when an account is
    active. *)
Lemma getCredentials_active id a s :
  JS.truthy id = false -> readActive s = Some a -> a <> "" ->
  ICloud.getCredentials id s = credentialsOf a a s.
Proof.
  intros Hid Ha Hne. unfold ICloud.getCredentials. rewrite Hid.
  unfold getActiveAccount. unfold bind at 1, bind at 1, gets at 1. rewrite Ha.
  destruct a as [|c a]; [done|]. cbn [JS.truthy default from_option]. unfold ret at 1.
  unfold JS.orElse. rewrite Hid. apply getCredentials_tail.
Qed.

(** Without one, when no account is active. *)
Lemma getCredentials_inactive id s :
  JS.truthy id = false -> noActiveAccount s ->
  ICloud.getCredentials id s =
    match sortAccounts (registry s) with
    | [] => (Throw NoAccounts, s)
    | [only] =>
        match setActiveAccount (email only) s with
        | (Ok _, s1) => credentialsOf (email only) (email only) s1
        | (Throw e, s1) => (Throw e, s1)
        end
    | _ => (Throw NoActiveAccount, s)
    end.
Proof.
  intros Hid Hact. unfold ICloud.getCredentials. rewrite Hid.
  unfold getActiveAccount, listAccounts.
  unfold bind at 1, bind at 1, gets at 1. unfold noActiveAccount in Hact. rewrite Hact.
  unfold bind at 1, gets at 1.
  destruct (sortAccounts (registry s)) as [|only [|second rest]]; [done | | done].
  unfold bind at 1, bind at 1.
  destruct (setActiveAccount (email only) s) as [[[]|e] s1]; [|done].
  unfold ret at 1. unfold JS.orElse. rewrite Hid. apply getCredentials_tail.
Qed.
End CredentialFacts.

(** X3 — The [switch_account] tools.  For an identifier that resolves to
    a registered email, the call succeeds, writes that email to the
    active-account file and saves the registry; the iCloud tool reports that
    email, the Gmail tool builds its reply from the entry of that email,
    with the date of the switch; [getActiveAccount] then returns the email,
    trimmed of surrounding whitespace.  For an identifier that resolves to
    nothing the registry object has, the call throws "Account not found" and
    changes nothing. *)
Theorem switch_account_reports_active_account :
  (forall (s : State unit ICloud.AccountCredentials unit) (id : string),
      let key := resolve (registry s) id in
      (is_Some (Obj.get (registry s) key) ->
       exists s',
         ICloudTools.switch_account id s = (Ok key, s') /\
         activeFile s' = Some key /\
         registryFile s' = Some (registry s') /\
         getActiveAccount s' = (Ok (Some (JS.trim key)), s')) /\
      (Obj.has (registry s) key = false ->
       ICloudTools.switch_account id s = (Throw (AccountNotFound id), s))) /\
  (forall (Cred : Type) (s : State (list string) Cred (gset string)) (id : string),
      let key := resolve (registry s) id in
      (forall i,
          Obj.get (registry s) key = Some i ->
          exists s',
            GmailTools.switch_account id s =
              (Ok (Obj.Own (mkAccountInfo (email i) (alias i) (credentialsPath i)
                              (time s (tick s)) (scopes i))), s') /\
            activeFile s' = Some key /\
            registryFile s' = Some (registry s') /\
            getActiveAccount s' = (Ok (Some (JS.trim key)), s')) /\
      (Obj.has (registry s) key = false ->
       GmailTools.switch_account id s = (Throw (AccountNotFound id), s))).
Proof.
  split.
  - intros s id key. split.
    + intros Hk. unfold ICloudTools.switch_account, bind.
      rewrite setActiveAccount_eq. cbv zeta. fold key.
      apply has_own in Hk as Hhas. rewrite Hhas.
      unfold resolveEmailFromAlias, gets. cbn [registry]. rewrite resolve_touch. fold key.
      eexists. split; [reflexivity|]. done.
    + intros Hk. unfold ICloudTools.switch_account, bind.
      by rewrite setActiveAccount_unknown.
  - intros Cred s id key. split.
    + intros i Hk. unfold GmailTools.switch_account, bind.
      rewrite setActiveAccount_eq. cbv zeta. fold key.
      assert (Obj.has (registry s) key = true) as Hhas by (apply has_own; eauto).
      rewrite Hhas, getAccountInfo_eq. cbn [registry]. rewrite resolve_touch. fold key.
      rewrite (lookup_own _ _ _ (get_touch_eq _ _ _ _ Hk)).
      eexists. split; [reflexivity|]. done.
    + intros Hk. unfold GmailTools.switch_account, bind.
      by rewrite setActiveAccount_unknown.
Qed.

Lemma switch_account_witness :
  (exists s',
      ICloudTools.switch_account "home" icloudTwoAccounts = (Ok "a@icloud.com", s') /\
      activeFile s' = Some "a@icloud.com" /\
      getActiveAccount s' = (Ok (Some "a@icloud.com"), s')) /\
  GmailTools.switch_account "nobody" gmailTwoAccounts =
    (Throw (AccountNotFound "nobody"), gmailTwoAccounts).
Proof.
  destruct switch_account_reports_active_account as [Hicloud Hgmail].
  split.
  - destruct (proj1 (Hicloud icloudTwoAccounts "home")) as (s' & Hrun & Hact & _ & Hget);
      [vm_compute; eauto|].
    exists s'. split; [exact Hrun|]. split; [exact Hact | exact Hget].
  - apply (proj2 (Hgmail unit gmailTwoAccounts "nobody")). reflexivity.
Defined.

(** X4 — Most recently used first.  When the clock has passed every date
    recorded in the registry, a successful [setActiveAccount] for an
    identifier that names no member of [Object.prototype], and a successful
    iCloud [getCredentials] with an identifier, leave the account they
    resolved first in [listAccounts], with the date of the call, and every
    other account strictly older. *)
Theorem last_used_account_is_listed_first :
  (forall (S C K : Type) (s s' : State S C K) (id : string),
      plain id ->
      setActiveAccount id s = (Ok tt, s') ->
      (forall k i, (k, i) ∈ registry s -> lastUsed i < time s (tick s)) ->
      exists info rest,
        listAccounts s' = (Ok (info :: rest), s') /\
        Obj.get (registry s') (resolve (registry s) id) = Some info /\
        lastUsed info = time s (tick s) /\
        Forall (fun a => lastUsed a < lastUsed info) rest) /\
  (forall (s s' : State unit ICloud.AccountCredentials unit) (id : string) credentials,
      id <> "" ->
      ICloud.getCredentials (Some id) s = (Ok credentials, s') ->
      (forall k i, (k, i) ∈ registry s -> lastUsed i < time s (tick s)) ->
      exists info rest,
        listAccounts s' = (Ok (info :: rest), s') /\
        Obj.get (registry s') (resolve (registry s) id) = Some info /\
        lastUsed info = time s (tick s) /\
        Forall (fun a => lastUsed a < lastUsed info) rest).
Proof.
  split.
  - intros S C K s s' id Hp Hrun Hclock. rewrite setActiveAccount_eq in Hrun.
    cbv zeta in Hrun.
    destruct (Obj.has _ _) eqn:Hhas; [|done]. injection Hrun as <-.
    apply (has_resolve _ _ Hp) in Hhas as [i Hi].
    destruct (touched_first _ _ _ _ Hi Hclock) as (rest & Hsort & Hrest).
    eexists _, rest. unfold listAccounts, gets. cbn [registry]. rewrite Hsort.
    split; [reflexivity|]. split; [by apply get_touch_eq|]. done.
  - intros s s' id credentials Hid Hrun Hclock. rewrite getCredentials_named in Hrun by done.
    unfold credentialsOf in Hrun.
    destruct (Obj.has _ _); [|done].
    destruct (Obj.get _ _) as [i|] eqn:Hi; [|done]. simpl in Hrun.
    destruct (credentialFiles s !! _); [|done]. injection Hrun as _ <-.
    destruct (touched_first _ _ _ _ Hi Hclock) as (rest & Hsort & Hrest).
    eexists _, rest. unfold listAccounts, gets. cbn [registry]. rewrite Hsort.
    split; [reflexivity|]. split; [by apply get_touch_eq|]. done.
Qed.

Lemma last_used_witness :
  exists info rest,
    listAccounts (setActiveAccount "home" icloudTicking).2 =
      (Ok (info :: rest), (setActiveAccount "home" icloudTicking).2) /\
    Obj.get (registry (setActiveAccount "home" icloudTicking).2) "a@icloud.com" = Some info /\
    lastUsed info = 3.
Proof.
  destruct (proj1 last_used_account_is_listed_first _ _ _ icloudTicking
              (setActiveAccount "home" icloudTicking).2 "home")
    as (info & rest & Hlist & Hget & Hdate & _).
  - reflexivity.
  - by vm_compute.
  - intros k i Hin. vm_compute in Hin.
    repeat (apply elem_of_cons in Hin as [[= -> ->]|Hin]; [by vm_compute|]).
    by apply elem_of_nil in Hin.
  - exists info, rest. split; [exact Hlist|]. split; [exact Hget | exact Hdate].
Defined.

(** ** What every call of a manager preserves *)

Section RegistryFacts.
Context {S : Type}.
Implicit Types (r : list (string * AccountInfo S)) (k : string) (v : AccountInfo S).

Lemma delete_sublist r k : Obj.delete r k `sublist_of` r.
Proof.
  induction r as [|[k0 v0] r IH]; simpl; [done|].
  destruct (decide (k0 = k)); by constructor.
Qed.

Lemma NoDup_keys_delete r k : NoDup (Obj.keys r) -> NoDup (Obj.keys (Obj.delete r k)).
Proof.
  intros H. eapply sublist_NoDup; [exact H|]. apply fmap_sublist, delete_sublist.
Qed.

Lemma Forall_delete (P : string * AccountInfo S -> Prop) r k :
  Forall P r -> Forall P (Obj.delete r k).
Proof.
  rewrite !Forall_forall. intros H x Hx. apply H.
  eapply elem_of_sublist; [exact Hx | apply delete_sublist].
Qed.

Lemma Forall_set (P : string * AccountInfo S -> Prop) r k v :
  Forall P r -> P (k, v) -> Forall P (Obj.set r k v).
Proof.
  intros Hr Hv. induction r as [|[k0 v0] r IH]; simpl; [by repeat constructor|].
  apply Forall_cons in Hr as [H0 Hr].
  destruct (decide (k0 = k)); constructor; auto.
Qed.


Lemma wellFormed_set dir r k v :
  wellFormed dir r -> email v = k -> credentialsPath v = credentialsPathIn dir k ->
  wellFormed dir (Obj.set r k v).
Proof.
  intros [Hnd Hall] He Hp. split; [by apply NoDup_keys_set | by apply Forall_set].
Qed.

Lemma wellFormed_delete dir r k : wellFormed dir r -> wellFormed dir (Obj.delete r k).
Proof. intros [Hnd Hall]. split; [by apply NoDup_keys_delete | by apply Forall_delete]. Qed.

Lemma wellFormed_entry dir r k i :
  wellFormed dir r -> Obj.get r k = Some i ->
  email i = k /\ credentialsPath i = credentialsPathIn dir k.
Proof.
  intros [_ Hall] Hk. apply get_Some_elem in Hk. rewrite Forall_forall in Hall.
  apply (Hall (k, i) Hk).
Qed.

Lemma wellFormed_touch dir r k d : wellFormed dir r -> wellFormed dir (touch k d r).
Proof.
  intros H. unfold touch. destruct (Obj.get r k) as [i|] eqn:Hk; [|done].
  destruct (wellFormed_entry dir r k i H Hk). by apply wellFormed_set.
Qed.

Lemma wellFormed_assignAlias dir r k a :
  wellFormed dir r -> wellFormed dir (assignAlias k a r).
Proof.
  intros H. unfold assignAlias. destruct (Obj.get r k) as [i|] eqn:Hk; [|done].
  destruct (wellFormed_entry dir r k i H Hk). by apply wellFormed_set.
Qed.



Lemma keys_set_elem r k v x : x ∈ Obj.keys (Obj.set r k v) -> x = k \/ x ∈ Obj.keys r.
Proof.
  destruct (Obj.get r k) eqn:Hk.
  - rewrite keys_set_known by eauto. auto.
  - rewrite keys_set_fresh by done. rewrite elem_of_app, list_elem_of_singleton. tauto.
Qed.

Lemma get_is_Some_keys r k : is_Some (Obj.get r k) <-> k ∈ Obj.keys r.
Proof.
  destruct (Obj.get r k) eqn:Hk.
  - split; [intros _ | eauto]. destruct (decide (k ∈ Obj.keys r)) as [|Hn]; [done|].
    apply get_None_keys in Hn. congruence.
  - split; [by intros [? ?]|]. intros Hin. by apply get_None_keys in Hk.
Qed.
End RegistryFacts.

Section StateFacts.
Context {S C K : Type}.
Implicit Types (s : State S C K) (key : string).

Lemma setActiveAccount_state id s :
  (setActiveAccount id s).2 =
    if Obj.has (registry s) (resolve (registry s) id)
    then activated (resolve (registry s) id) s else s.
Proof. rewrite setActiveAccount_eq. cbv zeta. by destruct (Obj.has _ _). Qed.

Lemma saved_refreshed key s : saved (refreshed key s).
Proof. by left. Qed.

Lemma saved_activated key s : saved (activated key s).
Proof. by left. Qed.

Lemma saved_setActiveAccount id s : saved s -> saved (setActiveAccount id s).2.
Proof.
  intros H. rewrite setActiveAccount_state. destruct (Obj.has _ _); [by left | done].
Qed.

Lemma wellFormed_setActiveAccount dir id s :
  wellFormed dir (registry s) -> wellFormed dir (registry (setActiveAccount id s).2).
Proof.
  intros H. rewrite setActiveAccount_state. destruct (Obj.has _ _); [|done].
  by apply wellFormed_touch.
Qed.








End StateFacts.

Section ICloudInvariants.
Implicit Types (s : State unit ICloud.AccountCredentials unit).

Lemma credentialsOf_state label key s :
  (credentialsOf label key s).2 = s \/ (credentialsOf label key s).2 = refreshed key s.
Proof.
  unfold credentialsOf. destruct (Obj.has _ _); [|by left].
  destruct (_ ≫= _); [by right | by left].
Qed.

(** The states [getCredentials] can leave: the one it started from or the
    one after the activation of a listed account, possibly with a date
    refreshed. *)
Lemma getCredentials_state id s :
  exists s1,
    (s1 = s \/
     exists only, only ∈ Obj.values (registry s) /\ s1 = (setActiveAccount (email only) s).2) /\
    ((ICloud.getCredentials id s).2 = s1 \/
     exists key, (ICloud.getCredentials id s).2 = refreshed key s1).
Proof.
  destruct (JS.truthy id) eqn:Hid.
  - destruct id as [[|c id]|]; try done. rewrite getCredentials_named by done.
    exists s. split; [by left|].
    destruct (credentialsOf_state (String c id) (resolve (registry s) (String c id)) s);
      eauto.
  - destruct (JS.truthy (readActive s)) eqn:Hact.
    + destruct (readActive s) as [[|c a]|] eqn:Ha; try done.
      rewrite (getCredentials_active id (String c a)) by done.
      exists s. split; [by left|].
      destruct (credentialsOf_state (String c a) (String c a) s); eauto.
    + rewrite getCredentials_inactive by done.
      destruct (sortAccounts (registry s)) as [|only [|second rest]] eqn:Hl;
        [exists s; split; [by left | by left] | | exists s; split; [by left | by left]].
      exists (setActiveAccount (email only) s).2. split.
      { right. exists only. split; [|done].
        rewrite <- (sort_perm (fun a b : AccountInfo unit => lastUsed b - lastUsed a <=? 0)
                      (Obj.values (registry s))).
        fold (sortAccounts (registry s)). rewrite Hl. left. }
      destruct (setActiveAccount (email only) s) as [[[]|e] s1]; [|by left].
      destruct (credentialsOf_state (email only) (email only) s1); eauto.
Qed.


Lemma icloud_op_saved op s : saved s -> saved (runICloud op s).
Proof.
  intros H. destruct op as [cred a|id|id a|id|id]; simpl.
  - rewrite icloud_addAccount_eq. destruct (icloudAddCollision _ _ _); [done|].
    cbv zeta. case_bool_decide; [|by left]. apply saved_setActiveAccount. by left.
  - rewrite icloud_removeAccount_eq. cbv zeta. destruct (Obj.has _ _); [by left | done].
  - rewrite icloud_setAlias_eq. cbv zeta. destruct (Obj.has _ _); [|done].
    destruct (ICloud.aliasUnavailable _ _ _); [done | by left].
  - by apply saved_setActiveAccount.
  - destruct (getCredentials_state id s) as (s1 & Hs1 & [->| [key ->]]);
      [|apply saved_refreshed].
    destruct Hs1 as [->|(only & _ & ->)]; [done | by apply saved_setActiveAccount].
Qed.

Lemma icloud_op_wellFormed op s :
  wellFormed ICloud.ACCOUNTS_DIR (registry s) ->
  wellFormed ICloud.ACCOUNTS_DIR (registry (runICloud op s)).
Proof.
  intros H. destruct op as [cred a|id|id a|id|id]; simpl.
  - rewrite icloud_addAccount_eq. destruct (icloudAddCollision _ _ _); [done|].
    assert (wellFormed ICloud.ACCOUNTS_DIR (registry (icloudAdded cred a s))) as H1
      by (by apply wellFormed_set).
    cbv zeta. case_bool_decide; [|done]. by apply wellFormed_setActiveAccount.
  - rewrite icloud_removeAccount_eq. cbv zeta. destruct (Obj.has _ _); [|done].
    by apply wellFormed_delete.
  - rewrite icloud_setAlias_eq. cbv zeta. destruct (Obj.has _ _); [|done].
    destruct (ICloud.aliasUnavailable _ _ _); [done|]. by apply wellFormed_assignAlias.
  - by apply wellFormed_setActiveAccount.
  - destruct (getCredentials_state id s) as (s1 & Hs1 & Hs').
    assert (wellFormed ICloud.ACCOUNTS_DIR (registry s1)) as H1.
    { destruct Hs1 as [->|(only & _ & ->)]; [done | by apply wellFormed_setActiveAccount]. }
    destruct Hs' as [->|[key ->]]; [done | by apply wellFormed_touch].
Qed.


End ICloudInvariants.

Section GmailInvariants.
Context {Credentials : Type}.
Implicit Types (s : State (list string) Credentials (gset string)).

Lemma gmail_op_saved (op : GmailOp Credentials) s : saved s -> saved (runGmail op s).
Proof.
  intros H. destruct op as [addr c a sc|id|id a|id]; simpl.
  - rewrite gmail_addAccount_eq. cbv zeta. case_bool_decide; [|by left].
    apply saved_setActiveAccount. by left.
  - rewrite gmail_removeAccount_eq. cbv zeta. destruct (Obj.has _ _); [by left | done].
  - rewrite gmail_setAlias_eq. cbv zeta. destruct (Obj.has _ _); [|done].
    destruct (Gmail.aliasTaken _ _ _); [done | by left].
  - by apply saved_setActiveAccount.
Qed.

Lemma gmail_op_wellFormed (op : GmailOp Credentials) s :
  wellFormed Gmail.ACCOUNTS_DIR (registry s) ->
  wellFormed Gmail.ACCOUNTS_DIR (registry (runGmail op s)).
Proof.
  intros H. destruct op as [addr c a sc|id|id a|id]; simpl.
  - rewrite gmail_addAccount_eq.
    assert (wellFormed Gmail.ACCOUNTS_DIR (registry (gmailAdded addr c a sc s))) as H1
      by (by apply wellFormed_set).
    cbv zeta. case_bool_decide; [|done]. by apply wellFormed_setActiveAccount.
  - rewrite gmail_removeAccount_eq. cbv zeta. destruct (Obj.has _ _); [|done].
    by apply wellFormed_delete.
  - rewrite gmail_setAlias_eq. cbv zeta. destruct (Obj.has _ _); [|done].
    destruct (Gmail.aliasTaken _ _ _); [done|]. by apply wellFormed_assignAlias.
  - by apply wellFormed_setActiveAccount.
Qed.

End GmailInvariants.

Lemma foldl_invariant {A B} (P : A -> Prop) (Q : B -> Prop) (f : A -> B -> A) l a :
  (forall a b, Q b -> P a -> P (f a b)) -> Forall Q l -> P a -> P (foldl f a l).
Proof.
  intros Hstep Hl. revert a. induction Hl as [|b l Hb Hl IH]; intros a Ha; [done|].
  simpl. apply IH. by apply Hstep.
Qed.

Lemma Forall_True {B} (l : list B) : Forall (fun _ => True) l.
Proof. by apply Forall_forall. Qed.

Lemma newAccountManager_eq {S C K} (k : K) (s : State S C K) :
  newAccountManager k s =
    (Ok tt, mkState (default [] (registryFile s)) (registryFile s) (credentialFiles s)
                    (activeFile s) k (time s) (tick s)).
Proof.
  unfold newAccountManager, loadRegistry. monad_unfold.
  unfold setClients, setRegistry. simpl. by destruct (registryFile s).
Qed.

Lemma saved_reload {S C K} (k : K) (s : State S C K) :
  saved s -> registry (newAccountManager k s).2 = registry s.
Proof.
  rewrite newAccountManager_eq. simpl. by intros [->|[-> ->]].
Qed.

(** X5 — Persistence.  Take a manager constructed on any configuration
    directory, and let it serve any sequence of calls, some of which may
    throw.  The registry file then holds exactly the registry of the manager
    (or does not exist yet, the registry being empty), so that a manager
    constructed afterwards starts with the same registry.  Both managers. *)
Theorem registry_survives_restart :
  (forall (ops : list ICloudOp) (s : State unit ICloud.AccountCredentials unit),
      let s1 := runICloudOps ops (newAccountManager tt s).2 in
      saved s1 /\ registry (newAccountManager tt s1).2 = registry s1) /\
  (forall (Cred : Type) (ops : list (GmailOp Cred))
          (s : State (list string) Cred (gset string)),
      let s1 := runGmailOps ops (newAccountManager ∅ s).2 in
      saved s1 /\ registry (newAccountManager ∅ s1).2 = registry s1).
Proof.
  split.
  - intros ops s s1.
    assert (saved s1) as H.
    { apply (foldl_invariant saved (fun _ => True)); [| apply Forall_True |].
      - intros a b _. apply icloud_op_saved.
      - rewrite newAccountManager_eq. unfold saved. simpl.
        destruct (registryFile s); [by left | by right]. }
    split; [exact H | by apply saved_reload].
  - intros Cred ops s s1.
    assert (saved s1) as H.
    { apply (foldl_invariant saved (fun _ => True)); [| apply Forall_True |].
      - intros a b _. apply gmail_op_saved.
      - rewrite newAccountManager_eq. unfold saved. simpl.
        destruct (registryFile s); [by left | by right]. }
    split; [exact H | by apply saved_reload].
Qed.

Lemma NoDup_get {V} (o : list (string * V)) k v :
  NoDup (Obj.keys o) -> (k, v) ∈ o -> Obj.get o k = Some v.
Proof.
  unfold Obj.keys. induction o as [|[k0 v0] o IH]; csimpl; intros Hnd Hin.
  - by apply elem_of_nil in Hin.
  - apply NoDup_cons in Hnd as [Hk0 Hnd]. destruct (decide (k0 = k)) as [->|Hne].
    + apply elem_of_cons in Hin as [[= <-]|Hin]; [done|].
      exfalso. apply Hk0. by apply (list_elem_of_fmap_2 fst) in Hin.
    + apply elem_of_cons in Hin as [[= -> ->]|Hin]; [done | by apply IH].
Qed.

(** What a well-formed registry gives the account list. *)
Lemma wellFormed_list {S C K} dir (s : State S C K) :
  wellFormed dir (registry s) ->
  NoDup (email <$> sortAccounts (registry s)) /\
  (forall a, a ∈ sortAccounts (registry s) ->
             credentialsPath a = credentialsPathIn dir (email a) /\
             getAccountInfo (email a) s = (Ok (Obj.Own a), s)).
Proof.
  intros [Hnd Hall].
  assert (email <$> Obj.values (registry s) = Obj.keys (registry s)) as Hkeys.
  { unfold Obj.values, Obj.keys. rewrite <- list_fmap_compose.
    apply Forall_fmap_ext_1. eapply Forall_impl; [exact Hall|]. by intros [k i] [? _]. }
  split.
  - unfold sortAccounts. rewrite sort_perm. by rewrite Hkeys.
  - intros a Ha. unfold sortAccounts in Ha. rewrite sort_perm in Ha.
    apply list_elem_of_fmap in Ha as ([k i] & -> & Hin).
    rewrite Forall_forall in Hall. destruct (Hall _ Hin) as [He Hp]. simpl in *.
    split; [by rewrite Hp, He|].
    rewrite getAccountInfo_eq. rewrite He.
    pose proof (NoDup_get _ _ _ Hnd Hin) as Hget.
    rewrite resolve_known by (rewrite Hget; eauto). by rewrite (lookup_own _ _ _ Hget).
Qed.

(** X6 — Every call of a manager keeps the registry well formed: no email
    is registered twice, every entry is stored under its own email, and
    its credentials path is the file named after that email in the accounts
    directory.  Hence [listAccounts] never lists an email twice, and every
    listed account is the one [getAccountInfo] returns for its email.  Both
    managers, any sequence of calls. *)
Theorem registry_stays_keyed_by_email :
  (forall (ops : list ICloudOp) (s : State unit ICloud.AccountCredentials unit),
      wellFormed ICloud.ACCOUNTS_DIR (registry s) ->
      let s' := runICloudOps ops s in
      wellFormed ICloud.ACCOUNTS_DIR (registry s') /\
      exists l, listAccounts s' = (Ok l, s') /\ NoDup (email <$> l) /\
                forall a, a ∈ l ->
                  credentialsPath a = credentialsPathIn ICloud.ACCOUNTS_DIR (email a) /\
                  getAccountInfo (email a) s' = (Ok (Obj.Own a), s')) /\
  (forall (Cred : Type) (ops : list (GmailOp Cred))
          (s : State (list string) Cred (gset string)),
      wellFormed Gmail.ACCOUNTS_DIR (registry s) ->
      let s' := runGmailOps ops s in
      wellFormed Gmail.ACCOUNTS_DIR (registry s') /\
      exists l, listAccounts s' = (Ok l, s') /\ NoDup (email <$> l) /\
                forall a, a ∈ l ->
                  credentialsPath a = credentialsPathIn Gmail.ACCOUNTS_DIR (email a) /\
                  getAccountInfo (email a) s' = (Ok (Obj.Own a), s')).
Proof.
  split.
  - intros ops s H s'.
    assert (wellFormed ICloud.ACCOUNTS_DIR (registry s')) as H'.
    { apply (foldl_invariant (fun s => wellFormed ICloud.ACCOUNTS_DIR (registry s))
               (fun _ => True)); [| apply Forall_True | done].
      intros a b _. apply icloud_op_wellFormed. }
    split; [exact H'|]. exists (sortAccounts (registry s')).
    split; [done|]. by apply wellFormed_list.
  - intros Cred ops s H s'.
    assert (wellFormed Gmail.ACCOUNTS_DIR (registry s')) as H'.
    { apply (foldl_invariant (fun s => wellFormed Gmail.ACCOUNTS_DIR (registry s))
               (fun _ => True)); [| apply Forall_True | done].
      intros a b _. apply gmail_op_wellFormed. }
    split; [exact H'|]. exists (sortAccounts (registry s')).
    split; [done|]. by apply wellFormed_list.
Qed.

Lemma keyed_by_email_witness :
  wellFormed ICloud.ACCOUNTS_DIR
    (registry (runICloudOps
                 [IAdd (ICloud.mkCredentials "a@icloud.com" "aaaa-bbbb-cccc-dddd") (Some "home");
                  ISetActive "home"; IRemove "nobody"; IGetCredentials None]
                 (freshState tt))).
Proof.
  destruct (proj1 registry_stays_keyed_by_email
              [IAdd (ICloud.mkCredentials "a@icloud.com" "aaaa-bbbb-cccc-dddd") (Some "home");
               ISetActive "home"; IRemove "nobody"; IGetCredentials None]
              (freshState tt)) as [H _]; [split; constructor | exact H].
Defined.



Section ActiveFacts.
Context {S C K : Type}.
Implicit Types (s : State S C K).


End ActiveFacts.




(** ** Aliases and credentials: what is written can be read back *)

Section AliasRoundTrip.
Context {S : Type}.
Implicit Types (r : list (string * AccountInfo S)) (v : AccountInfo S).

Lemma elem_of_set_weak r k v k' v' :
  (k', v') ∈ Obj.set r k v -> (k', v') = (k, v) \/ (k', v') ∈ r.
Proof.
  induction r as [|[k0 v0] r IH]; simpl; intros Hin.
  - apply list_elem_of_singleton in Hin. by left.
  - destruct (decide (k0 = k)) as [->|Hne].
    + apply elem_of_cons in Hin as [Hin|Hin]; [by left | right; by right].
    + apply elem_of_cons in Hin as [Hin|Hin]; [right; rewrite Hin; left|].
      destruct (IH Hin) as [?|?]; [by left | right; by right].
Qed.

Lemma set_elem r k v : (k, v) ∈ Obj.set r k v.
Proof. apply get_Some_elem, get_set_eq. Qed.

(** After [registry[key]] is given an entry with the alias [a], which no
    other entry has, which is not the key of another entry and which names
    no member of [Object.prototype], [a] resolves to [key]. *)
Lemma resolve_set_alias r key v a :
  plain a ->
  alias v = Some a ->
  (forall k i, (k, i) ∈ r -> k <> key -> alias i <> Some a) ->
  (a ∈ Obj.keys r -> a = key) ->
  resolve (Obj.set r key v) a = key.
Proof.
  intros Hplain Hv Halias Hkey. unfold resolve.
  destruct (Obj.has (Obj.set r key v) a) eqn:Hhas.
  - rewrite has_plain in Hhas by done. apply bool_decide_eq_true in Hhas.
    apply get_is_Some_keys, keys_set_elem in Hhas as [->|Hin]; [done | auto].
  - destruct (find_is_Some (fun p => bool_decide (alias p.2 = Some a)) (Obj.set r key v)
                (key, v) (set_elem r key v)) as [[k' i'] Hfind];
      [by apply bool_decide_eq_true|].
    unfold findAlias. rewrite Hfind.
    apply find_Some_first in Hfind as (n & Hn & Hp & _).
    apply bool_decide_eq_true in Hp. simpl in Hp.
    apply list_elem_of_lookup_2, elem_of_set_weak in Hn as [[= -> ->]|Hin]; [done|].
    destruct (decide (k' = key)) as [|Hne]; [done|]. by destruct (Halias k' i' Hin Hne).
Qed.

Lemma aliasTaken_None (r : list (string * AccountInfo (list string))) a owner :
  Gmail.aliasTaken r a owner = None ->
  forall k i, (k, i) ∈ r -> k <> owner -> alias i <> Some a.
Proof.
  induction r as [|[k0 i0] r IH]; simpl; intros Hnone k i Hin Hk.
  - by apply elem_of_nil in Hin.
  - destruct (bool_decide (alias i0 = Some a) && negb (bool_decide (k0 = owner))) eqn:H1;
      [done|].
    apply elem_of_cons in Hin as [[= -> ->]|Hin]; [|by apply (IH Hnone k i)].
    rewrite (bool_decide_eq_false_2 (k0 = owner)) in H1 by done.
    rewrite andb_true_r in H1. by apply bool_decide_eq_false in H1.
Qed.
End AliasRoundTrip.

(** X9 — An alias that was set can be used.  The identifier and the
    alias name no member of [Object.prototype].  After a successful iCloud
    [setAlias(id, a)], [a] resolves to the account [id] resolved to, and
    [getAccountInfo(a)] is the entry of that account, with the alias [a].
    The Gmail [set_account_alias] tool, which builds its reply from
    [getAccountInfo(a)], reports the account that received the alias when
    [a] is not the email of another account; when it is, the reply is built
    from that other account. *)
Theorem alias_set_then_resolved :
  (forall (s s' : State unit ICloud.AccountCredentials unit) (id a : string),
      plain id -> plain a ->
      ICloud.setAlias id a s = (Ok tt, s') ->
      let key := resolve (registry s) id in
      resolve (registry s') a = key /\
      exists info,
        getAccountInfo a s' = (Ok (Obj.Own info), s') /\
        Obj.get (registry s') key = Some info /\ alias info = Some a) /\
  (forall (Cred : Type) (s s' : State (list string) Cred (gset string)) (id a : string) reply,
      plain id -> plain a ->
      GmailTools.set_account_alias id a s = (Ok reply, s') ->
      let key := resolve (registry s) id in
      ((is_Some (Obj.get (registry s) a) -> a = key) ->
       exists info,
         reply = Obj.Own info /\ Obj.get (registry s') key = Some info /\
         alias info = Some a) /\
      (forall other,
          Obj.get (registry s) a = Some other -> a <> key -> reply = Obj.Own other)).
Proof.
  split.
  - intros s s' id a Hpid Hpa Hrun key. rewrite icloud_setAlias_eq in Hrun. cbv zeta in Hrun.
    fold key in Hrun. destruct (Obj.has (registry s) key) eqn:Hhas; [|done].
    destruct (ICloud.aliasUnavailable _ _ _) eqn:Hcheck; [done|]. injection Hrun as <-.
    apply (has_resolve _ _ Hpid) in Hhas as [i Hi]. fold key in Hi.
    cbn [registry]. unfold assignAlias. rewrite Hi.
    assert (resolve (Obj.set (registry s) key
                       (mkAccountInfo (email i) (Some a) (credentialsPath i) (lastUsed i)
                          (scopes i))) a = key) as Hres.
    { apply resolve_set_alias; [done | done | |].
      - intros k i' Hin Hk. by destruct (aliasUnavailable_None _ _ _ Hcheck k i' Hin Hk).
      - intros Hin. destruct (decide (a = key)) as [|Hne]; [done|].
        apply get_is_Some_keys in Hin as [i' Hin]. apply get_Some_elem in Hin.
        by destruct (aliasUnavailable_None _ _ _ Hcheck a i' Hin Hne). }
    split; [exact Hres|]. eexists. rewrite getAccountInfo_eq. cbn [registry].
    rewrite Hres. rewrite (lookup_own _ _ _ (get_set_eq _ _ _)). rewrite get_set_eq. done.
  - intros Cred s s' id a reply Hpid Hpa Hrun key.
    unfold GmailTools.set_account_alias, bind in Hrun.
    rewrite gmail_setAlias_eq in Hrun. cbv zeta in Hrun. fold key in Hrun.
    destruct (Obj.has (registry s) key) eqn:Hhas; [|done].
    destruct (Gmail.aliasTaken _ _ _) eqn:Hcheck; [done|].
    rewrite getAccountInfo_eq in Hrun. injection Hrun as <- <-.
    apply (has_resolve _ _ Hpid) in Hhas as [i Hi]. fold key in Hi.
    cbn [registry]. unfold assignAlias. rewrite Hi.
    split.
    + intros Hkey. rewrite resolve_set_alias; [| done | done | |].
      * rewrite (lookup_own _ _ _ (get_set_eq _ _ _)). rewrite get_set_eq. eauto.
      * by apply aliasTaken_None.
      * intros Hin. by apply Hkey, get_is_Some_keys.
    + intros other Hother Hne.
      rewrite resolve_known by (rewrite get_set_ne by done; eauto).
      apply lookup_own. by rewrite get_set_ne.
Qed.

Lemma alias_witness :
  resolve (registry (ICloud.setAlias "b@icloud.com" "office" icloudTwoAccounts).2) "office"
    = "b@icloud.com" /\
  (GmailTools.set_account_alias "b@gmail.com" "a@gmail.com" gmailTwoAccounts).1 =
    Ok (Obj.Own (mkAccountInfo "a@gmail.com" (Some "work")
                   "~/.gmail-mcp/accounts/a@gmail.com.json" 0 Gmail.defaultScopes)).
Proof.
  destruct alias_set_then_resolved as [Hicloud Hgmail]. split.
  - apply (Hicloud icloudTwoAccounts
             (ICloud.setAlias "b@icloud.com" "office" icloudTwoAccounts).2
             "b@icloud.com" "office"); [reflexivity | reflexivity | by vm_compute].
  - destruct (GmailTools.set_account_alias "b@gmail.com" "a@gmail.com" gmailTwoAccounts)
      as [reply s'] eqn:Hrun.
    destruct reply as [reply|e]; [|by vm_compute in Hrun].
    destruct (Hgmail unit gmailTwoAccounts s' "b@gmail.com" "a@gmail.com" reply
                eq_refl eq_refl Hrun) as [_ Hother].
    simpl. f_equal. apply Hother; [reflexivity | by vm_compute].
Defined.

Lemma credentialsOf_found label key info c (s : State unit ICloud.AccountCredentials unit) :
  Obj.get (registry s) key = Some info ->
  credentialFiles s !! credentialsPath info = Some c ->
  credentialsOf label key s = (Ok c, refreshed key s).
Proof.
  intros Hi Hc. unfold credentialsOf.
  rewrite has_own by (rewrite Hi; eauto). rewrite Hi. simpl. by rewrite Hc.
Qed.

(** After [addAccount], the credentials can be fetched by email and, for
    an alias that names no member of [Object.prototype], by alias. *)
Lemma addAccount_then_getCredentials :
  forall (s s' : State unit ICloud.AccountCredentials unit) credentials a,
    ICloud.addAccount credentials a s = (Ok tt, s') ->
    ICloud.credEmail credentials <> "" ->
    let stored := ICloud.mkCredentials (ICloud.credEmail credentials)
                                       (ICloud.appPassword credentials) in
    (ICloud.getCredentials (Some (ICloud.credEmail credentials)) s').1 = Ok stored /\
    (JS.truthy a = true -> plain (default "" a) ->
     (ICloud.getCredentials a s').1 = Ok stored).
Proof.
  intros s s' cred a Hrun Haddr stored. rewrite icloud_addAccount_eq in Hrun.
  unfold icloudAddCollision in Hrun.
  destruct (if JS.truthy a then _ else None) eqn:Hcheck; [done|].
  set (addr := ICloud.credEmail cred) in *.
  set (p := credentialsPathIn ICloud.ACCOUNTS_DIR addr).
  set (v := mkAccountInfo addr a p (time s (tick s)) tt).
  assert (exists d, Obj.get (registry s') addr = Some (mkAccountInfo addr a p d tt) /\
                    credentialFiles s' !! p = Some stored /\
                    forall id, resolve (registry s') id =
                               resolve (Obj.set (registry s) addr v) id)
    as (d & Hget & Hfile & Hres).
  { cbv zeta in Hrun. case_bool_decide.
    - rewrite setActiveAccount_known in Hrun by apply icloud_added_known.
      injection Hrun as <-. cbn [registry credentialFiles icloudAdded]. eexists.
      split; [erewrite get_touch_eq by apply get_set_eq; reflexivity|].
      split; [apply lookup_insert_eq | intros id; apply resolve_touch].
    - injection Hrun as <-. cbn [registry credentialFiles icloudAdded]. eexists.
      split; [apply get_set_eq|]. split; [apply lookup_insert_eq | done]. }
  split.
  - rewrite getCredentials_named by done. fold addr.
    rewrite resolve_known by (rewrite Hget; eauto).
    by rewrite (credentialsOf_found _ _ _ stored _ Hget Hfile).
  - intros Ha Hp. destruct a as [[|c a]|]; try done. rewrite getCredentials_named by done.
    rewrite Hres, resolve_set_alias; [|done | done | |].
    + by rewrite (credentialsOf_found _ _ _ stored _ Hget Hfile).
    + intros k i Hin Hk. simpl in Hcheck.
      by destruct (aliasUnavailable_None _ _ _ Hcheck k i Hin Hk).
    + intros Hin. destruct (decide (String c a = addr)) as [|Hne]; [done|].
      apply get_is_Some_keys in Hin as [i Hin]. apply get_Some_elem in Hin.
      simpl in Hcheck. by destruct (aliasUnavailable_None _ _ _ Hcheck _ i Hin Hne).
Qed.

(** X10 — Credentials that were added can be fetched.  After a successful
    iCloud [addAccount(credentials, alias)], [getCredentials] returns the
    email and the app password that were added, both for the email and, when
    an alias was given that names no member of [Object.prototype], for the
    alias. *)
Theorem added_credentials_are_returned :
  forall (s s' : State unit ICloud.AccountCredentials unit) credentials a,
    ICloud.addAccount credentials a s = (Ok tt, s') ->
    ICloud.credEmail credentials <> "" ->
    let stored := ICloud.mkCredentials (ICloud.credEmail credentials)
                                       (ICloud.appPassword credentials) in
    (ICloud.getCredentials (Some (ICloud.credEmail credentials)) s').1 = Ok stored /\
    (JS.truthy a = true -> plain (default "" a) ->
     (ICloud.getCredentials a s').1 = Ok stored).
Proof. exact addAccount_then_getCredentials. Qed.

Lemma added_credentials_witness :
  (ICloud.getCredentials (Some "work")
     (ICloud.addAccount (ICloud.mkCredentials "c@icloud.com" "iiii-jjjj-kkkk-llll")
        (Some "work") icloudTwoAccounts).2).1
    = Ok (ICloud.mkCredentials "c@icloud.com" "iiii-jjjj-kkkk-llll").
Proof.
  apply (added_credentials_are_returned icloudTwoAccounts _
           (ICloud.mkCredentials "c@icloud.com" "iiii-jjjj-kkkk-llll") (Some "work"));
    by vm_compute.
Defined.

(** X11 — [getCredentials] without an identifier ([undefined] or the empty
    string) when no account is active (the active-account file is absent,
    empty or blank).  Without accounts it throws "No accounts
    authenticated", with two or more it throws "No active account", and in
    both cases nothing is changed: it never picks one of several accounts.
    With exactly one account, stored under its email and with its
    credentials file in place, it makes that account the active one, saves
    the registry and returns the content of the file. *)
Theorem getCredentials_without_active_account :
  forall (s : State unit ICloud.AccountCredentials unit) (id : option string),
    JS.truthy id = false -> noActiveAccount s ->
    (registry s = [] -> ICloud.getCredentials id s = (Throw NoAccounts, s)) /\
    ((2 <= List.length (registry s))%nat ->
     ICloud.getCredentials id s = (Throw NoActiveAccount, s)) /\
    (forall k info c,
        registry s = [(k, info)] -> email info = k ->
        credentialFiles s !! credentialsPath info = Some c ->
        exists s',
          ICloud.getCredentials id s = (Ok c, s') /\
          activeFile s' = Some k /\ registryFile s' = Some (registry s') /\
          Obj.keys (registry s') = [k]).
Proof.
  intros s id Hid Hact. rewrite getCredentials_inactive by done.
  pose proof (sortAccounts_length (registry s)) as Hlen.
  split; [|split].
  - intros Hr. rewrite Hr in *. by destruct (sortAccounts []).
  - intros H2. destruct (sortAccounts (registry s)) as [|a [|b l]]; simpl in Hlen; [lia.. |done].
  - intros k info c Hr He Hc. unfold sortAccounts, Obj.values. rewrite Hr. simpl.
    rewrite He.
    assert (Obj.get (registry s) k = Some info) as Hget
      by (rewrite Hr; simpl; by rewrite decide_True).
    rewrite setActiveAccount_known by (rewrite Hget; eauto). cbv zeta.
    erewrite credentialsOf_found;
      [| cbn [registry]; by apply get_touch_eq | cbn [credentialFiles credentialsPath]; exact Hc].
    eexists. split; [reflexivity|]. unfold refreshed.
    cbn [activeFile registryFile registry].
    split; [done|]. split; [done|]. rewrite !keys_touch. by rewrite Hr.
Qed.

Lemma getCredentials_without_active_witness :
  ICloud.getCredentials None (freshState tt) = (Throw NoAccounts, freshState tt) /\
  exists s',
    ICloud.getCredentials None icloudOneLeft =
      (Ok (ICloud.mkCredentials "b@icloud.com" "eeee-ffff-gggg-hhhh"), s') /\
    activeFile s' = Some "b@icloud.com".
Proof.
  split.
  - apply (getCredentials_without_active_account (freshState tt) None); reflexivity.
  - destruct (getCredentials_without_active_account icloudOneLeft None)
      as (_ & _ & Hone); [reflexivity | reflexivity |].
    destruct (Hone "b@icloud.com"
                (mkAccountInfo "b@icloud.com" None "~/.icloud-mcp/accounts/b@icloud.com.json"
                   0 tt)
                (ICloud.mkCredentials "b@icloud.com" "eeee-ffff-gggg-hhhh"))
      as (s' & Hrun & Hact & _); [reflexivity | reflexivity | by vm_compute |].
    by exists s'.
Defined.

(** ** Removing an account *)



(** ** The cache of IMAP clients of the iCloud server *)

Section ImapClientCache.
Variable srv : Imap.Server.
Implicit Types (w : ICloudTools.ServerState).

Lemma getImapClient_eq account w :
  ICloudTools.getImapClient srv account w =
    let r := ICloud.getCredentials account (ICloudTools.accountManager w) in
    let w1 := ICloudTools.mkServerState r.2 (ICloudTools.imapClients w) in
    match r.1 with
    | Throw e => (Throw e, w1)
    | Ok c =>
        match ICloudTools.imapClients w !! ICloud.credEmail c with
        | Some cl => (Ok (Some cl), w1)
        | None =>
            match Imap.fails srv [] Imap.Connect with
            | Some msg => (Throw (ProtocolError msg), w1)
            | None =>
                let cl := ICloudTools.mkImapClient c
                            (Imap.mkSession true None [Imap.Connect]) in
                (Ok (Some cl),
                 ICloudTools.mkServerState r.2
                   (<[ICloud.credEmail c := cl]> (ICloudTools.imapClients w)))
            end
        end
    end.
Proof.
  unfold ICloudTools.getImapClient, ICloudTools.onManager, ICloudTools.connectNewClient.
  unfold bind at 1. cbv zeta.
  destruct (ICloud.getCredentials account (ICloudTools.accountManager w)) as [[c|e] m'];
    [|done].
  cbn [fst snd]. monad_unfold. cbn [ICloudTools.imapClients ICloudTools.accountManager].
  destruct (ICloudTools.imapClients w !! ICloud.credEmail c) as [cl|] eqn:Hc.
  - rewrite bool_decide_eq_true_2 by eauto. cbn. by rewrite Hc.
  - rewrite bool_decide_eq_false_2 by (by intros [? ?]). cbn.
    unfold Imap.connect, bind, gets, modify. cbn. rewrite send_eq. cbn.
    destruct (Imap.fails srv [] Imap.Connect); cbn; [done|].
    by rewrite lookup_insert_eq.
Qed.
End ImapClientCache.

(** X13 — One IMAP client per account.  When [getImapClient] has returned
    a client for an identifier, a later call whose credentials lookup gives
    the same email (the email itself, an alias, or no identifier while the
    account is active) returns that same client: nothing is sent, no second
    client is constructed, and the cache is left as it is.  The first call
    either found the client in the cache or stored it there after one
    accepted connect command. *)
Theorem imap_client_shared_per_email :
  forall (srv : Imap.Server) (w w1 : ICloudTools.ServerState) (id1 id2 : option string)
         (cl : ICloudTools.ImapClient) (c1 c2 : ICloud.AccountCredentials)
         (m1 m2 : State unit ICloud.AccountCredentials unit),
    ICloud.getCredentials id1 (ICloudTools.accountManager w) = (Ok c1, m1) ->
    ICloudTools.getImapClient srv id1 w = (Ok (Some cl), w1) ->
    ICloud.getCredentials id2 (ICloudTools.accountManager w1) = (Ok c2, m2) ->
    ICloud.credEmail c2 = ICloud.credEmail c1 ->
    ICloudTools.imapClients w1 !! ICloud.credEmail c1 = Some cl /\
    (ICloudTools.imapClients w !! ICloud.credEmail c1 = None ->
     cl = ICloudTools.mkImapClient c1 (Imap.mkSession true None [Imap.Connect])) /\
    ICloudTools.getImapClient srv id2 w1 =
      (Ok (Some cl), ICloudTools.mkServerState m2 (ICloudTools.imapClients w1)).
Proof.
  intros srv w w1 id1 id2 cl c1 c2 m1 m2 Hc1 Hrun Hc2 Hsame.
  rewrite getImapClient_eq in Hrun. cbv zeta in Hrun. rewrite Hc1 in Hrun. cbn [fst snd] in Hrun.
  assert (ICloudTools.imapClients w1 !! ICloud.credEmail c1 = Some cl /\
          (ICloudTools.imapClients w !! ICloud.credEmail c1 = None ->
           cl = ICloudTools.mkImapClient c1 (Imap.mkSession true None [Imap.Connect])))
    as [Hcached Hnew].
  { destruct (ICloudTools.imapClients w !! ICloud.credEmail c1) as [cl0|] eqn:Hcache.
    - injection Hrun as <- <-. by cbn.
    - destruct (Imap.fails srv [] Imap.Connect); [done|]. injection Hrun as <- <-.
      cbn. by rewrite lookup_insert_eq. }
  split; [exact Hcached|]. split; [exact Hnew|].
  rewrite getImapClient_eq. cbv zeta. rewrite Hc2. cbn [fst snd].
  by rewrite Hsame, Hcached.
Qed.

(** X14 — A cached client outlives its credentials.  When an account that
    has a cached IMAP client is added again, with another app password, the
    manager returns the new password from then on, but [getImapClient] still
    returns the client that was cached, with the credentials it was
    constructed with: [addAccount] does not touch the cache. *)
Theorem cached_client_survives_new_credentials :
  forall (srv : Imap.Server) (w : ICloudTools.ServerState) (cl : ICloudTools.ImapClient)
         (credentials : ICloud.AccountCredentials) (a : option string)
         (m' : State unit ICloud.AccountCredentials unit),
    ICloudTools.imapClients w !! ICloud.credEmail credentials = Some cl ->
    ICloud.credEmail credentials <> "" ->
    ICloud.addAccount credentials a (ICloudTools.accountManager w) = (Ok tt, m') ->
    let w' := ICloudTools.mkServerState m' (ICloudTools.imapClients w) in
    ICloudTools.onManager (ICloud.addAccount credentials a) w = (Ok tt, w') /\
    (ICloud.getCredentials (Some (ICloud.credEmail credentials)) m').1 =
      Ok (ICloud.mkCredentials (ICloud.credEmail credentials)
                               (ICloud.appPassword credentials)) /\
    (ICloudTools.getImapClient srv (Some (ICloud.credEmail credentials)) w').1 =
      Ok (Some cl).
Proof.
  intros srv w cl cred a m' Hcached Haddr Hadd w'.
  destruct (addAccount_then_getCredentials _ _ _ _ Hadd Haddr) as [Hget _].
  split; [unfold ICloudTools.onManager; by rewrite Hadd|]. split; [exact Hget|].
  rewrite getImapClient_eq. cbv zeta. cbn [ICloudTools.accountManager ICloudTools.imapClients w'].
  rewrite Hget. cbn [ICloud.credEmail]. by rewrite Hcached.
Qed.

Lemma imap_client_shared_witness :
  ICloudTools.getImapClient noTrashServer (Some "a@icloud.com") icloudHomeConnected =
    (Ok (Some (ICloudTools.mkImapClient
                 (ICloud.mkCredentials "a@icloud.com" "aaaa-bbbb-cccc-dddd")
                 (Imap.mkSession true None [Imap.Connect]))),
     ICloudTools.mkServerState
       (ICloud.getCredentials (Some "a@icloud.com")
          (ICloudTools.accountManager icloudHomeConnected)).2
       (ICloudTools.imapClients icloudHomeConnected)).
Proof.
  apply (imap_client_shared_per_email noTrashServer icloudServerState icloudHomeConnected
           (Some "home") (Some "a@icloud.com") _
           (ICloud.mkCredentials "a@icloud.com" "aaaa-bbbb-cccc-dddd")
           (ICloud.mkCredentials "a@icloud.com" "aaaa-bbbb-cccc-dddd")
           (ICloud.getCredentials (Some "home") icloudTwoAccounts).2);
    by vm_compute.
Defined.

Lemma cached_client_witness :
  (ICloudTools.getImapClient noTrashServer (Some "a@icloud.com")
     (ICloudTools.onManager
        (ICloud.addAccount (ICloud.mkCredentials "a@icloud.com" "mmmm-nnnn-oooo-pppp") None)
        icloudHomeConnected).2).1 =
    Ok (Some (ICloudTools.mkImapClient
                (ICloud.mkCredentials "a@icloud.com" "aaaa-bbbb-cccc-dddd")
                (Imap.mkSession true None [Imap.Connect]))).
Proof.
  destruct (cached_client_survives_new_credentials noTrashServer icloudHomeConnected
              (ICloudTools.mkImapClient
                 (ICloud.mkCredentials "a@icloud.com" "aaaa-bbbb-cccc-dddd")
                 (Imap.mkSession true None [Imap.Connect]))
              (ICloud.mkCredentials "a@icloud.com" "mmmm-nnnn-oooo-pppp") None
              (ICloud.addAccount (ICloud.mkCredentials "a@icloud.com" "mmmm-nnnn-oooo-pppp")
                 None (ICloudTools.accountManager icloudHomeConnected)).2)
    as (Hadd & _ & Hclient); [by vm_compute.. |].
  rewrite Hadd. exact Hclient.
Defined.

(** ** Batch processing, whatever the processing function *)

Section GenericBatch.
Context {St T U : Type} (processFn : list T -> M St (list U)).

Lemma retryItems_generic batch acc h :
  exists acc' h' failed,
    Batch.retryItems processFn batch acc h = (Ok acc', h') /\
    Batch.failures acc' = Batch.failures acc ++ failed /\
    failed.*1 `sublist_of` batch.
Proof.
  revert acc h. induction batch as [|item batch IH]; intros acc h.
  - exists acc, h, []. simpl. by rewrite app_nil_r.
  - cbn [Batch.retryItems]. unfold bind at 1, tryCatch, bind at 1, ret.
    destruct (processFn [item] h) as [[ys|e] h1].
    + destruct (IH (Batch.pushSuccesses acc ys) h1) as (acc' & h' & failed & Hrun & Hf & Hsub).
      exists acc', h', failed. split; [done|]. split; [done | by constructor].
    + destruct (IH (Batch.pushFailure acc item e) h1) as (acc' & h' & failed & Hrun & Hf & Hsub).
      exists acc', h', ((item, e) :: failed). split; [done|]. split.
      * rewrite Hf. simpl. by rewrite <- app_assoc.
      * csimpl. by constructor.
Qed.

Lemma processBatch_generic batch acc h :
  exists acc' h' failed,
    Batch.processBatch processFn batch acc h = (Ok acc', h') /\
    Batch.failures acc' = Batch.failures acc ++ failed /\
    failed.*1 `sublist_of` batch /\
    (is_Some (match (processFn batch h).1 with Ok ys => Some ys | Throw _ => None end) ->
     failed = []).
Proof.
  unfold Batch.processBatch, tryCatch, bind, ret.
  destruct (processFn batch h) as [[ys|e] h1]; simpl.
  - exists (Batch.pushSuccesses acc ys), h1, []. simpl. rewrite app_nil_r.
    split; [done|]. split; [done|]. split; [apply sublist_nil_l | done].
  - destruct (retryItems_generic batch acc h1) as (acc' & h' & failed & Hrun & Hf & Hsub).
    exists acc', h', failed. split; [done|]. split; [done|]. split; [done|].
    by intros [? ?].
Qed.

Lemma processChunks_generic cs acc h :
  exists acc' h' failed,
    Batch.processChunks processFn cs acc h = (Ok acc', h') /\
    Batch.failures acc' = Batch.failures acc ++ failed /\
    failed.*1 `sublist_of` List.concat cs /\
    ((forall b h0, exists ys h1, processFn b h0 = (Ok ys, h1)) -> failed = []).
Proof.
  revert acc h. induction cs as [|c cs IH]; intros acc h.
  - exists acc, h, []. simpl. by rewrite app_nil_r.
  - cbn [Batch.processChunks]. unfold bind at 1.
    destruct (processBatch_generic c acc h) as (acc1 & h1 & f1 & Hrun & Hf1 & Hsub1 & Hok1).
    rewrite Hrun.
    destruct (IH acc1 h1) as (acc' & h' & f2 & Hrun' & Hf2 & Hsub2 & Hok2).
    exists acc', h', (f1 ++ f2). split; [done|]. split; [|split].
    + rewrite Hf2, Hf1. by rewrite <- app_assoc.
    + rewrite fmap_app. simpl. by apply sublist_app.
    + intros Hnever. rewrite (Hok2 Hnever), app_nil_r. apply Hok1.
      destruct (Hnever c h) as (ys & h2 & ->). simpl. eauto.
Qed.
End GenericBatch.

(** X15 — [processBatches] with any processing function.  For a batch
    size that is a positive whole number and a loop that is given more iterations than there are
    items, [processBatches] returns a result and never throws, whatever the
    processing function does.  The failed items come in input order: they
    are a subsequence of the input.  When the processing function never
    throws, no failure is reported. *)
Theorem processBatches_contains_every_failure :
  forall (St T U : Type) (processFn : list T -> M St (list U))
         (items : list T) (n fuel : nat) (h : St),
    (0 < n)%nat -> (List.length items < fuel)%nat ->
    exists res h',
      Batch.processBatches processFn fuel items (inject_Z (Z.of_nat n)) h
        = (Ok (Some res), h') /\
      (Batch.failures res).*1 `sublist_of` items /\
      ((forall b h0, exists ys h1, processFn b h0 = (Ok ys, h1)) ->
       Batch.failures res = []).
Proof.
  intros St T U processFn items n fuel h Hn Hfuel. unfold Batch.processBatches.
  change 0%Q with (inject_Z (Z.of_nat 0)). rewrite batchLoop_chunks by lia. rewrite drop_0.
  destruct (processChunks_generic processFn (Batch.chunks n items) (Batch.mkBatchResult [] []) h)
    as (res & h' & failed & Hrun & Hf & Hsub & Hok).
  exists res, h'. unfold bind, ret. rewrite Hrun. simpl in Hf. subst failed.
  rewrite chunks_concat in Hsub by done. repeat split; done.
Qed.

Lemma processBatches_witness :
  exists res h',
    Batch.processBatches (Batch.promiseAllMap (itemCall rejectBad Batch.MessagesDelete))
      4 ["a"; "bad"; "c"] (inject_Z 2) [] = (Ok (Some res), h') /\
    (Batch.failures res).*1 `sublist_of` ["a"; "bad"; "c"].
Proof.
  destruct (processBatches_contains_every_failure _ _ _
              (Batch.promiseAllMap (itemCall rejectBad Batch.MessagesDelete))
              ["a"; "bad"; "c"] 2%nat 4%nat [])
    as (res & h' & Hrun & Hsub & _); [lia | simpl; lia |].
  exists res, h'. split; [exact Hrun | exact Hsub].
Defined.

(** ** Message identifiers *)

(** X16 — The identifier of a search result can be handed back.
    [searchEmails] reports the UID of a message as [msg.uid.toString()], and
    [readEmail], [moveEmail], [deleteEmail] and [downloadAttachment] read
    the identifier they are given with [parseInt(uid, 10)]: reading the
    reported string gives the UID of the message, for every integer. *)
Theorem search_uid_read_back :
  forall (msg : Imap.FetchMessageObject) (r : Imap.EmailSearchResult),
    Imap.toSearchResult msg = Some r ->
    JS.parseInt (Imap.srUid r) = Some (Imap.msgUid msg).
Proof.
  intros msg r. unfold Imap.toSearchResult.
  destruct (Imap.msgEnvelope msg); [|done]. intros [= <-]. simpl.
  apply parseInt_toString.
Qed.

Lemma search_uid_witness :
  JS.parseInt "1024" = Some 1024.
Proof.
  apply (search_uid_read_back
           (plainMessage 1024)
           (Imap.mkEmailSearchResult "1024" "hello" [] [] (Some 0) [] false)).
  reflexivity.
Defined.
